(** * node-simple-http-server: the multipart decoder and its task orchestrators

    A shallow embedding of [src/util.mjs] (splitBuffer), [src/async.mjs]
    (asyncQueue, asyncParallel) and [src/http/http-form.mjs] (HttpFile,
    HttpForm), followed by the properties of the specification that they
    decide.

    The embedding also covers [toCamelCase], [computeIfAbsentMap],
    [isEmpty] and [defaultValues] of [src/util.mjs], [src/enumeration.mjs],
    [src/http/http-range.mjs], the handler of a file of [src/handlers.mjs]
    and [src/http/http-server.mjs]; the last sections give properties of
    these and of the decoder that the code itself shows.

    Conventions.
    - A [Buffer] is the list of its bytes; an index is a [Z], because the
      source computes with [-1] ("not found") as an ordinary number.
    - A JavaScript string is the list of its UTF-16 code units.
    - A JavaScript exception is the [Throw] branch of [Result].
    - A plain object is the list of its own properties, in the order in
      which they were added.
    - The event loop is a machine with a FIFO microtask queue, a set of
      continuations waiting for an external event, and a chronological log
      of what an observer of the emitter and of the sinks can see. *)

From Stdlib Require Import String Ascii.
From Stdlib.Strings Require Import Byte.
From Stdlib Require Import List ZArith Lia Bool Permutation Sorted.
From Stdlib Require Decimal DecimalNat.
Import ListNotations.
Local Open Scope Z_scope.



(* ================================================================== *)
(** ** JavaScript values that the modelled code handles               *)
(* ================================================================== *)

Inductive JsError := TypeError | RangeError.

Inductive Result (A : Type) :=
| Ok (a : A)
| Throw (e : JsError).
Arguments Ok {A} a.
Arguments Throw {A} e.

Definition JsString := list Z.

Definition js (s : string) : JsString :=
  map (fun a => Z.of_N (N_of_ascii a)) (list_ascii_of_string s).

Definition Buffer := list byte.

(** [Buffer.from(s)] for a string of ASCII characters. *)
Definition Buffer_from (s : string) : Buffer := list_byte_of_string s.

Definition blen (b : Buffer) : Z := Z.of_nat (length b).

Definition byteZ (b : byte) : Z := Z.of_N (Byte.to_N b).

(* ================================================================== *)
(** ** Buffer primitives of the runtime used by the source            *)
(* ================================================================== *)

Module Buf.

Fixpoint starts_with (needle hay : Buffer) : bool :=
  match needle, hay with
  | [], _ => true
  | _ :: _, [] => false
  | n :: needle', h :: hay' => Byte.eqb n h && starts_with needle' hay'
  end.

(** First position [>= pos] at which [needle] occurs, [hay] being the
    part of the buffer that starts at [pos]. *)
Fixpoint search (needle hay : Buffer) (pos : nat) : option nat :=
  if starts_with needle hay then Some pos
  else match hay with
       | [] => None
       | _ :: hay' => search needle hay' (S pos)
       end.

(** [buf.indexOf(value, byteOffset)] for a Buffer [value].  A negative
    offset counts from the end of the buffer; an offset past the end finds
    nothing, except for the empty needle, which is found at the end. *)
Definition indexOf (buf value : Buffer) (byteOffset : Z) : Z :=
  let len := blen buf in
  let nl := blen value in
  let off :=
    if byteOffset <? 0 then
      (if 0 <=? byteOffset + len then byteOffset + len else 0)
    else if byteOffset + nl <=? len then byteOffset
    else if nl =? 0 then len else -1 in
  if nl =? 0 then off
  else if off <? 0 then -1
  else match search value (skipn (Z.to_nat off) buf) (Z.to_nat off) with
       | Some i => Z.of_nat i
       | None => -1
       end.

Definition clamp (len i : Z) : Z :=
  if i <? 0 then Z.max (len + i) 0 else Z.min i len.

(** [buf.subarray(start, end)]: a view, here the bytes it shows. *)
Definition subarray (buf : Buffer) (start end_ : Z) : Buffer :=
  let s := clamp (blen buf) start in
  let e := clamp (blen buf) end_ in
  firstn (Z.to_nat (e - s)) (skipn (Z.to_nat s) buf).

(** [buf.subarray(start)]. *)
Definition subarray_from (buf : Buffer) (start : Z) : Buffer :=
  subarray buf start (blen buf).

Fixpoint lex (a b : Buffer) : Z :=
  match a, b with
  | [], [] => 0
  | [], _ :: _ => -1
  | _ :: _, [] => 1
  | x :: a', y :: b' =>
      if byteZ x <? byteZ y then -1
      else if byteZ y <? byteZ x then 1
      else lex a' b'
  end.

(** [source.compare(target, targetStart, targetEnd)]: compares the whole of
    [source] with [target[targetStart, targetEnd)]; offsets outside the
    target raise ERR_OUT_OF_RANGE. *)
Definition compare (source target : Buffer) (targetStart targetEnd : Z)
  : Result Z :=
  if (targetStart <? 0) || (targetEnd <? 0) || (blen target <? targetEnd)
  then Throw RangeError
  else Ok (lex source
             (firstn (Z.to_nat (targetEnd - targetStart))
                (skipn (Z.to_nat targetStart) target))).

(** *** UTF-8 decoding ([utf8Slice]) *)

Record Utf8 := { cp : Z; need : nat; lo : Z; hi : Z }.

Definition utf8_idle : Utf8 := {| cp := 0; need := 0; lo := 128; hi := 191 |}.

Definition REPLACEMENT : Z := 65533.

(** A byte read while no sequence is open. *)
Definition utf8_lead (b : Z) : list Z * Utf8 :=
  if b <? 128 then ([b], utf8_idle)
  else if (194 <=? b) && (b <=? 223) then
    ([], {| cp := Z.land b 31; need := 1; lo := 128; hi := 191 |})
  else if (224 <=? b) && (b <=? 239) then
    ([], {| cp := Z.land b 15; need := 2;
            lo := if b =? 224 then 160 else 128;
            hi := if b =? 237 then 159 else 191 |})
  else if (240 <=? b) && (b <=? 244) then
    ([], {| cp := Z.land b 7; need := 3;
            lo := if b =? 240 then 144 else 128;
            hi := if b =? 244 then 143 else 191 |})
  else ([REPLACEMENT], utf8_idle).

Definition utf8_step (st : Utf8) (b : Z) : list Z * Utf8 :=
  match need st with
  | O => utf8_lead b
  | S k =>
      if (lo st <=? b) && (b <=? hi st) then
        let c := Z.lor (Z.shiftl (cp st) 6) (Z.land b 63) in
        match k with
        | O => ([c], utf8_idle)
        | S _ => ([], {| cp := c; need := k; lo := 128; hi := 191 |})
        end
      else
        let (out, st') := utf8_lead b in (REPLACEMENT :: out, st')
  end.

Fixpoint utf8_points (st : Utf8) (bs : Buffer) : list Z :=
  match bs with
  | [] => match need st with O => [] | S _ => [REPLACEMENT] end
  | b :: bs' =>
      let (out, st') := utf8_step st (byteZ b) in
      out ++ utf8_points st' bs'
  end.

Definition utf16_units (c : Z) : list Z :=
  if c <? 65536 then [c]
  else [55296 + Z.shiftr (c - 65536) 10; 56320 + Z.land (c - 65536) 1023].

Definition utf8Slice (buf : Buffer) (start end_ : Z) : JsString :=
  flat_map utf16_units
    (utf8_points utf8_idle
       (firstn (Z.to_nat (end_ - start)) (skipn (Z.to_nat start) buf))).

(** [buf.toString(encoding, start, end)] with [encoding] undefined and both
    offsets given as numbers. *)
Definition toString (buf : Buffer) (start end_ : Z) : JsString :=
  let len := blen buf in
  if (0 <? start) && (len <=? start) then []
  else
    let s := if start <=? 0 then 0 else start in
    let e := if len <? end_ then len else end_ in
    if e <=? s then [] else utf8Slice buf s e.

End Buf.

(* ================================================================== *)
(** ** Regular expressions                                            *)
(* ================================================================== *)

(** The fragment of the regular expression language that the source uses,
    with the backtracking semantics of [RegExp.prototype.exec]: the
    alternatives of a match are listed in the order in which the engine
    tries them (greedy repetition first), the match starts at the leftmost
    position that has one, and its first alternative wins. *)
Module RegExp.

Inductive t :=
| Lit (s : JsString)             (* the characters themselves *)
| Plus (cls : Z -> bool)         (* one or more of a class, greedy *)
| Star (cls : Z -> bool)         (* zero or more of a class, greedy *)
| Eos                            (* $ without the m flag *)
| Group (r : t)                  (* ( ... ), the only group: index 1 *)
| Seq (r1 r2 : t).

(** [\s] *)
Definition space (c : Z) : bool :=
  ((9 <=? c) && (c <=? 13)) || (c =? 32) || (c =? 160) || (c =? 5760)
  || ((8192 <=? c) && (c <=? 8202)) || (c =? 8232) || (c =? 8233)
  || (c =? 8239) || (c =? 8287) || (c =? 12288) || (c =? 65279).

(** [\S] *)
Definition nonspace (c : Z) : bool := negb (space c).

(** [.] without the s flag *)
Definition dot (c : Z) : bool :=
  negb ((c =? 10) || (c =? 13) || (c =? 8232) || (c =? 8233)).

Fixpoint lit_rest (l s : JsString) : option JsString :=
  match l, s with
  | [], _ => Some s
  | _ :: _, [] => None
  | a :: l', b :: s' => if a =? b then lit_rest l' s' else None
  end.

(** The ways in which [cls*] matches a prefix of [s], longest first, each
    with the text it consumes and the text it leaves. *)
Fixpoint repeats (cls : Z -> bool) (s : JsString)
  : list (JsString * JsString) :=
  match s with
  | [] => [([], [])]
  | c :: s' =>
      if cls c
      then map (fun p => (c :: fst p, snd p)) (repeats cls s') ++ [([], s)]
      else [([], s)]
  end.

Definition nonempty (p : JsString * JsString) : bool :=
  match fst p with [] => false | _ :: _ => true end.

Record alt := {
  consumed : JsString;
  group1 : option JsString;
  rest : JsString
}.

Definition plain (p : JsString * JsString) : alt :=
  {| consumed := fst p; group1 := None; rest := snd p |}.

Fixpoint alts (r : t) (s : JsString) : list alt :=
  match r with
  | Lit l => match lit_rest l s with
             | Some s' => [plain (l, s')]
             | None => []
             end
  | Plus cls => map plain (filter nonempty (repeats cls s))
  | Star cls => map plain (repeats cls s)
  | Eos => match s with [] => [plain ([], [])] | _ :: _ => [] end
  | Group r1 =>
      map (fun a => {| consumed := consumed a;
                       group1 := Some (consumed a);
                       rest := rest a |}) (alts r1 s)
  | Seq r1 r2 =>
      flat_map (fun a =>
        map (fun b => {| consumed := consumed a ++ consumed b;
                         group1 := match group1 b with
                                   | Some g => Some g
                                   | None => group1 a
                                   end;
                         rest := rest b |}) (alts r2 (rest a)))
        (alts r1 s)
  end.

(** [r.exec(s)]: [None] is [null]; otherwise the match, of which the source
    reads only index [1].  The regular expressions of the source have no
    [g] or [y] flag, so every call starts at position 0. *)
Fixpoint exec (r : t) (s : JsString) : option alt :=
  match alts r s with
  | a :: _ => Some a
  | [] => match s with
          | [] => None
          | _ :: s' => exec r s'
          end
  end.

End RegExp.

(* ================================================================== *)
(** ** src/util.mjs: SplitResult and splitBuffer                      *)
(* ================================================================== *)

Record SplitResult := {
  buf : Buffer;     (* the reference buffer, shared, never copied *)
  start : Z;
  end_ : Z
}.

(** [SplitResult.prototype.toString(encoding)] with [encoding] undefined. *)
Definition SplitResult_toString (r : SplitResult) : JsString :=
  Buf.toString (buf r) (start r) (end_ r).

(** The generator object that [splitBuffer(buf, sep, start)] returns: it
    keeps the arguments of the call and is either suspended with the current
    value of [start], or done after the view yielded behind the loop. *)
Inductive GenState :=
| Suspended (start : Z)
| Finished.

Record SplitGen := {
  gen_buf : Buffer;
  gen_sep : Buffer;
  gen_state : GenState
}.

Definition splitBuffer (b sep : Buffer) (start0 : Z) : SplitGen :=
  {| gen_buf := b; gen_sep := sep; gen_state := Suspended start0 |}.

(** One call of [next()]: the value (undefined is [None]) and the generator
    afterwards. *)
Definition SplitGen_next (g : SplitGen) : option SplitResult * SplitGen :=
  match gen_state g with
  | Suspended st =>
      let e := Buf.indexOf (gen_buf g) (gen_sep g) st in
      (Some {| buf := gen_buf g; start := st; end_ := e |},
       {| gen_buf := gen_buf g; gen_sep := gen_sep g;
          gen_state := if e =? -1 then Finished
                       else Suspended (e + blen (gen_sep g)) |})
  | Finished => (None, g)
  end.

(** The first [fuel] values that iteration over the generator yields, and
    whether the generator is then done. *)
Fixpoint SplitGen_take (fuel : nat) (g : SplitGen)
  : list SplitResult * bool :=
  match fuel with
  | O => ([], match gen_state g with
              | Finished => true
              | Suspended _ => false
              end)
  | S fuel' =>
      match SplitGen_next g with
      | (Some r, g') =>
          let (rs, done) := SplitGen_take fuel' g' in (r :: rs, done)
      | (None, _) => ([], true)
      end
  end.

(* ================================================================== *)
(** ** Events, listeners and the event loop                           *)
(* ================================================================== *)

Inductive Symbol :=
| DONE_EVENT                 (* Symbol('DONE EVENT') *)
| END_EVENT                  (* Symbol('END EVENT') *)
| UserSymbol (n : nat).      (* any other symbol *)

(** The values that a task can hand to its continuation. *)
Inductive Value :=
| VUndefined
| VNull
| VBool (b : bool)
| VStr (s : string)
| VSym (s : Symbol).

(** A property key: the emitter stores its listeners under the key that
    the event name converts to. *)
Inductive Key :=
| KStr (s : string)
| KSym (s : Symbol).

Definition to_key (v : Value) : Key :=
  match v with
  | VUndefined => KStr "undefined"
  | VNull => KStr "null"
  | VBool true => KStr "true"
  | VBool false => KStr "false"
  | VStr s => KStr s
  | VSym s => KSym s
  end.

Definition Symbol_eqb (a b : Symbol) : bool :=
  match a, b with
  | DONE_EVENT, DONE_EVENT => true
  | END_EVENT, END_EVENT => true
  | UserSymbol n, UserSymbol m => Nat.eqb n m
  | _, _ => false
  end.

Definition Key_eqb (a b : Key) : bool :=
  match a, b with
  | KStr s, KStr t => String.eqb s t
  | KSym s, KSym t => Symbol_eqb s t
  | _, _ => false
  end.

(** [type === 'error'] *)
Definition is_error (type : Value) : bool :=
  match type with
  | VStr s => String.eqb s "error"
  | _ => false
  end.

(** The two closures named [callback] in src/async.mjs. *)
Inductive Callback := QueueCallback | ParallelCallback.

(** When a task calls its continuation: inside its own call, from a
    microtask that it queues, or from a later event of the runtime. *)
Inductive When := Sync | Queued | External.

(** A task.  The two tasks that http-form.mjs builds are modelled from
    their source; any other task is described by the calls of its
    continuation that it makes, in the order in which it sets them up. *)
Inductive AsyncTask :=
| FileWrite (file : nat) (data : Buffer)   (* file.write.bind(file, data) *)
| FileClose (file : nat)                   (* f.close.bind(f) *)
| Generic (calls : list (When * list Value)).

(** A microtask. *)
Inductive Job :=
| JTask (next : option AsyncTask)   (* task.bind(undefined, it.next()) *)
| JFunc (func : AsyncTask)          (* func.bind(undefined, callback) *)
| JEmit (type : Value)              (* emitter.emit.bind(emitter, type) *)
| JCall (cb : Callback) (results : list Value).

(** What can be observed, in the order in which it happens. *)
Inductive Obs :=
| Started (t : AsyncTask)
| Wrote (file : nat) (data : Buffer)       (* stream.write(data) *)
| Closing (file : nat)                     (* stream.close(callback) *)
| Called (results : list Value)            (* callback(...results) *)
| Emit (type : Value) (args : list Value)  (* emitter.emit(type, ...args) *)
| Heard (listener : nat) (args : list Value).

Record Machine := {
  it : list AsyncTask;             (* what the iterator [it] has yet to give *)
  listeners : list (Key * nat);    (* listeners added with [once] *)
  microtasks : list Job;
  waiting : list (Callback * list Value);
  log : list Obs;
  crashed : bool                   (* an exception reached the event loop *)
}.

Definition boot (functions : list AsyncTask) : Machine :=
  {| it := functions; listeners := []; microtasks := []; waiting := [];
     log := []; crashed := false |}.

(** *** A state monad with exceptions *)

Inductive Outcome (A : Type) :=
| Returned (a : A) (m : Machine)
| Raised (m : Machine).
Arguments Returned {A} a m.
Arguments Raised {A} m.

Definition M (A : Type) := Machine -> Outcome A.

Definition ret {A} (a : A) : M A := fun m => Returned a m.

Definition bind {A B} (c : M A) (k : A -> M B) : M B :=
  fun m => match c m with
           | Returned a m' => k a m'
           | Raised m' => Raised m'
           end.

Notation "x <- c ;; k" := (bind c (fun x => k))
  (at level 61, c at next level, right associativity).
Notation "c ;; k" := (bind c (fun _ => k))
  (at level 61, right associativity).

Definition observe (o : list Obs) : M unit :=
  fun m => Returned tt
    {| it := it m; listeners := listeners m; microtasks := microtasks m;
       waiting := waiting m; log := log m ++ o; crashed := crashed m |}.

Definition queueMicrotask (j : Job) : M unit :=
  fun m => Returned tt
    {| it := it m; listeners := listeners m;
       microtasks := microtasks m ++ [j];
       waiting := waiting m; log := log m; crashed := crashed m |}.

(** Registration of a continuation with the runtime: on 'drain' or 'close'
    of a stream, or wherever a generic task keeps it. *)
Definition wait_for (cb : Callback) (results : list Value) : M unit :=
  fun m => Returned tt
    {| it := it m; listeners := listeners m; microtasks := microtasks m;
       waiting := waiting m ++ [(cb, results)];
       log := log m; crashed := crashed m |}.

(** [it.next()]: [None] stands for [{done: true}]. *)
Definition it_next : M (option AsyncTask) :=
  fun m => match it m with
           | [] => Returned None m
           | f :: fs =>
               Returned (Some f)
                 {| it := fs; listeners := listeners m;
                    microtasks := microtasks m; waiting := waiting m;
                    log := log m; crashed := crashed m |}
           end.

(** *** EventEmitter *)

Definition hears (k : Key) (l : Key * nat) : bool := Key_eqb (fst l) k.

(** [emitter.emit(type, ...args)]: an 'error' that nobody listens to is
    thrown; otherwise the listeners of the event are called in the order
    in which they were added, and those added with [once] are removed. *)
Definition emit (type : Value) (args : list Value) : M bool :=
  fun m =>
    let k := to_key type in
    let ls := filter (hears k) (listeners m) in
    if is_error type && match ls with [] => true | _ :: _ => false end
    then Raised m
    else Returned (match ls with [] => false | _ :: _ => true end)
      {| it := it m;
         listeners := filter (fun l => negb (hears k l)) (listeners m);
         microtasks := microtasks m; waiting := waiting m;
         log := log m ++ Emit type args
                      :: map (fun l => Heard (snd l) args) ls;
         crashed := crashed m |}.

(** [emitter.emit.apply(emitter, results)] *)
Definition emit_apply (results : list Value) : M bool :=
  match results with
  | [] => emit VUndefined []
  | type :: args => emit type args
  end.

(** [emitter.once(type, listener)] *)
Definition once (type : Value) (listener : nat) (m : Machine) : Machine :=
  {| it := it m; listeners := listeners m ++ [(to_key type, listener)];
     microtasks := microtasks m; waiting := waiting m;
     log := log m; crashed := crashed m |}.

(* ================================================================== *)
(** ** src/async.mjs                                                  *)
(* ================================================================== *)

(** [const factory = () => queueMicrotask(task.bind(undefined, it.next()))] *)
Definition factory : M unit :=
  next <- it_next ;;
  queueMicrotask (JTask next).

(** The [callback] of asyncQueue. *)
Definition queue_callback (results : list Value) : M unit :=
  observe [Called results] ;;
  emit_apply results ;;
  factory.

(** The [callback] of asyncParallel. *)
Definition parallel_callback (results : list Value) : M unit :=
  observe [Called results] ;;
  emit_apply results ;;
  next <- it_next ;;
  match next with
  | None => emit (VSym END_EVENT) [] ;; ret tt
  | Some _ => ret tt
  end.

Definition invoke (cb : Callback) (results : list Value) : M unit :=
  match cb with
  | QueueCallback => queue_callback results
  | ParallelCallback => parallel_callback results
  end.

(** [HttpFile.prototype.write(data, callback)]; [accepted] is what
    [this.stream.write(data)] returns. *)
Definition HttpFile_write (file : nat) (data : Buffer) (accepted : bool)
    (callback : Callback) : M unit :=
  observe [Wrote file data] ;;
  if negb accepted
  then wait_for callback []            (* this.stream.once('drain', callback) *)
  else queueMicrotask (JCall callback []).

(** [HttpFile.prototype.close(callback)] *)
Definition HttpFile_close (file : nat) (callback : Callback) : M unit :=
  observe [Closing file] ;;
  wait_for callback [].

Fixpoint generic_calls (callback : Callback) (calls : list (When * list Value))
  : M unit :=
  match calls with
  | [] => ret tt
  | (Sync, results) :: calls' =>
      invoke callback results ;; generic_calls callback calls'
  | (Queued, results) :: calls' =>
      queueMicrotask (JCall callback results) ;; generic_calls callback calls'
  | (External, results) :: calls' =>
      wait_for callback results ;; generic_calls callback calls'
  end.

(** The call [f(callback)] of a task. *)
Definition call_task (f : AsyncTask) (accepted : bool) (callback : Callback)
  : M unit :=
  observe [Started f] ;;
  match f with
  | FileWrite file data => HttpFile_write file data accepted callback
  | FileClose file => HttpFile_close file callback
  | Generic calls => generic_calls callback calls
  end.

(** The [task] of asyncQueue. *)
Definition task (accepted : bool) (next : option AsyncTask) : M unit :=
  match next with
  | None => emit (VSym END_EVENT) [] ;; ret tt
  | Some value => call_task value accepted QueueCallback
  end.

Definition state_of {A} (o : Outcome A) : Machine :=
  match o with
  | Returned _ m => m
  | Raised m => m
  end.

Definition asyncQueue (functions : list AsyncTask) : Machine :=
  state_of (factory (boot functions)).

Fixpoint for_of (functions : list AsyncTask) : M unit :=
  match functions with
  | [] => ret tt
  | func :: functions' => queueMicrotask (JFunc func) ;; for_of functions'
  end.

Definition asyncParallel (functions : list AsyncTask) : Machine :=
  state_of
    ((for_of functions ;;
      next <- it_next ;;
      match next with
      | None => queueMicrotask (JEmit (VSym END_EVENT))
      | Some _ => ret tt
      end) (boot functions)).

(** *** The event loop *)

Definition run_job (accepted : bool) (j : Job) : M unit :=
  match j with
  | JTask next => task accepted next
  | JFunc func => call_task func accepted ParallelCallback
  | JEmit type => emit type [] ;; ret tt
  | JCall cb results => invoke cb results
  end.

(** An exception that nothing catches ends the process. *)
Definition settle (o : Outcome unit) : Machine :=
  match o with
  | Returned _ m => m
  | Raised m =>
      {| it := it m; listeners := listeners m; microtasks := microtasks m;
         waiting := waiting m; log := log m; crashed := true |}
  end.

(** What happens next is the runtime's choice: the oldest microtask runs
    ([accepted] is the answer of [stream.write], should the job write), or
    the event that the [k]-th waiting continuation waits for occurs.  The
    runtime delivers such an event only between two jobs; the model lets it
    occur between any two microtasks, which covers every order that the
    runtime can produce. *)
Inductive Choice :=
| Tick (accepted : bool)
| Fire (k : nat).

Definition remove_nth {A} (k : nat) (l : list A) : list A :=
  firstn k l ++ skipn (S k) l.

Definition step (c : Choice) (m : Machine) : option Machine :=
  if crashed m then None
  else match c with
       | Tick accepted =>
           match microtasks m with
           | [] => None
           | j :: js =>
               Some (settle (run_job accepted j
                 {| it := it m; listeners := listeners m; microtasks := js;
                    waiting := waiting m; log := log m;
                    crashed := crashed m |}))
           end
       | Fire k =>
           match nth_error (waiting m) k with
           | None => None
           | Some (cb, results) =>
               Some (settle (invoke cb results
                 {| it := it m; listeners := listeners m;
                    microtasks := microtasks m;
                    waiting := remove_nth k (waiting m); log := log m;
                    crashed := crashed m |}))
           end
       end.

(** A choice that is not enabled leaves the machine as it is. *)
Fixpoint run (schedule : list Choice) (m : Machine) : Machine :=
  match schedule with
  | [] => m
  | c :: schedule' =>
      match step c m with
      | Some m' => run schedule' m'
      | None => run schedule' m
      end
  end.

(** Nothing is left to run. *)
Definition quiescent (m : Machine) : Prop :=
  crashed m = true \/ (microtasks m = [] /\ waiting m = []).


(* ================================================================== *)
(** ** src/http/http-form.mjs                                         *)
(* ================================================================== *)

(** [Buffer.from('\r\n')] *)
Definition EOL : Buffer := [x0d; x0a].

(** [Buffer.from('--')] *)
Definition SEP : Buffer := Buffer_from "--".

Definition QUOTE : JsString := [34].

(** [/filename="(.+)"\s*$/] *)
Definition REG_EXP_FILENAME : RegExp.t :=
  RegExp.Seq (RegExp.Lit (js "filename=" ++ QUOTE))
   (RegExp.Seq (RegExp.Group (RegExp.Plus RegExp.dot))
     (RegExp.Seq (RegExp.Lit QUOTE)
       (RegExp.Seq (RegExp.Star RegExp.space) RegExp.Eos))).

(** [/(\S+\/\S+)\s*$/] *)
Definition REG_EXP_CONTENT_TYPE : RegExp.t :=
  RegExp.Seq
    (RegExp.Group
       (RegExp.Seq (RegExp.Plus RegExp.nonspace)
          (RegExp.Seq (RegExp.Lit (js "/")) (RegExp.Plus RegExp.nonspace))))
    (RegExp.Seq (RegExp.Star RegExp.space) RegExp.Eos).

(** [REG.exec(s)[1]]: the index of [null] is a TypeError.  Both regular
    expressions have their group on every path, so a match has it. *)
Definition exec1 (r : RegExp.t) (s : JsString) : Result JsString :=
  match RegExp.exec r s with
  | None => Throw TypeError
  | Some a => Ok (match RegExp.group1 a with Some g => g | None => [] end)
  end.

Record HttpFile := {
  filename : JsString;
  contentType : JsString;
  stream : nat       (* the sink that TMP_DIR.createWriteStream() opened *)
}.

Record HttpForm := {
  boundary : Buffer;
  files : list HttpFile
}.

(** [get lastFile()]: [this.files[this.files.length - 1]], undefined for an
    empty array. *)
Definition lastFile (form : HttpForm) : option HttpFile :=
  match files form with
  | [] => None
  | _ :: _ => nth_error (files form) (List.length (files form) - 1)
  end.

(** [new HttpFile(filename, contentType)] pushed on [this.files]; the new
    stream is the next sink of the form. *)
Definition push_file (form : HttpForm) (name type : JsString) : HttpForm :=
  {| boundary := boundary form;
     files := files form ++
              [{| filename := name; contentType := type;
                  stream := List.length (files form) |}] |}.

(** [x.toString()] of a value of [itLine.next().value]. *)
Definition line_toString (line : option SplitResult) : Result JsString :=
  match line with
  | None => Throw TypeError
  | Some r => Ok (SplitResult_toString r)
  end.

Definition HttpForm_NEW_FILE_METHOD (form : HttpForm) (b : Buffer) (start0 : Z)
  : Result (HttpForm * Z) :=
  let itLine := splitBuffer b EOL start0 in
  let (first, itLine1) := SplitGen_next itLine in
  let (second, itLine2) := SplitGen_next itLine1 in
  let (third, _) := SplitGen_next itLine2 in
  match line_toString first with
  | Throw e => Throw e
  | Ok s1 =>
  match exec1 REG_EXP_FILENAME s1 with
  | Throw e => Throw e
  | Ok name =>
  match line_toString second with
  | Throw e => Throw e
  | Ok s2 =>
  match exec1 REG_EXP_CONTENT_TYPE s2 with
  | Throw e => Throw e
  | Ok type =>
      let form' := push_file form name type in
      match third with
      | None => Throw TypeError
      | Some r => Ok (form', end_ r + blen EOL)
      end
  end end end end.

(** [this.lastFile.write.bind(this.lastFile, data)] *)
Definition bind_write (form : HttpForm) (data : Buffer) : Result AsyncTask :=
  match lastFile form with
  | None => Throw TypeError
  | Some f => Ok (FileWrite (stream f) data)
  end.

Record Scan := {
  scan_form : HttpForm;
  scan_queue : list AsyncTask;
  scan_end : Z
}.

(** One pass through the body of the [while] loop of [_write]. *)
Inductive Pass :=
| Continue (form : HttpForm) (queue : list AsyncTask) (start1 end1 : Z)
| Break (s : Scan)
| Raise (e : JsError).

Definition write_body (chunk : Buffer) (form : HttpForm)
    (queue : list AsyncTask) (start0 end0 : Z) : Pass :=
  match
    (if (0 <? Z.of_nat (List.length (files form)))
     then match bind_write form (Buf.subarray chunk end0 start0) with
          | Ok t => Ok (queue ++ [t])
          | Throw e => Throw e
          end
     else Ok queue)
  with
  | Throw e => Raise e
  | Ok queue1 =>
      match Buf.compare SEP chunk (start0 + blen (boundary form))
              (start0 + blen (boundary form) + blen SEP) with
      | Throw e => Raise e
      | Ok c =>
          if c =? 0
          then Break {| scan_form := form; scan_queue := queue1;
                        scan_end := blen chunk |}
          else
            match HttpForm_NEW_FILE_METHOD form chunk
                    (start0 + blen (boundary form) + blen EOL) with
            | Throw e => Raise e
            | Ok (form', end1) =>
                Continue form' queue1
                  (Buf.indexOf chunk (boundary form') end1) end1
            end
      end
  end.

(** The [while (start !== -1)] loop of [_write]; [None] when [fuel]
    passes do not end it. *)
Fixpoint write_loop (fuel : nat) (chunk : Buffer) (form : HttpForm)
    (queue : list AsyncTask) (start0 end0 : Z) : option (Result Scan) :=
  if start0 =? -1
  then Some (Ok {| scan_form := form; scan_queue := queue; scan_end := end0 |})
  else
    match fuel with
    | O => None
    | S fuel' =>
        match write_body chunk form queue start0 end0 with
        | Continue form' queue' start1 end1 =>
            write_loop fuel' chunk form' queue' start1 end1
        | Break s => Some (Ok s)
        | Raise e => Some (Throw e)
        end
    end.

(** [_write] up to the call of asyncQueue: the form afterwards and the
    queue of write tasks. *)
Definition write_scan (fuel : nat) (form : HttpForm) (chunk : Buffer)
  : option (Result (HttpForm * list AsyncTask)) :=
  match write_loop fuel chunk form []
          (Buf.indexOf chunk (boundary form) 0) 0 with
  | None => None
  | Some (Throw e) => Some (Throw e)
  | Some (Ok s) =>
      if scan_end s <? blen chunk
      then match bind_write (scan_form s)
                   (Buf.subarray_from chunk (scan_end s)) with
           | Throw e => Some (Throw e)
           | Ok t => Some (Ok (scan_form s, scan_queue s ++ [t]))
           end
      else Some (Ok (scan_form s, scan_queue s))
  end.

(** [HttpForm.prototype._write(chunk, encoding, callback)] *)
Definition HttpForm_write (fuel : nat) (form : HttpForm) (chunk : Buffer)
    (callback : nat) : option (Result (HttpForm * Machine)) :=
  match write_scan fuel form chunk with
  | None => None
  | Some (Throw e) => Some (Throw e)
  | Some (Ok (form', queue)) =>
      Some (Ok (form', once (VSym END_EVENT) callback (asyncQueue queue)))
  end.

(** [HttpForm.prototype._final(callback)] *)
Definition HttpForm_final (form : HttpForm) (callback : nat) : Machine :=
  once (VSym END_EVENT) callback
    (asyncParallel (map (fun f => FileClose (stream f)) (files form))).

(** The bytes that the sink [file] was given, in order. *)
Fixpoint sink (file : nat) (l : list Obs) : Buffer :=
  match l with
  | [] => []
  | Wrote f data :: l' =>
      if Nat.eqb f file then data ++ sink file l' else sink file l'
  | _ :: l' => sink file l'
  end.

(** The runtime keeps choosing the oldest microtask (every write accepted)
    and, when there is none, the oldest waiting continuation. *)
Fixpoint drain (fuel : nat) (m : Machine) : Machine :=
  match fuel with
  | O => m
  | S fuel' =>
      match step (Tick true) m with
      | Some m' => drain fuel' m'
      | None =>
          match step (Fire 0) m with
          | Some m' => drain fuel' m'
          | None => m
          end
      end
  end.

(** *** The constructor of HttpForm *)

Definition byte_of (z : Z) : byte :=
  match Byte.of_N (Z.to_N z) with
  | Some b => b
  | None => x00
  end.

(** The code points of a string: a surrogate pair is one code point, a
    surrogate without its partner is read as U+FFFD. *)
Fixpoint code_points (s : JsString) : list Z :=
  match s with
  | [] => []
  | c :: s' =>
      if (55296 <=? c) && (c <=? 56319) then
        match s' with
        | d :: s'' =>
            if (56320 <=? d) && (d <=? 57343)
            then (65536 + (c - 55296) * 1024 + (d - 56320)) :: code_points s''
            else Buf.REPLACEMENT :: code_points s'
        | [] => [Buf.REPLACEMENT]
        end
      else if (56320 <=? c) && (c <=? 57343)
           then Buf.REPLACEMENT :: code_points s'
           else c :: code_points s'
  end.

Definition utf8_encode (c : Z) : Buffer :=
  if c <? 128 then [byte_of c]
  else if c <? 2048 then
    [byte_of (192 + Z.shiftr c 6); byte_of (128 + Z.land c 63)]
  else if c <? 65536 then
    [byte_of (224 + Z.shiftr c 12);
     byte_of (128 + Z.land (Z.shiftr c 6) 63);
     byte_of (128 + Z.land c 63)]
  else
    [byte_of (240 + Z.shiftr c 18);
     byte_of (128 + Z.land (Z.shiftr c 12) 63);
     byte_of (128 + Z.land (Z.shiftr c 6) 63);
     byte_of (128 + Z.land c 63)].

(** [Buffer.from(s)] for any string: its UTF-8 encoding. *)
Definition Buffer_from_string (s : JsString) : Buffer :=
  flat_map utf8_encode (code_points s).

(** [[^;]] *)
Definition not_semicolon (c : Z) : bool := negb (c =? 59).

(** [/boundary=([^;]+)/] *)
Definition REG_EXP_BOUNDARY : RegExp.t :=
  RegExp.Seq (RegExp.Lit (js "boundary="))
    (RegExp.Group (RegExp.Plus not_semicolon)).

(** [new HttpForm(contentType, options)], the content type being a string
    or undefined ([None]), as a header of a request is:
    [Buffer.from('--' + contentType.match(/boundary=([^;]+)/)[1])]. *)
Definition HttpForm_constructor (contentType : option JsString)
  : Result HttpForm :=
  match contentType with
  | None => Throw TypeError
  | Some s =>
      match exec1 REG_EXP_BOUNDARY s with
      | Throw e => Throw e
      | Ok v => Ok {| boundary := Buffer_from_string (js "--" ++ v);
                      files := [] |}
      end
  end.

(* ================================================================== *)
(** ** src/util.mjs: toCamelCase                                      *)
(* ================================================================== *)

(** [str.substring(a, b)]: both indices are cut at the length, and swapped
    when the first is the greater. *)
Definition substring (s : JsString) (a b : nat) : JsString :=
  let a' := Nat.min a (List.length s) in
  let b' := Nat.min b (List.length s) in
  firstn (Nat.max a' b' - Nat.min a' b') (skipn (Nat.min a' b') s).

(** [str.substring(a)] *)
Definition substring_from (s : JsString) (a : nat) : JsString := skipn a s.

(** [str.substr(start, length)] *)
Definition substr (s : JsString) (start len : nat) : JsString :=
  firstn len (skipn start s).

(** One of the characters of [/_|\-| /]. *)
Definition separator (c : Z) : bool := (c =? 95) || (c =? 45) || (c =? 32).

Fixpoint find_index (cls : Z -> bool) (s : JsString) (i : nat) : option nat :=
  match s with
  | [] => None
  | c :: s' => if cls c then Some i else find_index cls s' (S i)
  end.

(** [regExp.exec(str)] for the default [/_|\-| /g], whose state is its
    [lastIndex]: the index of the first separator from [lastIndex] on and
    the index behind it as the new [lastIndex], or [null] and 0. *)
Definition exec_global (lastIndex : nat) (str : JsString)
  : option nat * nat :=
  match find_index separator (skipn lastIndex str) lastIndex with
  | Some index => (Some index, S index)
  | None => (None, O)
  end.

Section CamelCase.

(** [String.prototype.toUpperCase] and [String.prototype.toLowerCase] of
    the runtime. *)
Variables toUpperCase toLowerCase : JsString -> JsString.

(** The [while (cond)] loop: [matchs] is the match that [cond] stands for,
    [None] when the loop is over. *)
Fixpoint camel_loop (fuel : nat) (str result : JsString) (start : nat)
    (matchs : option nat) (lastIndex : nat)
  : option (Result (JsString * nat)) :=
  match matchs with
  | None => Some (Ok (result, start))
  | Some index =>
      match fuel with
      | O => None
      | S fuel' =>
          match nth_error str start with
          | None => Some (Throw TypeError)     (* undefined.toUpperCase() *)
          | Some c =>
              let result' :=
                result ++ (toUpperCase [c]
                           ++ toLowerCase (substring str (start + 1) index)) in
              let (matchs', lastIndex') := exec_global lastIndex str in
              camel_loop fuel' str result' (index + 1) matchs' lastIndex'
          end
      end
  end.

(** [toCamelCase(str)] with the default regular expression, which every
    call creates anew; [None] when [fuel] passes do not end the loop. *)
Definition toCamelCase (fuel : nat) (str : JsString)
  : option (Result JsString) :=
  let (matchs, lastIndex) := exec_global 0 str in
  match matchs with
  | None => Some (Ok (toLowerCase str))
  | Some _ =>
      match camel_loop fuel str [] 0 matchs lastIndex with
      | None => None
      | Some (Throw e) => Some (Throw e)
      | Some (Ok (result, start)) =>
          Some (Ok (toLowerCase (substr result 0 1)
                    ++ substring_from result 1
                    ++ toUpperCase (substr str start 1)
                    ++ toLowerCase (substring_from str (start + 1))))
      end
  end.

End CamelCase.

(** The two functions on strings of ASCII characters. *)
Definition ascii_upper (c : Z) : Z :=
  if (97 <=? c) && (c <=? 122) then c - 32 else c.

Definition ascii_lower (c : Z) : Z :=
  if (65 <=? c) && (c <=? 90) then c + 32 else c.

Definition toUpperCase_ascii (s : JsString) : JsString := map ascii_upper s.
Definition toLowerCase_ascii (s : JsString) : JsString := map ascii_lower s.

(** The words of a string, each with the separator behind it, and what
    follows the last separator. *)
Fixpoint split_words (s : JsString) : list (JsString * Z) * JsString :=
  match s with
  | [] => ([], [])
  | c :: s' =>
      let (ws, last) := split_words s' in
      if separator c then (([], c) :: ws, last)
      else match ws with
           | [] => ([], c :: last)
           | (w, d) :: ws' => ((c :: w, d) :: ws', last)
           end
  end.

(** What the loop makes of a word and its separator: the word with its
    first character in upper case and the others in lower case, and of an
    empty word the separator twice. *)
Definition camel_piece (toUpperCase toLowerCase : JsString -> JsString)
    (p : JsString * Z) : JsString :=
  match fst p with
  | [] => toUpperCase [snd p] ++ toLowerCase [snd p]
  | c :: w => toUpperCase [c] ++ toLowerCase w
  end.

(** A string of ASCII characters. *)
Definition ascii_string (s : JsString) : Prop :=
  Forall (fun c => 0 <= c < 128) s.

(** A word: not empty, without separator. *)
Definition word (w : JsString) : Prop :=
  w <> [] /\ Forall (fun c => separator c = false) w.

(** A word with its first character in upper case and the others in lower
    case. *)
Definition capitalized (w : JsString) : JsString :=
  toUpperCase_ascii (firstn 1 w) ++ toLowerCase_ascii (skipn 1 w).

(** The words of [w ++ d1 :: w1 ++ ... ++ dn :: wn], each with the
    separator behind it, and the last one. *)
Fixpoint shifted (w : JsString) (tail : list (Z * JsString))
  : list (JsString * Z) * JsString :=
  match tail with
  | [] => ([], w)
  | (d, w') :: tail' =>
      let (ps, last) := shifted w' tail' in ((w, d) :: ps, last)
  end.

(** The words that camel case is made for, joined by their separators. *)
Definition joined (w0 : JsString) (tail : list (Z * JsString)) : JsString :=
  w0 ++ flat_map (fun p => fst p :: snd p) tail.

(* ================================================================== *)
(** ** Plain objects                                                  *)
(* ================================================================== *)

(** A property key is a string or a symbol; a number used as a key is the
    string of its digits. *)
Inductive PropertyKey :=
| PKString (s : JsString)
| PKSymbol (n : nat).

Fixpoint units_eqb (s t : JsString) : bool :=
  match s, t with
  | [], [] => true
  | a :: s', b :: t' => (a =? b) && units_eqb s' t'
  | _, _ => false
  end.

Definition PropertyKey_eqb (a b : PropertyKey) : bool :=
  match a, b with
  | PKString s, PKString t => units_eqb s t
  | PKSymbol n, PKSymbol m => Nat.eqb n m
  | _, _ => false
  end.

Definition string_key (k : PropertyKey) : bool :=
  match k with
  | PKString _ => true
  | PKSymbol _ => false
  end.

(** The properties of [Object.prototype], none of them enumerable. *)
Definition Object_prototype_has (k : PropertyKey) : bool :=
  match k with
  | PKString s =>
      existsb (units_eqb s)
        [ js "constructor"; js "hasOwnProperty"; js "isPrototypeOf";
          js "propertyIsEnumerable"; js "toLocaleString"; js "toString";
          js "valueOf"; js "__proto__"; js "__defineGetter__";
          js "__defineSetter__"; js "__lookupGetter__";
          js "__lookupSetter__" ]
  | PKSymbol _ => false
  end.

Section Objects.

(** The values other than [undefined]. *)
Variable V : Type.

(** A plain object, as an object literal or [new] of a class without
    accessors makes it: its own properties, all of them enumerable data
    properties, a value of [None] being [undefined]; what it has not, it
    inherits from [Object.prototype]. *)
Definition JsObject := list (PropertyKey * option V).

Fixpoint own (o : JsObject) (k : PropertyKey) : option (option V) :=
  match o with
  | [] => None
  | (k', v) :: o' => if PropertyKey_eqb k' k then Some v else own o' k
  end.

(** [object[key] = v], for a key that the object has or that is not the
    accessor [__proto__]: the property is changed, or added behind the
    others. *)
Fixpoint put (o : JsObject) (k : PropertyKey) (v : option V) : JsObject :=
  match o with
  | [] => [(k, v)]
  | (k', v') :: o' =>
      if PropertyKey_eqb k' k then (k', v) :: o' else (k', v') :: put o' k v
  end.

(** [object[key] === undefined]: what [Object.prototype] has is not
    undefined. *)
Definition is_undefined (o : JsObject) (k : PropertyKey) : bool :=
  match own o k with
  | Some (Some _) => false
  | Some None => true
  | None => negb (Object_prototype_has k)
  end.

(* ================================================================== *)
(** ** src/util.mjs: isEmpty and defaultValues                        *)
(* ================================================================== *)

(** [isEmpty(object)]: [for ... in] visits the enumerable properties whose
    key is a string, and the first one ends the loop. *)
Definition isEmpty (object : JsObject) : bool :=
  negb (existsb (fun p => string_key (fst p)) object).

(** [object[key] = v] for any key.  Where the object has the key, or the
    key is not [__proto__], [put] applies.  A key [__proto__] that the
    object has not is the accessor of [Object.prototype]: the assignment
    runs its setter and adds no own property.  The setter does nothing
    with undefined or a primitive; given an object or [null] it would
    replace the prototype, and the object would no longer inherit from
    [Object.prototype], as every [JsObject] does. *)
Definition assign (o : JsObject) (k : PropertyKey) (v : option V) : JsObject :=
  match own o k with
  | Some _ => put o k v
  | None =>
      if PropertyKey_eqb k (PKString (js "__proto__")) then o else put o k v
  end.

(** The two loops of [defaultValues] over [keys], a list of
    [{ key, d }].  The first assigns every key.  The second assigns a key
    that reads undefined: one that the object has, or that not even
    [Object.prototype] has, and never the accessor. *)
Fixpoint assign_all (keys : list (PropertyKey * option V)) (object : JsObject)
  : JsObject :=
  match keys with
  | [] => object
  | (key, d) :: keys' => assign_all keys' (assign object key d)
  end.

Fixpoint assign_missing (keys : list (PropertyKey * option V))
    (object : JsObject) : JsObject :=
  match keys with
  | [] => object
  | (key, d) :: keys' =>
      assign_missing keys'
        (if is_undefined object key then put object key d else object)
  end.

(** [defaultValues(keys, object)]; [None] is an argument that is left out
    or undefined, for which the parameter is a new empty object. *)
Definition defaultValues (keys : list (PropertyKey * option V))
    (object : option JsObject) : JsObject :=
  let object := match object with
                | Some o => o
                | None => []
                end in
  if isEmpty object then assign_all keys object
  else assign_missing keys object.

End Objects.

Arguments own {V} o k.
Arguments put {V} o k v.
Arguments assign {V} o k v.
Arguments is_undefined {V} o k.
Arguments isEmpty {V} object.
Arguments assign_all {V} keys object.
Arguments assign_missing {V} keys object.
Arguments defaultValues {V} keys object.

(** The keys of the options of [server.listen] with numbers for defaults,
    and options that give the port only. *)
Definition listen_keys : list (PropertyKey * option Z) :=
  [ (PKString (js "host"), Some 0); (PKString (js "port"), Some 3000) ].

Definition port_only : JsObject Z := [ (PKString (js "port"), Some 8080) ].


(** A key that the defaults may name: a string that [Object.prototype]
    does not have. *)
Definition plain_key (k : PropertyKey) : Prop :=
  string_key k = true /\ Object_prototype_has k = false.

(* ================================================================== *)
(** ** src/enumeration.mjs                                            *)
(* ================================================================== *)

(** The digits of a number, as [String(i)] gives them. *)
Fixpoint uint_units (d : Decimal.uint) : JsString :=
  match d with
  | Decimal.Nil => []
  | Decimal.D0 d' => 48 :: uint_units d'
  | Decimal.D1 d' => 49 :: uint_units d'
  | Decimal.D2 d' => 50 :: uint_units d'
  | Decimal.D3 d' => 51 :: uint_units d'
  | Decimal.D4 d' => 52 :: uint_units d'
  | Decimal.D5 d' => 53 :: uint_units d'
  | Decimal.D6 d' => 54 :: uint_units d'
  | Decimal.D7 d' => 55 :: uint_units d'
  | Decimal.D8 d' => 56 :: uint_units d'
  | Decimal.D9 d' => 57 :: uint_units d'
  end.

Definition decimal (n : nat) : JsString := uint_units (Nat.to_uint n).

(** The key of [this[i]]. *)
Definition index_key (i : nat) : PropertyKey := PKString (decimal i).

(** What an enumeration holds: the names, their numbers, and the function
    of its field [Symbol.iterator]. *)
Inductive EnumValue :=
| EString (s : JsString)
| ENumber (n : nat)
| EIterator.

Definition Symbol_iterator : PropertyKey := PKSymbol 0.

(** [Symbol('Enumeration.SIZE')] *)
Definition SIZE : PropertyKey := PKSymbol 1.

(** [this[key] = v] for a value that is not an object: the setter of the
    accessor [__proto__] ignores such a value. *)
Definition assign_primitive (this : JsObject EnumValue) (key : PropertyKey)
    (v : EnumValue) : JsObject EnumValue :=
  match own this key with
  | Some _ => put this key (Some v)
  | None =>
      if PropertyKey_eqb key (PKString (js "__proto__")) then this
      else put this key (Some v)
  end.

(** The loop of the constructor over [values], with its counter. *)
Fixpoint Enumeration_fill (values : list JsString) (i : nat)
    (this : JsObject EnumValue) : JsObject EnumValue * nat :=
  match values with
  | [] => (this, i)
  | value :: values' =>
      let this1 := assign_primitive this (index_key i) (EString value) in
      let this2 := assign_primitive this1 (PKString value) (ENumber i) in
      Enumeration_fill values' (S i) this2
  end.

(** [new Enumeration(...values)]: the field is defined before the body of
    the constructor runs. *)
Definition Enumeration_new (values : list JsString) : JsObject EnumValue :=
  let (this, i) :=
    Enumeration_fill values 0 [(Symbol_iterator, Some EIterator)] in
  assign_primitive this SIZE (ENumber i).

(** [next()] of the iterator whose counter is [i]: [None] is
    [{ done: true }].  A key of digits is not inherited. *)
Definition Enumeration_next (this : JsObject EnumValue) (i : nat)
  : option EnumValue * nat :=
  match own this (index_key i) with
  | Some (Some v) => (Some v, S i)
  | _ => (None, i)
  end.

(** The first [fuel] values of an iteration, and whether it is then
    done. *)
Fixpoint Enumeration_take (fuel : nat) (this : JsObject EnumValue) (i : nat)
  : list EnumValue * bool :=
  match fuel with
  | O => ([], false)
  | S fuel' =>
      match Enumeration_next this i with
      | (Some v, i') =>
          let (vs, done) := Enumeration_take fuel' this i' in (v :: vs, done)
      | (None, _) => ([], true)
      end
  end.

(** The levels of the logger:
    [new Enumeration('error', 'warn', 'log', 'info', 'debug')]. *)
Definition LEVELS : JsObject EnumValue :=
  Enumeration_new [js "error"; js "warn"; js "log"; js "info"; js "debug"].

(** Names that an enumeration can tell apart: distinct, none the digits of
    a number, none [__proto__]. *)
Definition enumerable_names (values : list JsString) : Prop :=
  NoDup values /\
  Forall (fun v => v <> js "__proto__" /\ forall i, v <> decimal i) values.

(* ================================================================== *)
(** ** src/http/http-range.mjs                                        *)
(* ================================================================== *)

(** [[0-9]] *)
Definition is_digit (c : Z) : bool := (48 <=? c) && (c <=? 57).

(** The longest prefix of characters of a class, and what follows it. *)
Fixpoint span (cls : Z -> bool) (s : JsString) : JsString * JsString :=
  match s with
  | [] => ([], [])
  | c :: s' =>
      if cls c then let (v, rest) := span cls s' in (c :: v, rest)
      else ([], s)
  end.

(** [/^bytes=([0-9]+)\-([0-9]+)?$/.exec(req.headers.range)]: the two groups
    of the match, the second one undefined ([None]) when it took part in
    no match.  The expression is anchored at both ends, and a dash or the
    end of the string has to follow each run of digits, so that only the
    longest run can match.  A header that is undefined is searched as the
    string [undefined], which does not match. *)
Definition RANGE_exec (range : option JsString)
  : option (JsString * option JsString) :=
  match range with
  | None => None
  | Some s =>
      match RegExp.lit_rest (js "bytes=") s with
      | None => None
      | Some s1 =>
          let (m1, s2) := span is_digit s1 in
          match m1, s2 with
          | _ :: _, 45 :: s3 =>
              let (m2, s4) := span is_digit s3 in
              match s4 with
              | [] => Some (m1, match m2 with [] => None | _ => Some m2 end)
              | _ :: _ => None
              end
          | _, _ => None
          end
      end
  end.

(** [parseInt] of a string of digits.  The numbers of the program are
    floating-point numbers: the value is the exact one as long as it is
    below 2^53. *)
Fixpoint parseInt_digits (acc : Z) (s : JsString) : Z :=
  match s with
  | [] => acc
  | c :: s' => parseInt_digits (10 * acc + (c - 48)) s'
  end.

Definition parseInt (s : JsString) : Z := parseInt_digits 0 s.

Record HttpRange := {
  range_start : Z;
  range_end : Z;
  range_size : Z
}.

(** [new HttpRange(stats, req)], of [stats.size] and [req.headers.range];
    [parseInt(matchs[2]) || stats.size] is the size when the group is
    undefined (its [parseInt] is NaN) and when it reads as 0. *)
Definition HttpRange_new (size : Z) (range : option JsString) : HttpRange :=
  match RANGE_exec range with
  | None => {| range_start := 0; range_end := size; range_size := size |}
  | Some (m1, m2) =>
      {| range_start := parseInt m1;
         range_end := match m2 with
                      | Some d => if parseInt d =? 0 then size else parseInt d
                      | None => size
                      end;
         range_size := size |}
  end.

Definition HttpRange_length (r : HttpRange) : Z :=
  range_end r - range_start r.

Definition HttpRange_unit : JsString := js "bytes".

(** An integer in a template literal. *)
Definition number_string (z : Z) : JsString :=
  if z <? 0 then 45 :: decimal (Z.to_nat (- z)) else decimal (Z.to_nat z).

Definition HttpRange_contentRange (r : HttpRange) : JsString :=
  HttpRange_unit ++ js " " ++ number_string (range_start r) ++ js "-"
  ++ number_string (range_end r) ++ js "/" ++ number_string (range_size r).

(** The value of a header that the program sets. *)
Inductive HeaderValue :=
| HNumber (z : Z)
| HString (s : JsString).

(** What the program does to a response, in order. *)
Inductive ResCall :=
| SetHeader (name : JsString) (value : HeaderValue)
| SetStatusCode (code : Z)
| WriteHead (code : Z)
| End.

Definition HttpRange_setHeader (r : HttpRange) : list ResCall :=
  SetHeader (js "Content-Length") (HNumber (HttpRange_length r))
  :: (if range_size r =? HttpRange_length r
      then [SetStatusCode 200]
      else [SetHeader (js "Content-Range") (HString (HttpRange_contentRange r));
            SetHeader (js "Accept-Range") (HString HttpRange_unit);
            SetStatusCode 206]).

(* ================================================================== *)
(** ** src/handlers.mjs: the handler of a file                        *)
(* ================================================================== *)

(** [new FileHttpMethodHandler({ req, info }).prepare(res)], of the size in
    [info.stats] and the header [range] of [req]. *)
Definition FileHttpMethodHandler_prepare (size : Z) (range : option JsString)
  : list ResCall :=
  let r := HttpRange_new size range in
  if (range_size r <? 0) || (range_end r =? 0)
  then [WriteHead 416; End]
  else HttpRange_setHeader r
       ++ [SetHeader (js "Content-Type")
             (HString (js "applications/octet-stream"))].

(** The header [bytes=a-] or [bytes=a-b]. *)
Definition range_header (a : nat) (b : option nat) : JsString :=
  js "bytes=" ++ decimal a ++ js "-"
  ++ match b with Some n => decimal n | None => [] end.

(* ================================================================== *)
(** ** src/http/http-server.mjs                                       *)
(* ================================================================== *)

(** A [Set] of strings, in the order of insertion. *)
Definition Set_has (s : list JsString) (x : JsString) : bool :=
  existsb (units_eqb x) s.

Definition Set_add (s : list JsString) (x : JsString) : list JsString :=
  if Set_has s x then s else s ++ [x].

(** [new Set(values)], of an array of strings or of undefined. *)
Definition Set_new (values : option (list JsString)) : list JsString :=
  match values with
  | Some l => fold_left Set_add l []
  | None => []
  end.

(** [set.delete(x)]: whether the set had [x], and the set without it. *)
Definition Set_delete (s : list JsString) (x : JsString)
  : bool * list JsString :=
  (Set_has s x, filter (fun y => negb (units_eqb x y)) s).

(** How the promise of a handler ends, if it does. *)
Inductive Settled := Fulfilled | Rejected | Pending.

(** What happens for one request: what is done to its response, and an
    error written with [console.error]. *)
Inductive ReqEvent :=
| OnResponse (c : ResCall)
| ConsoleError.

(** [HttpServer.serverOptions(options)], for options whose values are
    arrays of strings. *)
Definition serverOptions (options : option (JsObject (list JsString)))
  : JsObject (list JsString) :=
  defaultValues [(PKString (js "method"), Some [])] options.

Section Server.

(** [http.METHODS] *)
Variable METHODS : list JsString.

Variables toUpperCase toLowerCase : JsString -> JsString.

(** The handlers of the program that uses the server, and what
    [await handler(req, res)] does for one request: the calls on the
    response, and the end of the promise. *)
Variable UserHandler : Type.
Variable behaviour : UserHandler -> list ResCall * Settled.

Inductive Handler :=
| NOT_ALLOWED_METHOD
| User (h : UserHandler).

Definition handle (h : Handler) : list ResCall * Settled :=
  match h with
  | NOT_ALLOWED_METHOD => ([WriteHead 501], Fulfilled)
  | User u => behaviour u
  end.

(** The fields [methods] and [_handlers]; [bound] holds the properties
    that the constructor adds, [this[name]] for [addHandler] bound to a
    method.  No name of [http.METHODS] gives the name of a field.  The
    field [server] belongs to Node. *)
Record HttpServer := {
  methods : list JsString;
  _handlers : JsObject (list Handler);
  bound : JsObject JsString
}.

(** The loop of the constructor over [http.METHODS]; [allowed] is the set
    of the methods asked for, from which the loop deletes.  [None] when
    [toCamelCase] does not end within as many passes as the name has
    characters. *)
Fixpoint constructor_loop (ms : list JsString) (allowed : list JsString)
    (this : HttpServer) : option (Result HttpServer) :=
  match ms with
  | [] => Some (Ok this)
  | method :: ms' =>
      let (deleted, allowed') := Set_delete allowed method in
      if deleted then
        match toCamelCase toUpperCase toLowerCase (List.length method) method
        with
        | None => None
        | Some (Throw e) => Some (Throw e)
        | Some (Ok name) =>
            constructor_loop ms' allowed'
              {| bound := put (bound this) (PKString name) (Some method);
                 _handlers := put (_handlers this) (PKString method) (Some []);
                 methods := methods this ++ [method] |}
        end
      else
        constructor_loop ms' allowed'
          {| bound := bound this;
             _handlers := put (_handlers this) (PKString method)
                            (Some [NOT_ALLOWED_METHOD]);
             methods := methods this |}
  end.

(** [new HttpServer(options)] *)
Definition HttpServer_new (options : option (JsObject (list JsString)))
  : option (Result HttpServer) :=
  let options := serverOptions options in
  let asked := match own options (PKString (js "methods")) with
               | Some v => v
               | None => None
               end in
  constructor_loop METHODS
    (Set_add (Set_add (Set_new asked) (js "GET")) (js "HEAD"))
    {| bound := []; _handlers := []; methods := [] |}.

(** [this._handlers[method].push(handler)]; what is undefined has no
    [push]. *)
Definition push_handler (this : HttpServer) (method : JsString)
    (handler : UserHandler) : Result HttpServer :=
  match own (_handlers this) (PKString method) with
  | Some (Some hs) =>
      Ok {| bound := bound this;
            _handlers := put (_handlers this) (PKString method)
                           (Some (hs ++ [User handler]));
            methods := methods this |}
  | _ => Throw TypeError
  end.

Definition addHandler (this : HttpServer) (method : JsString)
    (handler : UserHandler) : Result HttpServer :=
  push_handler this method handler.

Fixpoint on_loop (ms : list JsString) (this : HttpServer)
    (handler : UserHandler) : Result HttpServer :=
  match ms with
  | [] => Ok this
  | method :: ms' =>
      match push_handler this method handler with
      | Ok this' => on_loop ms' this' handler
      | Throw e => Throw e
      end
  end.

Definition on (this : HttpServer) (handler : UserHandler)
  : Result HttpServer :=
  on_loop (methods this) this handler.

(** The loop of [_requestHandler]: a handler is awaited before the next
    one is called. *)
Fixpoint run_handlers (hs : list Handler) : list ResCall * Settled :=
  match hs with
  | [] => ([], Fulfilled)
  | h :: hs' =>
      match handle h with
      | (cs, Fulfilled) =>
          let (cs', end') := run_handlers hs' in (cs ++ cs', end')
      | (cs, other) => (cs, other)
      end
  end.

(** [catch] and [finally]. *)
Definition conclude (r : list ResCall * Settled) : list ReqEvent :=
  match r with
  | (cs, Fulfilled) => map OnResponse cs ++ [OnResponse End]
  | (cs, Rejected) => map OnResponse cs ++ [ConsoleError; OnResponse End]
  | (cs, Pending) => map OnResponse cs
  end.

(** [_requestHandler(req, res)], of [req.method]: what is not an array
    cannot be iterated, which throws inside [try]. *)
Definition _requestHandler (this : HttpServer) (method : JsString)
  : list ReqEvent :=
  match own (_handlers this) (PKString method) with
  | Some (Some hs) => conclude (run_handlers hs)
  | _ => [ConsoleError; OnResponse End]
  end.

(** [this.on(h1).on(h2)...] *)
Fixpoint on_all (this : HttpServer) (hs : list UserHandler)
  : Result HttpServer :=
  match hs with
  | [] => Ok this
  | h :: hs' =>
      match on this h with
      | Ok this' => on_all this' hs'
      | Throw e => Throw e
      end
  end.

End Server.

Arguments NOT_ALLOWED_METHOD {UserHandler}.
Arguments User {UserHandler} h.
Arguments methods {UserHandler} h.
Arguments _handlers {UserHandler} h.
Arguments bound {UserHandler} h.

(** The methods that the options ask for. *)
Definition asked_methods (options : option (JsObject (list JsString)))
  : list JsString :=
  match options with
  | Some o =>
      match own o (PKString (js "methods")) with
      | Some (Some l) => l
      | _ => []
      end
  | None => []
  end.

(** The methods that a server allows. *)
Definition allowed (options : option (JsObject (list JsString)))
    (m : JsString) : bool :=
  Set_has (js "GET" :: js "HEAD" :: asked_methods options) m.

(** What the handlers of a server are after some calls of [on]. *)
Definition served {UserHandler : Type} (METHODS : list JsString)
    (options : option (JsObject (list JsString)))
    (server : HttpServer UserHandler) (pushed : list UserHandler) : Prop :=
  methods server = filter (allowed options) METHODS /\
  (forall m, In m METHODS ->
     own (_handlers server) (PKString m)
     = Some (Some (if allowed options m then map User pushed
                   else [NOT_ALLOWED_METHOD]))) /\
  (forall m, ~ In m METHODS -> own (_handlers server) (PKString m) = None).

(** Some methods of Node, and handlers that are numbered: the handler [n]
    sets the status [n]. *)
Definition some_methods : list JsString :=
  [ js "DELETE"; js "GET"; js "HEAD"; js "M-SEARCH"; js "POST"; js "PUT" ].

Definition sets_status (n : nat) : list ResCall * Settled :=
  ([SetStatusCode (Z.of_nat n)], Fulfilled).

Definition with_post : JsObject (list JsString) :=
  [ (PKString (js "methods"), Some [js "POST"]) ].

(* ================================================================== *)
(** ** src/util.mjs: computeIfAbsentMap                               *)
(* ================================================================== *)

Section Maps.

(** The keys of a [Map] with the equality of its keys, and its values
    other than [undefined]. *)
Variables K V : Type.
Variable K_eqb : K -> K -> bool.

(** A [Map]: its entries in the order of insertion, a value of [None]
    being [undefined]. *)
Definition JsMap := list (K * option V).

(** [map.get(key)]: undefined without an entry. *)
Fixpoint Map_get (map : JsMap) (key : K) : option V :=
  match map with
  | [] => None
  | (k, v) :: map' => if K_eqb k key then v else Map_get map' key
  end.

(** [map.set(key, value)]: an entry keeps its place. *)
Fixpoint Map_set (map : JsMap) (key : K) (value : option V) : JsMap :=
  match map with
  | [] => [(key, value)]
  | (k, v) :: map' =>
      if K_eqb k key then (k, value) :: map'
      else (k, v) :: Map_set map' key value
  end.

(** [computeIfAbsentMap(map, key, mappingFunction)]: the map afterwards,
    the keys with which the mapping function has been called, and the
    value returned. *)
Definition computeIfAbsentMap (map : JsMap) (key : K)
    (mappingFunction : K -> option V) : JsMap * list K * option V :=
  match Map_get map key with
  | None =>
      let value := mappingFunction key in
      (Map_set map key value, [key], value)
  | Some v => (map, [], Some v)
  end.

End Maps.

Arguments Map_get {K V} K_eqb map key.
Arguments Map_set {K V} K_eqb map key value.
Arguments computeIfAbsentMap {K V} K_eqb map key mappingFunction.

(** A mapping function on numbers that has no value at 0. *)
Definition halves (n : nat) : option nat :=
  match n with
  | O => None
  | S _ => Some (Nat.div2 n)
  end.

(* ================================================================== *)
(** ** Vocabulary of the statements                                   *)
(* ================================================================== *)

(** [needle] occurs in [hay]. *)
Definition occurs (needle hay : Buffer) : Prop :=
  exists pre post, hay = pre ++ needle ++ post.

(** The machines that the runtime can drive [m0] to. *)
Definition reachable (m0 m : Machine) : Prop :=
  exists schedule, run schedule m0 = m.

(** The first two values that [NEW_FILE_METHOD] takes from [itLine]. *)
Definition header_views (chunk : Buffer) (pos : Z)
  : option SplitResult * option SplitResult :=
  let (first, itLine1) :=
    SplitGen_next (splitBuffer chunk EOL pos) in
  let (second, _) := SplitGen_next itLine1 in
  (first, second).

(** A header line does not have the form that its regular expression
    expects (a line that does not exist has no form at all). *)
Definition unmatched (r : RegExp.t) (line : option SplitResult) : Prop :=
  match line_toString line with
  | Throw _ => True
  | Ok s => RegExp.exec r s = None
  end.

Definition malformed_header (chunk : Buffer) (pos : Z) : Prop :=
  unmatched REG_EXP_FILENAME (fst (header_views chunk pos)) \/
  unmatched REG_EXP_CONTENT_TYPE (snd (header_views chunk pos)).

(** A form that has decoded nothing yet. *)
Definition fresh_form (b : Buffer) : HttpForm :=
  {| boundary := b; files := [] |}.

(** A chunk with a boundary and a header block of the wrong form. *)
Definition malformed_chunk : Buffer :=
  Buffer_from "--B" ++ EOL ++ Buffer_from "Content-Disposition: form-data"
  ++ EOL ++ Buffer_from "Content-Type: text/plain" ++ EOL ++ EOL
  ++ Buffer_from "hello" ++ EOL ++ Buffer_from "--B--".

(** The calls of its continuation that a task makes, by their results. *)
Definition calls_of (t : AsyncTask) : list (list Value) :=
  match t with
  | FileWrite _ _ => [[]]
  | FileClose _ => [[]]
  | Generic calls => map snd calls
  end.

(** The event that [emitter.emit.apply(emitter, results)] broadcasts. *)
Definition event_type (results : list Value) : Value :=
  match results with
  | [] => VUndefined
  | type :: _ => type
  end.

Definition event_args (results : list Value) : list Value :=
  match results with
  | [] => []
  | _ :: args => args
  end.

(** A bound on the number of steps that a machine can still take: what a
    job, a waiting continuation and a task not yet taken from the iterator
    can each cause. *)
Definition task_weight (t : AsyncTask) : nat :=
  (1 + 2 * List.length (calls_of t))%nat.

Definition job_weight (j : Job) : nat :=
  match j with
  | JTask (Some t) => task_weight t
  | JTask None => 1%nat
  | JFunc t => task_weight t
  | JEmit _ => 1%nat
  | JCall _ _ => 2%nat
  end.

Definition measure (m : Machine) : nat :=
  (list_sum (map job_weight (microtasks m)) + 2 * List.length (waiting m)
   + list_sum (map task_weight (it m)))%nat.

(** What an emission adds to the log when [ls] are the listeners, and the
    listeners that stay. *)
Definition heard (ls : list (Key * nat)) (type : Value) (args : list Value)
  : list Obs :=
  Emit type args
  :: map (fun l => Heard (snd l) args) (filter (hears (to_key type)) ls).

Definition deaf (ls : list (Key * nat)) (type : Value) : list (Key * nat) :=
  filter (fun l => negb (hears (to_key type) l)) ls.

(** What a call of the continuation adds to the log. *)
Definition completion (ls : list (Key * nat)) (results : list Value)
  : list Obs :=
  Called results :: heard ls (event_type results) (event_args results).

(** What a task does to its sink when it is called. *)
Definition effect_obs (t : AsyncTask) : list Obs :=
  match t with
  | FileWrite file data => [Wrote file data]
  | FileClose file => [Closing file]
  | Generic _ => []
  end.

(** A task that calls its continuation exactly once, and its results. *)
Definition calls_once (t : AsyncTask) : Prop :=
  List.length (calls_of t) = 1%nat.

Definition result_of (t : AsyncTask) : list Value :=
  match calls_of t with
  | results :: _ => results
  | [] => []
  end.

(** A task none of whose calls names the event 'error'. *)
Definition quiet (t : AsyncTask) : Prop :=
  Forall (fun results => is_error (event_type results) = false) (calls_of t).

(** The log of a sequential run of [fs] when [ls] listen: task after task,
    each with its start, its effect and its completion, and then the
    aggregate emission. *)
Fixpoint queue_log (ls : list (Key * nat)) (fs : list AsyncTask) : list Obs :=
  match fs with
  | [] => heard ls (VSym END_EVENT) []
  | t :: fs' =>
      Started t :: effect_obs t ++ completion ls (result_of t)
      ++ queue_log (deaf ls (event_type (result_of t))) fs'
  end.

(** The same for an emitter without listeners. *)
Definition round (t : AsyncTask) : list Obs :=
  Started t :: effect_obs t
  ++ [Called (result_of t);
      Emit (event_type (result_of t)) (event_args (result_of t))].

(** The machines of a sequential run: a task is about to be taken, or the
    continuation of the running task is queued, or it waits for an event,
    or all is done; [total] is the log that the run ends with. *)
Inductive QueueInv (total : list Obs) : Machine -> Prop :=
| QIdle ls lg rest :
    lg ++ queue_log ls rest = total ->
    Forall calls_once rest -> Forall quiet rest ->
    QueueInv total
      {| it := tl rest; listeners := ls;
         microtasks := [JTask (hd_error rest)]; waiting := [];
         log := lg; crashed := false |}
| QQueued ls lg r rest :
    lg ++ completion ls r ++ queue_log (deaf ls (event_type r)) rest = total ->
    is_error (event_type r) = false ->
    Forall calls_once rest -> Forall quiet rest ->
    QueueInv total
      {| it := rest; listeners := ls;
         microtasks := [JCall QueueCallback r]; waiting := [];
         log := lg; crashed := false |}
| QWaiting ls lg r rest :
    lg ++ completion ls r ++ queue_log (deaf ls (event_type r)) rest = total ->
    is_error (event_type r) = false ->
    Forall calls_once rest -> Forall quiet rest ->
    QueueInv total
      {| it := rest; listeners := ls;
         microtasks := []; waiting := [(QueueCallback, r)];
         log := lg; crashed := false |}
| QDone ls :
    QueueInv total
      {| it := []; listeners := ls; microtasks := []; waiting := [];
         log := total; crashed := false |}.

(** The number of emissions of the symbol [s] in a log. *)
Definition is_emit_of (s : Symbol) (o : Obs) : bool :=
  match o with
  | Emit (VSym s') _ => Symbol_eqb s s'
  | _ => false
  end.

Definition emitted (s : Symbol) (l : list Obs) : nat :=
  List.length (filter (is_emit_of s) l).

(** Three tasks that call their continuation at once, with distinct
    values. *)
Definition task_A : AsyncTask := Generic [(Sync, [VStr "A"])].
Definition task_B : AsyncTask := Generic [(Sync, [VStr "B"])].
Definition task_C : AsyncTask := Generic [(Sync, [VStr "C"])].


(** The sink that a file task works on. *)
Definition target (t : AsyncTask) : nat :=
  match t with
  | FileWrite file _ => file
  | FileClose file => file
  | Generic _ => O
  end.

(** A task that writes a range of the chunk to a sink. *)
Definition writes_range (chunk : Buffer) (t : AsyncTask) : Prop :=
  exists file lo hi, t = FileWrite file (Buf.subarray chunk lo hi).

(** The single-file body: boundary, header block for a.txt of type
    text/plain, the bytes hello, CRLF, terminal boundary. *)
Definition single_file_chunk : Buffer :=
  Buffer_from "--B" ++ EOL
  ++ Buffer_from "Content-Disposition: form-data; name=" ++ [x22]
  ++ Buffer_from "infile" ++ [x22] ++ Buffer_from "; filename=" ++ [x22]
  ++ Buffer_from "a.txt" ++ [x22] ++ EOL
  ++ Buffer_from "Content-Type: text/plain" ++ EOL ++ EOL
  ++ Buffer_from "hello" ++ EOL ++ Buffer_from "--B--".

Definition single_file_form : HttpForm :=
  {| boundary := Buffer_from "--B";
     files := [ {| filename := js "a.txt"; contentType := js "text/plain";
                   stream := 0 |} ] |}.

(** The tasks started, the continuation calls and the emissions of a log,
    each in the order of the log. *)
Fixpoint started (l : list Obs) : list AsyncTask :=
  match l with
  | [] => []
  | Started t :: l' => t :: started l'
  | _ :: l' => started l'
  end.

Fixpoint called (l : list Obs) : list (list Value) :=
  match l with
  | [] => []
  | Called results :: l' => results :: called l'
  | _ :: l' => called l'
  end.

Fixpoint emissions (l : list Obs) : list (Value * list Value) :=
  match l with
  | [] => []
  | Emit type args :: l' => (type, args) :: emissions l'
  | _ :: l' => emissions l'
  end.

Definition event_of (results : list Value) : Value * list Value :=
  (event_type results, event_args results).

Definition END : Value * list Value := (VSym END_EVENT, []).

(** The aggregate emission is due when [n] continuations have been called
    out of [n] tasks. *)
Definition aggregate (calls n : nat) : list (Value * list Value) :=
  if Nat.eqb calls n then [END] else [].

(** The machines of a concurrent run of the tasks [fs] (at least one):
    the tasks not yet started are the oldest microtasks, behind them are
    the continuations that started tasks have queued; other continuations
    wait for their event; the iterator has given one task more than
    continuations were called. *)
Inductive ParInv (fs : list AsyncTask) : Machine -> Prop :=
| PInv lg unstarted mq wq :
    fs = started lg ++ unstarted ->
    Permutation (called lg ++ mq ++ wq) (map result_of (started lg)) ->
    Forall (fun r => is_error (event_type r) = false) (mq ++ wq) ->
    emissions lg
    = map event_of (called lg)
      ++ aggregate (List.length (called lg)) (List.length fs) ->
    (List.length (called lg) = List.length fs ->
     exists body, lg = body ++ [Emit (VSym END_EVENT) []]) ->
    ParInv fs
      {| it := skipn (S (List.length (called lg))) fs; listeners := [];
         microtasks := map JFunc unstarted
                       ++ map (JCall ParallelCallback) mq;
         waiting := map (pair ParallelCallback) wq;
         log := lg; crashed := false |}.

(** A task that calls its continuation when an event of the runtime
    occurs. *)
Definition late_A : AsyncTask := Generic [(External, [VStr "A"])].

(** An emission of the symbol [s]. *)
Definition is_event_of (s : Symbol) (e : Value * list Value) : bool :=
  match fst e with
  | VSym s' => Symbol_eqb s s'
  | _ => false
  end.

(** The results [r] are those of a call that a task of [fs] makes. *)
Definition from (fs : list AsyncTask) (r : list Value) : Prop :=
  exists t, In t fs /\ In r (calls_of t).

(** The emission of [type] throws: it is 'error' and nobody listens. *)
Definition raises (ls : list (Key * nat)) (type : Value) : bool :=
  is_error type
  && match filter (hears (to_key type)) ls with
     | [] => true
     | _ :: _ => false
     end.

(** What the orchestrators can add to the log while the listeners go from
    [ls] to [ls']: starts and effects of tasks of [fs], calls of the
    continuation with results of such tasks, each followed at once by the
    emission of these results, and aggregate emissions.  The last argument
    tells whether the log ends with a call whose emission threw. *)
Inductive Ext (fs : list AsyncTask)
  : list (Key * nat) -> list Obs -> list (Key * nat) -> bool -> Prop :=
| Ext_nil ls : Ext fs ls [] ls false
| Ext_start ls t l ls' b :
    In t fs -> Ext fs ls l ls' b -> Ext fs ls (Started t :: l) ls' b
| Ext_wrote ls file data l ls' b :
    Ext fs ls l ls' b -> Ext fs ls (Wrote file data :: l) ls' b
| Ext_closing ls file l ls' b :
    Ext fs ls l ls' b -> Ext fs ls (Closing file :: l) ls' b
| Ext_call ls r l ls' b :
    from fs r -> raises ls (event_type r) = false ->
    Ext fs (deaf ls (event_type r)) l ls' b ->
    Ext fs ls
      (Called r :: heard ls (event_type r) (event_args r) ++ l) ls' b
| Ext_throw ls r :
    from fs r -> raises ls (event_type r) = true ->
    Ext fs ls [Called r] ls true
| Ext_end ls l ls' b :
    Ext fs (deaf ls (VSym END_EVENT)) l ls' b ->
    Ext fs ls (heard ls (VSym END_EVENT) [] ++ l) ls' b.

Definition job_from (fs : list AsyncTask) (j : Job) : Prop :=
  match j with
  | JTask (Some t) => In t fs
  | JTask None => True
  | JFunc t => In t fs
  | JEmit type => type = VSym END_EVENT
  | JCall _ r => from fs r
  end.

(** Everything that the machine holds comes from the tasks [fs]. *)
Definition sourced (fs : list AsyncTask) (m : Machine) : Prop :=
  incl (it m) fs /\ Forall (job_from fs) (microtasks m) /\
  Forall (fun w => from fs (snd w)) (waiting m).

(** [c] keeps the machine sourced and adds to the log what [Ext] allows. *)
Definition traces (fs : list AsyncTask) {A} (c : M A) : Prop :=
  forall m, sourced fs m ->
    match c m with
    | Returned _ m' =>
        sourced fs m' /\ crashed m' = crashed m /\
        exists ext, log m' = log m ++ ext /\
                    Ext fs (listeners m) ext (listeners m') false
    | Raised m' =>
        sourced fs m' /\ crashed m' = crashed m /\
        exists ext, log m' = log m ++ ext /\
                    Ext fs (listeners m) ext (listeners m') true
    end.



(** The arguments of the first emission of END_EVENT in a log, and the log
    behind it. *)
Fixpoint after_first_end (l : list Obs) : option (list Value * list Obs) :=
  match l with
  | [] => None
  | Emit (VSym END_EVENT) args :: l' => Some (args, l')
  | _ :: l' => after_first_end l'
  end.

(** A task that passes DONE_EVENT as its first result. *)
Definition task_done : AsyncTask :=
  Generic [(Sync, [VSym DONE_EVENT; VStr "x"])].

(** [c] raises the measure by at most [k], whether it returns or throws. *)
Definition costs {A} (c : M A) (k : nat) : Prop :=
  forall m, (measure (state_of (c m)) <= measure m + k)%nat.



(** The machines that the runtime drives [m0] to, with what was added to
    the log on the way. *)
Definition traced (fs : list AsyncTask) (m0 m : Machine) : Prop :=
  sourced fs m /\
  exists ext, log m = log m0 ++ ext /\
              Ext fs (listeners m0) ext (listeners m) (crashed m).

(** A task that names the event 'error', and one that names END_EVENT. *)
Definition task_error : AsyncTask := Generic [(Sync, [VStr "error"])].
Definition task_end : AsyncTask := Generic [(Sync, [VSym END_EVENT])].

(** A chunk that ends inside a header block: one byte, a boundary and two
    header lines, without the empty third line. *)
Definition cut_chunk : Buffer :=
  Buffer_from "x--B" ++ EOL ++ Buffer_from "filename=" ++ [x22]
  ++ Buffer_from "a" ++ [x22] ++ EOL ++ Buffer_from "t/p" ++ EOL.

(** The input of the splitter example: [a,b] split on the comma. *)
Definition split_input : Buffer := Buffer_from "a,b".
Definition split_sep : Buffer := Buffer_from ",".

(** The bytes that a view shows: [r.buf.subarray(r.start, r.end)]. *)
Definition shown (r : SplitResult) : Buffer :=
  Buf.subarray (buf r) (start r) (end_ r).

(** The same header block at the very start of a chunk. *)
Definition cut_chunk_at_start : Buffer :=
  Buffer_from "--B" ++ EOL ++ Buffer_from "filename=" ++ [x22]
  ++ Buffer_from "a" ++ [x22] ++ EOL ++ Buffer_from "t/p" ++ EOL.

(** [bs.toString()] *)
Definition decode (bs : Buffer) : JsString := Buf.toString bs 0 (blen bs).

(** A part of a multipart body as the decoder expects it: the two header
    lines, the bytes of the file, and what the header lines say. *)
Record Part := {
  part_disposition : Buffer;
  part_type_line : Buffer;
  part_data : Buffer;
  part_filename : JsString;
  part_contentType : JsString
}.

(** The part on the wire: boundary, the header lines, the empty line, the
    bytes, each followed by CRLF. *)
Definition encode_part (b : Buffer) (p : Part) : Buffer :=
  b ++ EOL ++ part_disposition p ++ EOL ++ part_type_line p ++ EOL ++ EOL
  ++ part_data p ++ EOL.

(** The body: its parts and the terminal boundary. *)
Definition multipart_body (b : Buffer) (parts : list Part) : Buffer :=
  flat_map (encode_part b) parts ++ b ++ SEP.

(** The header lines hold no CRLF and say what the part claims, and the
    boundary occurs in the bytes of the file followed by CRLF and the
    boundary only at the end. *)
Definition well_formed (b : Buffer) (p : Part) : Prop :=
  ~ occurs EOL (part_disposition p) /\
  ~ occurs EOL (part_type_line p) /\
  exec1 REG_EXP_FILENAME (decode (part_disposition p))
  = Ok (part_filename p) /\
  exec1 REG_EXP_CONTENT_TYPE (decode (part_type_line p))
  = Ok (part_contentType p) /\
  Buf.indexOf (part_data p ++ EOL ++ b) b 0 = blen (part_data p) + blen EOL.

Definition file_of (i : nat) (p : Part) : HttpFile :=
  {| filename := part_filename p; contentType := part_contentType p;
     stream := i |}.

Definition write_of (i : nat) (p : Part) : AsyncTask :=
  FileWrite i (part_data p ++ EOL).

(** [f] applied to the elements of a list and their numbers from [i] on. *)
Fixpoint indexed {A B} (f : nat -> A -> B) (i : nat) (l : list A) : list B :=
  match l with
  | [] => []
  | a :: l' => f i a :: indexed f (S i) l'
  end.

(** What a pass of the loop of [_write] queues for the file before. *)
Definition pending (form : HttpForm) (data : Buffer) : list AsyncTask :=
  match lastFile form with
  | Some f => [FileWrite (stream f) data]
  | None => []
  end.

(** The part of the single-file body. *)
Definition single_part : Part :=
  {| part_disposition :=
       Buffer_from "Content-Disposition: form-data; name=" ++ [x22]
       ++ Buffer_from "infile" ++ [x22] ++ Buffer_from "; filename=" ++ [x22]
       ++ Buffer_from "a.txt" ++ [x22];
     part_type_line := Buffer_from "Content-Type: text/plain";
     part_data := Buffer_from "hello";
     part_filename := js "a.txt";
     part_contentType := js "text/plain" |}.

(** The streams closed and the listeners called, in the order of a log. *)
Fixpoint closings (l : list Obs) : list nat :=
  match l with
  | [] => []
  | Closing file :: l' => file :: closings l'
  | _ :: l' => closings l'
  end.

Fixpoint hearings (l : list Obs) : list (nat * list Value) :=
  match l with
  | [] => []
  | Heard listener args :: l' => (listener, args) :: hearings l'
  | _ :: l' => hearings l'
  end.

(** The machines of the run that [_final] starts for the streams [ss] (at
    least one): [k] streams have begun to close, of which [c] have closed
    and called the continuation; the others wait for their 'close'. *)
Inductive FinalInv (ss : list nat) (cb : nat) : Machine -> Prop :=
| FClosing lg k c :
    (c <= k)%nat -> (k <= List.length ss)%nat -> (c < List.length ss)%nat ->
    closings lg = firstn k ss -> List.length (called lg) = c ->
    hearings lg = [] ->
    FinalInv ss cb
      {| it := skipn (S c) (map FileClose ss);
         listeners := [(KSym END_EVENT, cb)];
         microtasks := map JFunc (map FileClose (skipn k ss));
         waiting := repeat (ParallelCallback, []) (k - c);
         log := lg; crashed := false |}
| FClosed body :
    closings body = ss -> List.length (called body) = List.length ss ->
    hearings body = [] ->
    FinalInv ss cb
      {| it := []; listeners := []; microtasks := []; waiting := [];
         log := body ++ [Emit (VSym END_EVENT) []; Heard cb []];
         crashed := false |}.

(** The bytes of a part up to its data: boundary, the two header lines and
    the empty line. *)
Definition encode_header (b : Buffer) (p : Part) : Buffer :=
  b ++ EOL ++ part_disposition p ++ EOL ++ part_type_line p ++ EOL ++ EOL.

(** The bytes of some parts, up to the boundary that follows the last
    one. *)
Definition encode_parts (b : Buffer) (parts : list Part) : Buffer :=
  flat_map (encode_part b) parts.

(** What [_write] queues behind its loop: [chunk.subarray(end)], if the
    chunk goes on behind [end]. *)
Definition last_write (file : nat) (rest : Buffer) : list AsyncTask :=
  if 0 <? blen rest then [FileWrite file rest] else [].

(** *** What the scan of a chunk identifies *)






(* ================================================================== *)
(** ** Buffers                                                        *)
(* ================================================================== *)

Lemma byte_eqb_eq (a b : byte) : Byte.eqb a b = true <-> a = b.
Proof.
  split.
  - intro H. apply Byte.byte_dec_bl. exact H.
  - intro H. apply Byte.byte_dec_lb. exact H.
Qed.

Lemma starts_with_app (needle post : Buffer) :
  Buf.starts_with needle (needle ++ post) = true.
Proof.
  induction needle as [|n needle IH]; simpl.
  - destruct post; reflexivity.
  - rewrite IH, andb_true_r. apply byte_eqb_eq. reflexivity.
Qed.

Lemma starts_with_split (needle hay : Buffer) :
  Buf.starts_with needle hay = true -> exists post, hay = needle ++ post.
Proof.
  revert hay. induction needle as [|n needle IH]; intros hay H.
  - exists hay. reflexivity.
  - destruct hay as [|h hay]; simpl in H; [discriminate|].
    apply andb_true_iff in H. destruct H as [Hn Hr].
    apply byte_eqb_eq in Hn. subst h.
    destruct (IH hay Hr) as [post ->]. exists post. reflexivity.
Qed.

Lemma search_none (needle hay : Buffer) (pos : nat) :
  Buf.search needle hay pos = None -> ~ occurs needle hay.
Proof.
  revert pos. induction hay as [|h hay IH]; intros pos H [pre [post E]].
  - simpl in H. destruct (Buf.starts_with needle []) eqn:Hs; [discriminate|].
    destruct pre; [|discriminate]. destruct needle; [|discriminate].
    simpl in Hs. discriminate.
  - simpl in H. destruct (Buf.starts_with needle (h :: hay)) eqn:Hs;
      [discriminate|].
    destruct pre as [|p pre].
    + simpl in E. rewrite E in Hs. rewrite starts_with_app in Hs. discriminate.
    + injection E as _ E. apply (IH (S pos) H). exists pre, post. exact E.
Qed.

Lemma search_some (needle hay : Buffer) (pos i : nat) :
  Buf.search needle hay pos = Some i -> occurs needle hay.
Proof.
  revert pos. induction hay as [|h hay IH]; intros pos H.
  - simpl in H. destruct (Buf.starts_with needle []) eqn:Hs; [|discriminate].
    destruct (starts_with_split _ _ Hs) as [post E].
    exists [], post. exact E.
  - simpl in H. destruct (Buf.starts_with needle (h :: hay)) eqn:Hs.
    + destruct (starts_with_split _ _ Hs) as [post E].
      exists [], post. exact E.
    + destruct (IH _ H) as [pre [post E]].
      exists (h :: pre), post. simpl. rewrite E. reflexivity.
Qed.

Lemma search_here (needle post : Buffer) (pos : nat) :
  Buf.search needle (needle ++ post) pos = Some pos.
Proof.
  destruct (needle ++ post) eqn:E; simpl; rewrite <- E;
    rewrite starts_with_app; reflexivity.
Qed.

Lemma indexOf_zero (hay needle : Buffer) :
  Buf.indexOf hay needle 0 =
  if blen needle =? 0 then 0
  else if blen needle <=? blen hay
       then match Buf.search needle hay 0 with
            | Some i => Z.of_nat i
            | None => -1
            end
       else -1.
Proof.
  unfold Buf.indexOf. cbv zeta. change (0 <? 0) with false. cbv iota.
  rewrite Z.add_0_l.
  destruct (blen needle =? 0) eqn:N.
  - apply Z.eqb_eq in N. rewrite N.
    replace (0 <=? blen hay) with true; [reflexivity|].
    symmetry. apply Z.leb_le. unfold blen. lia.
  - destruct (blen needle <=? blen hay); reflexivity.
Qed.

(** [indexOf] from offset 0 answers [-1] exactly when there is no
    occurrence. *)
Lemma indexOf_none (hay needle : Buffer) :
  Buf.indexOf hay needle 0 = -1 <-> ~ occurs needle hay.
Proof.
  rewrite indexOf_zero.
  destruct (blen needle =? 0) eqn:N.
  - split; [discriminate|]. intro H. exfalso. apply H.
    apply Z.eqb_eq in N. unfold blen in N.
    destruct needle; [|simpl in N; lia]. exists [], hay. reflexivity.
  - destruct (blen needle <=? blen hay) eqn:L.
    + destruct (Buf.search needle hay 0) eqn:Hs.
      * split; [lia|]. intro H. exfalso. apply H.
        eapply search_some. exact Hs.
      * split; [|reflexivity]. intros _. eapply search_none. exact Hs.
    + split; [|reflexivity]. intros _ [pre [post E]].
      apply Z.leb_gt in L. subst hay. unfold blen in L.
      rewrite !length_app in L. lia.
Qed.

Lemma indexOf_prefix (needle post : Buffer) :
  Buf.indexOf (needle ++ post) needle 0 = 0.
Proof.
  rewrite indexOf_zero.
  destruct (blen needle =? 0); [reflexivity|].
  replace (blen needle <=? blen (needle ++ post)) with true.
  - rewrite search_here. reflexivity.
  - symmetry. apply Z.leb_le. unfold blen. rewrite length_app. lia.
Qed.

(* ================================================================== *)
(** ** The splitter                                                   *)
(* ================================================================== *)

(** Every view refers to the buffer that was given and starts where the
    generator stands; it ends where the search for the separator answers,
    and the generator goes on behind that separator unless the answer is
    -1. *)
Lemma SplitGen_next_view (b sep : Buffer) (st : Z) (r : SplitResult)
    (g : SplitGen) :
  SplitGen_next (splitBuffer b sep st) = (Some r, g) ->
  buf r = b /\ start r = st /\ end_ r = Buf.indexOf b sep st /\
  gen_buf g = b /\ gen_sep g = sep /\
  gen_state g = (if end_ r =? -1 then Finished
                 else Suspended (end_ r + blen sep)).
Proof.
  unfold SplitGen_next, splitBuffer. cbn [gen_buf gen_sep gen_state].
  intro H. injection H as <- <-. cbn. auto 6.
Qed.

(** The view that the generator yields last has [-1] as its end, whatever
    the buffer: it is the result of the search that ended the loop. *)
Lemma SplitGen_last_end (b sep : Buffer) (st : Z) (r : SplitResult)
    (g : SplitGen) :
  SplitGen_next (splitBuffer b sep st) = (Some r, g) ->
  gen_state g = Finished ->
  end_ r = -1 /\ SplitResult_toString r = [].
Proof.
  intros H F.
  destruct (SplitGen_next_view _ _ _ _ _ H) as (Hb & Hs & He & _ & _ & Hg).
  rewrite F in Hg.
  destruct (end_ r =? -1) eqn:E; [|discriminate].
  apply Z.eqb_eq in E. split; [exact E|].
  unfold SplitResult_toString, Buf.toString. rewrite E.
  destruct ((0 <? start r) && (blen (buf r) <=? start r)); [reflexivity|].
  assert (L : (blen (buf r) <? -1) = false)
    by (apply Z.ltb_ge; unfold blen; lia).
  rewrite L.
  destruct (start r <=? 0) eqn:S0.
  - reflexivity.
  - apply Z.leb_gt in S0.
    replace (-1 <=? start r) with true by (symmetry; apply Z.leb_le; lia).
    reflexivity.
Qed.

(** C3, at the input [a,b] split on the comma from offset 0: the generator
    yields the view [0, 1) and then, as its final view, the view from 2
    with end -1, whose string is empty; the specification describes this
    final view as running to the end of the buffer, that is [2, 3), which
    shows the byte [b]. *)
Theorem splitBuffer_final_view_has_end_minus_one :
  SplitGen_take 5 (splitBuffer split_input split_sep 0)
  = ([ {| buf := split_input; start := 0; end_ := 1 |};
       {| buf := split_input; start := 2; end_ := -1 |} ], true)
  /\ SplitResult_toString {| buf := split_input; start := 2; end_ := -1 |}
     = []
  /\ SplitResult_toString {| buf := split_input; start := 2; end_ := 3 |}
     = js "b"
  /\ blen split_input = 3.
Proof. repeat split; vm_compute; reflexivity. Qed.

(* ================================================================== *)
(** ** The scan of a chunk                                            *)
(* ================================================================== *)

Lemma lastFile_some (form : HttpForm) :
  files form <> [] -> exists f, lastFile form = Some f.
Proof.
  unfold lastFile. intro H.
  destruct (files form) as [|f fs] eqn:E; [contradiction|].
  destruct (nth_error (f :: fs) (List.length (f :: fs) - 1)) eqn:N.
  - eexists. reflexivity.
  - apply nth_error_None in N. simpl in N. lia.
Qed.

Lemma lastFile_none (form : HttpForm) :
  files form = [] -> lastFile form = None.
Proof. unfold lastFile. intros ->. reflexivity. Qed.

Lemma clamp_zero (len : Z) : 0 <= len -> Buf.clamp len 0 = 0.
Proof. intro H. unfold Buf.clamp. simpl. lia. Qed.

Lemma clamp_len (len : Z) : 0 <= len -> Buf.clamp len len = len.
Proof.
  intro H. unfold Buf.clamp.
  destruct (len <? 0) eqn:E; [apply Z.ltb_lt in E; lia|]. lia.
Qed.

Lemma subarray_from_zero (chunk : Buffer) : Buf.subarray_from chunk 0 = chunk.
Proof.
  unfold Buf.subarray_from, Buf.subarray.
  assert (H : 0 <= blen chunk) by (unfold blen; lia).
  rewrite clamp_zero, clamp_len by exact H.
  rewrite Z.sub_0_r. unfold blen. rewrite Nat2Z.id. simpl.
  apply firstn_all.
Qed.

(** Without an occurrence of the boundary the loop is not entered. *)
Lemma write_loop_no_boundary (fuel : nat) (chunk : Buffer) (form : HttpForm) :
  ~ occurs (boundary form) chunk ->
  write_loop fuel chunk form [] (Buf.indexOf chunk (boundary form) 0) 0
  = Some (Ok {| scan_form := form; scan_queue := []; scan_end := 0 |}).
Proof.
  intro H. apply indexOf_none in H. rewrite H.
  destruct fuel; reflexivity.
Qed.

(** C8 as stated fails at the empty chunk: it has no occurrence of the
    boundary, no Part exists, and [_write] returns without an exception and
    with an empty queue. *)
Lemma boundary_free_chunk_need_not_throw :
  ~ (forall fuel form chunk callback,
       files form = [] -> ~ occurs (boundary form) chunk ->
       HttpForm_write fuel form chunk callback = Some (Throw TypeError)).
Proof.
  intro H.
  specialize (H O (fresh_form (Buffer_from "--B")) [] O eq_refl).
  assert (N : ~ occurs (boundary (fresh_form (Buffer_from "--B"))) [])
    by (apply indexOf_none; reflexivity).
  specialize (H N). vm_compute in H. discriminate.
Qed.

(** C8, amended: a chunk that has at least one byte and no occurrence of
    the boundary makes [_write] throw a TypeError when no Part exists
    (the write is bound on the undefined [lastFile]); when a Part exists,
    [_write] does not throw and queues the whole chunk as one write to the
    last Part. *)
Theorem boundary_free_chunk_needs_active_part
    (fuel : nat) (form : HttpForm) (chunk : Buffer) (callback : nat)
    (Hfree : ~ occurs (boundary form) chunk) (Hbytes : chunk <> []) :
  (files form = [] ->
   HttpForm_write fuel form chunk callback = Some (Throw TypeError)) /\
  (files form <> [] ->
   exists f, lastFile form = Some f /\
     HttpForm_write fuel form chunk callback
     = Some (Ok (form, once (VSym END_EVENT) callback
                         (asyncQueue [FileWrite (stream f) chunk])))).
Proof.
  assert (L : (0 <? blen chunk) = true).
  { apply Z.ltb_lt. unfold blen. destruct chunk; [contradiction|].
    simpl. lia. }
  unfold HttpForm_write, write_scan.
  rewrite (write_loop_no_boundary fuel chunk form Hfree). simpl. rewrite L.
  split.
  - intro E. unfold bind_write. rewrite (lastFile_none form E). reflexivity.
  - intro N. destruct (lastFile_some form N) as [f F]. exists f.
    split; [exact F|]. unfold bind_write. rewrite F.
    rewrite subarray_from_zero. reflexivity.
Qed.

Lemma boundary_free_chunk_needs_active_part_witness :
  HttpForm_write 3 (fresh_form (Buffer_from "--B")) (Buffer_from "preamble") 1
  = Some (Throw TypeError).
Proof.
  apply (boundary_free_chunk_needs_active_part 3
           (fresh_form (Buffer_from "--B")) (Buffer_from "preamble") 1).
  - apply indexOf_none. reflexivity.
  - discriminate.
  - reflexivity.
Defined.

Lemma header_first_view (chunk : Buffer) (pos : Z) :
  exists r, fst (header_views chunk pos) = Some r.
Proof.
  unfold header_views, splitBuffer, SplitGen_next.
  cbn [gen_buf gen_sep gen_state].
  destruct (Buf.indexOf chunk EOL pos =? -1); eexists; reflexivity.
Qed.

(** A header block of the wrong form makes [NEW_FILE_METHOD] throw a
    TypeError: the result of [exec] is indexed although it is [null], or
    the second line is [undefined]. *)
Lemma NEW_FILE_METHOD_malformed (form : HttpForm) (chunk : Buffer) (pos : Z) :
  malformed_header chunk pos ->
  HttpForm_NEW_FILE_METHOD form chunk pos = Throw TypeError.
Proof.
  unfold malformed_header, unmatched, header_views, HttpForm_NEW_FILE_METHOD.
  destruct (SplitGen_next (splitBuffer chunk EOL pos)) as [first g1].
  destruct (SplitGen_next g1) as [second g2].
  destruct (SplitGen_next g2) as [third g3].
  simpl fst. simpl snd. unfold exec1.
  intros [H|H].
  - destruct (line_toString first) as [s1|e] eqn:L1.
    + rewrite H. reflexivity.
    + destruct first; simpl in L1; [discriminate|]. injection L1 as <-.
      reflexivity.
  - destruct (line_toString first) as [s1|e] eqn:L1.
    + destruct (RegExp.exec REG_EXP_FILENAME s1); [|reflexivity].
      destruct (line_toString second) as [s2|e] eqn:L2.
      * rewrite H. reflexivity.
      * destruct second; simpl in L2; [discriminate|]. injection L2 as <-.
        reflexivity.
    + destruct first; simpl in L1; [discriminate|]. injection L1 as <-.
      reflexivity.
Qed.

(** C7: whenever the scan loop of [_write] stands at a boundary that is not
    followed by the terminal marker and whose header block has a first line
    that does not match the filename expression or a second line that does
    not match the content-type expression, the loop ends in an exception,
    and so does [_write] when this is the first boundary of the chunk.  The
    exception is the TypeError of indexing the [null] match, unless the
    chunk ends before the two bytes behind the boundary, in which case
    [compare] has already thrown. *)
Theorem malformed_header_throws
    (fuel : nat) (chunk : Buffer) (form : HttpForm) (queue : list AsyncTask)
    (start0 end0 : Z)
    (Hfound : start0 <> -1)
    (Hnonterminal :
       Buf.compare SEP chunk (start0 + blen (boundary form))
         (start0 + blen (boundary form) + blen SEP) <> Ok 0)
    (Hmalformed :
       malformed_header chunk (start0 + blen (boundary form) + blen EOL)) :
  exists e,
    write_loop (S fuel) chunk form queue start0 end0 = Some (Throw e) /\
    (forall c, Buf.compare SEP chunk (start0 + blen (boundary form))
                 (start0 + blen (boundary form) + blen SEP) = Ok c ->
               e = TypeError) /\
    (forall callback,
       start0 = Buf.indexOf chunk (boundary form) 0 -> queue = [] ->
       end0 = 0 ->
       HttpForm_write (S fuel) form chunk callback = Some (Throw e)).
Proof.
  assert (Hs : (start0 =? -1) = false) by (apply Z.eqb_neq; exact Hfound).
  assert (Hq : exists queue1,
     (if (0 <? Z.of_nat (List.length (files form)))
      then match bind_write form (Buf.subarray chunk end0 start0) with
           | Ok t => Ok (queue ++ [t])
           | Throw e => Throw e
           end
      else Ok queue) = Ok queue1).
  { destruct (0 <? Z.of_nat (List.length (files form))) eqn:L.
    - assert (N : files form <> []).
      { intro E. rewrite E in L. discriminate. }
      destruct (lastFile_some form N) as [f F].
      unfold bind_write. rewrite F. eexists. reflexivity.
    - eexists. reflexivity. }
  destruct Hq as [queue1 Hq].
  assert (Hloop : exists e,
     write_loop (S fuel) chunk form queue start0 end0 = Some (Throw e) /\
     (forall c, Buf.compare SEP chunk (start0 + blen (boundary form))
                  (start0 + blen (boundary form) + blen SEP) = Ok c ->
                e = TypeError)).
  { simpl write_loop. rewrite Hs. unfold write_body. rewrite Hq.
    destruct (Buf.compare SEP chunk (start0 + blen (boundary form))
                (start0 + blen (boundary form) + blen SEP)) as [c|e] eqn:C.
    - destruct (c =? 0) eqn:C0.
      + apply Z.eqb_eq in C0. subst c. contradiction.
      + rewrite (NEW_FILE_METHOD_malformed form chunk _ Hmalformed).
        exists TypeError. split; [reflexivity|]. intros; reflexivity.
    - exists e. split; [reflexivity|]. intros c' H. discriminate. }
  destruct Hloop as [e [Hl He]]. exists e.
  split; [exact Hl|]. split; [exact He|].
  intros callback -> -> ->. unfold HttpForm_write, write_scan.
  rewrite Hl. reflexivity.
Qed.

Lemma malformed_header_throws_witness :
  HttpForm_write 1 (fresh_form (Buffer_from "--B")) malformed_chunk 1
  = Some (Throw TypeError).
Proof.
  destruct (malformed_header_throws 0 malformed_chunk
              (fresh_form (Buffer_from "--B")) [] 0 0) as [e [_ [He Hw]]].
  - discriminate.
  - vm_compute. discriminate.
  - left. vm_compute. reflexivity.
  - rewrite (Hw 1%nat eq_refl eq_refl eq_refl).
    rewrite (He 1 eq_refl). reflexivity.
Defined.

(* ================================================================== *)
(** ** The event loop comes to rest                                   *)
(* ================================================================== *)

Section Termination.

Local Open Scope nat_scope.

Lemma costs_ret {A} (a : A) : costs (ret a) 0.
Proof. intro m. simpl. lia. Qed.

Lemma costs_bind {A B} (c : M A) (f : A -> M B) (k1 k2 : nat) :
  costs c k1 -> (forall a, costs (f a) k2) -> costs (bind c f) (k1 + k2).
Proof.
  intros Hc Hf m. unfold bind. specialize (Hc m).
  destruct (c m) as [a m'|m']; simpl in *.
  - specialize (Hf a m'). lia.
  - lia.
Qed.

Lemma costs_weaken {A} (c : M A) (k k' : nat) :
  costs c k -> k <= k' -> costs c k'.
Proof. intros H L m. specialize (H m). lia. Qed.

Lemma costs_observe (o : list Obs) : costs (observe o) 0.
Proof. intro m. unfold measure. simpl. lia. Qed.

Lemma costs_emit (type : Value) (args : list Value) :
  costs (emit type args) 0.
Proof.
  intro m. unfold emit, measure.
  destruct (is_error type && _); simpl; lia.
Qed.

Lemma costs_emit_apply (results : list Value) : costs (emit_apply results) 0.
Proof. destruct results; apply costs_emit. Qed.

Lemma list_sum_snoc (f : Job -> nat) (l : list Job) (j : Job) :
  list_sum (map f (l ++ [j])) = list_sum (map f l) + f j.
Proof. rewrite map_app, list_sum_app. simpl. lia. Qed.

Lemma costs_queueMicrotask (j : Job) : costs (queueMicrotask j) (job_weight j).
Proof.
  intro m. unfold measure. simpl. rewrite list_sum_snoc. lia.
Qed.

Lemma costs_wait_for (cb : Callback) (results : list Value) :
  costs (wait_for cb results) 2.
Proof.
  intro m. unfold measure. simpl. rewrite length_app. simpl. lia.
Qed.

Lemma costs_factory : costs factory 1.
Proof.
  intros [i ls mt w lg cr]. unfold factory, bind, it_next, measure.
  destruct i as [|f fs]; simpl; rewrite list_sum_snoc; simpl;
    unfold task_weight; lia.
Qed.

Lemma costs_queue_callback (results : list Value) :
  costs (queue_callback results) 1.
Proof.
  unfold queue_callback.
  apply costs_bind with (k1 := 0) (k2 := 1); [apply costs_observe|]. intros _.
  apply costs_bind with (k1 := 0) (k2 := 1); [apply costs_emit_apply|].
  intros _.
  apply costs_factory.
Qed.

Lemma costs_parallel_tail :
  costs (next <- it_next ;;
         match next with
         | None => emit (VSym END_EVENT) [] ;; ret tt
         | Some _ => ret tt
         end) 0.
Proof.
  intros [i ls mt w lg cr]. unfold bind, it_next, emit, measure.
  destruct i as [|f fs]; simpl.
  - destruct (filter (hears (KSym END_EVENT)) ls); simpl; lia.
  - lia.
Qed.

Lemma costs_parallel_callback (results : list Value) :
  costs (parallel_callback results) 0.
Proof.
  unfold parallel_callback.
  apply costs_bind with (k1 := 0) (k2 := 0); [apply costs_observe|]. intros _.
  apply costs_bind with (k1 := 0) (k2 := 0); [apply costs_emit_apply|].
  intros _.
  apply costs_parallel_tail.
Qed.

Lemma costs_invoke (cb : Callback) (results : list Value) :
  costs (invoke cb results) 1.
Proof.
  destruct cb; simpl.
  - apply costs_queue_callback.
  - eapply costs_weaken; [apply costs_parallel_callback|lia].
Qed.

Lemma costs_generic_calls (cb : Callback) (calls : list (When * list Value)) :
  costs (generic_calls cb calls) (2 * List.length calls).
Proof.
  induction calls as [|[w r] calls IH]; simpl generic_calls.
  - apply costs_ret.
  - replace (2 * List.length ((w, r) :: calls))
      with (2 + 2 * List.length calls) by (simpl; lia).
    destruct w; apply costs_bind; try (intros _; exact IH).
    + eapply costs_weaken; [apply costs_invoke|lia].
    + apply (costs_queueMicrotask (JCall cb r)).
    + apply costs_wait_for.
Qed.

Lemma costs_call_task (t : AsyncTask) (accepted : bool) (cb : Callback) :
  costs (call_task t accepted cb) (2 * List.length (calls_of t)).
Proof.
  unfold call_task.
  apply costs_bind with (k1 := 0) (k2 := 2 * List.length (calls_of t));
    [apply costs_observe|]. intros _.
  destruct t as [file data|file|calls]; simpl calls_of.
  - unfold HttpFile_write.
    apply costs_bind with (k1 := 0) (k2 := 2); [apply costs_observe|]. intros _.
    destruct (negb accepted).
    + apply costs_wait_for.
    + apply (costs_queueMicrotask (JCall cb [])).
  - unfold HttpFile_close.
    apply costs_bind with (k1 := 0) (k2 := 2); [apply costs_observe|]. intros _.
    apply costs_wait_for.
  - rewrite length_map. apply costs_generic_calls.
Qed.

Lemma costs_emit_unit (type : Value) : costs (emit type [] ;; ret tt) 0.
Proof.
  apply costs_bind with (k1 := 0) (k2 := 0); [apply costs_emit|].
  intros _. apply costs_ret.
Qed.

Lemma costs_run_job (accepted : bool) (j : Job) (m : Machine) :
  measure (state_of (run_job accepted j m)) + 1 <= measure m + job_weight j.
Proof.
  destruct j as [[t|]|t|type|cb r]; simpl run_job; simpl job_weight.
  - pose proof (costs_call_task t accepted QueueCallback m) as H.
    unfold task_weight. lia.
  - pose proof (costs_emit_unit (VSym END_EVENT) m) as H. lia.
  - pose proof (costs_call_task t accepted ParallelCallback m) as H.
    unfold task_weight. lia.
  - pose proof (costs_emit_unit type m) as H. lia.
  - pose proof (costs_invoke cb r m) as H. lia.
Qed.

Lemma measure_settle (o : Outcome unit) :
  measure (settle o) = measure (state_of o).
Proof. destruct o; reflexivity. Qed.

Lemma length_remove_nth {A} (k : nat) (l : list A) (a : A) :
  nth_error l k = Some a -> List.length (remove_nth k l) + 1 = List.length l.
Proof.
  intro H. unfold remove_nth.
  assert (L : k < List.length l) by (apply nth_error_Some; congruence).
  rewrite length_app, length_firstn, length_skipn. lia.
Qed.

(** Every step that the runtime can take lowers the measure. *)
Lemma step_decreases (c : Choice) (m m' : Machine) :
  step c m = Some m' -> measure m' < measure m.
Proof.
  destruct m as [i ls mt w lg cr]. unfold step. simpl.
  destruct cr; [discriminate|].
  destruct c as [accepted|k].
  - destruct mt as [|j js]; [discriminate|].
    intro H. injection H as <-. rewrite measure_settle.
    match goal with
    | |- measure (state_of (run_job _ _ ?m0)) < _ =>
        pose proof (costs_run_job accepted j m0) as C
    end.
    unfold measure in *. simpl in *. lia.
  - destruct (nth_error w k) as [[cb r]|] eqn:E; [|discriminate].
    intro H. injection H as <-. rewrite measure_settle.
    match goal with
    | |- measure (state_of (invoke _ _ ?m0)) < _ =>
        pose proof (costs_invoke cb r m0) as C
    end.
    pose proof (length_remove_nth _ _ _ E).
    unfold measure in *. simpl in *. lia.
Qed.

Lemma job_weight_pos (j : Job) : 1 <= job_weight j.
Proof. destruct j as [[t|]|t|type|cb r]; simpl; unfold task_weight; lia. Qed.

Lemma stuck_quiescent (m : Machine) :
  step (Tick true) m = None -> step (Fire 0) m = None -> quiescent m.
Proof.
  unfold step, quiescent. destruct (crashed m); [left; reflexivity|].
  intros H1 H2. right.
  destruct (microtasks m); [|discriminate].
  destruct (waiting m) as [|[cb r] w]; [auto|discriminate].
Qed.

(** The oldest-first runtime brings every machine to rest within
    [measure m] steps. *)
Lemma drain_quiescent (fuel : nat) (m : Machine) :
  measure m <= fuel -> quiescent (drain fuel m).
Proof.
  revert m. induction fuel as [|fuel IH]; intros m L.
  - simpl. unfold quiescent. right. unfold measure in L.
    destruct (microtasks m) as [|j js].
    + destruct (waiting m); [auto|simpl in L; lia].
    + pose proof (job_weight_pos j). simpl in L. lia.
  - simpl. destruct (step (Tick true) m) as [m'|] eqn:T.
    + apply IH. apply step_decreases in T. lia.
    + destruct (step (Fire 0) m) as [m'|] eqn:F.
      * apply IH. apply step_decreases in F. lia.
      * apply stuck_quiescent; assumption.
Qed.

Lemma drain_reachable (fuel : nat) (m : Machine) : reachable m (drain fuel m).
Proof.
  revert m. induction fuel as [|fuel IH]; intro m.
  - exists []. reflexivity.
  - simpl. destruct (step (Tick true) m) as [m'|] eqn:T.
    + destruct (IH m') as [s Hs]. exists (Tick true :: s). simpl.
      rewrite T. exact Hs.
    + destruct (step (Fire 0) m) as [m'|] eqn:F.
      * destruct (IH m') as [s Hs]. exists (Fire 0 :: s). simpl.
        rewrite F. exact Hs.
      * exists []. reflexivity.
Qed.

(** From every machine the runtime has a way to rest. *)
Lemma rest_exists (m : Machine) :
  exists schedule, quiescent (run schedule m).
Proof.
  destruct (drain_reachable (measure m) m) as [s Hs]. exists s.
  rewrite Hs. apply drain_quiescent. lia.
Qed.

End Termination.

(* ================================================================== *)
(** ** What the pieces of src/async.mjs compute                       *)
(* ================================================================== *)

Lemma emit_quiet (type : Value) (args : list Value) (m : Machine) :
  is_error type = false ->
  emit type args m =
  Returned (match filter (hears (to_key type)) (listeners m) with
            | [] => false
            | _ :: _ => true
            end)
    {| it := it m; listeners := deaf (listeners m) type;
       microtasks := microtasks m; waiting := waiting m;
       log := log m ++ heard (listeners m) type args;
       crashed := crashed m |}.
Proof. intro H. unfold emit. rewrite H. reflexivity. Qed.

Lemma emit_apply_emit (results : list Value) :
  emit_apply results = emit (event_type results) (event_args results).
Proof. destruct results; reflexivity. Qed.

Lemma factory_eq i ls mt w lg cr :
  factory {| it := i; listeners := ls; microtasks := mt; waiting := w;
             log := lg; crashed := cr |}
  = Returned tt
      {| it := tl i; listeners := ls;
         microtasks := mt ++ [JTask (hd_error i)]; waiting := w;
         log := lg; crashed := cr |}.
Proof. destruct i; reflexivity. Qed.

Lemma queue_callback_eq r i ls mt w lg cr :
  is_error (event_type r) = false ->
  queue_callback r {| it := i; listeners := ls; microtasks := mt;
                      waiting := w; log := lg; crashed := cr |}
  = Returned tt
      {| it := tl i; listeners := deaf ls (event_type r);
         microtasks := mt ++ [JTask (hd_error i)]; waiting := w;
         log := lg ++ completion ls r; crashed := cr |}.
Proof.
  intro H. unfold queue_callback, bind. simpl.
  rewrite emit_apply_emit, (emit_quiet _ _ _ H). simpl.
  rewrite factory_eq. rewrite <- app_assoc. reflexivity.
Qed.

Lemma asyncQueue_eq (fs : list AsyncTask) :
  asyncQueue fs =
  {| it := tl fs; listeners := []; microtasks := [JTask (hd_error fs)];
     waiting := []; log := []; crashed := false |}.
Proof. unfold asyncQueue, boot. rewrite factory_eq. reflexivity. Qed.

Lemma run_preserves (P : Machine -> Prop) :
  (forall c m m', P m -> step c m = Some m' -> P m') ->
  forall schedule m, P m -> P (run schedule m).
Proof.
  intros H schedule. induction schedule as [|c schedule IH]; intros m Pm.
  - exact Pm.
  - simpl. destruct (step c m) as [m'|] eqn:E.
    + apply IH. eapply H; eassumption.
    + apply IH. exact Pm.
Qed.

Lemma calls_once_generic (calls : list (When * list Value)) :
  calls_once (Generic calls) -> exists w r, calls = [(w, r)].
Proof.
  unfold calls_once. simpl. rewrite length_map.
  destruct calls as [|[w r] [|c calls]]; simpl; try discriminate.
  intros _. exists w, r. reflexivity.
Qed.

(* ================================================================== *)
(** ** The sequential orchestrator                                    *)
(* ================================================================== *)

Ltac log_eq Ht :=
  rewrite <- Ht;
  unfold completion, heard, result_of, event_type, event_args, deaf;
  simpl; repeat rewrite <- app_assoc; simpl; reflexivity.

Lemma QueueInv_step (total : list Obs) (c : Choice) (m m' : Machine) :
  QueueInv total m -> step c m = Some m' -> QueueInv total m'.
Proof.
  intros Inv. destruct Inv as [ls lg rest Ht Ho Hq | ls lg r rest Ht He Ho Hq
                              | ls lg r rest Ht He Ho Hq | ls].
  - (* a task is about to be taken *)
    destruct c as [accepted|k]; [|destruct k; discriminate].
    unfold step. simpl crashed. cbv iota. simpl microtasks. cbv iota.
    intro H. injection H as <-.
    destruct rest as [|t rest].
    + simpl. subst total. apply QDone.
    + pose proof (Forall_inv Ho) as Ho1. pose proof (Forall_inv_tail Ho) as Ho'.
      pose proof (Forall_inv Hq) as Hq1. pose proof (Forall_inv_tail Hq) as Hq'.
      simpl hd_error. simpl tl. simpl task.
      destruct t as [file data|file|calls].
      * unfold call_task, HttpFile_write, bind. simpl.
        destruct accepted; simpl.
        -- apply QQueued; auto. log_eq Ht.
        -- apply QWaiting; auto. log_eq Ht.
      * unfold call_task, HttpFile_close, bind. simpl.
        apply QWaiting; auto. log_eq Ht.
      * destruct (calls_once_generic _ Ho1) as [w [r ->]].
        assert (Hr : is_error (event_type r) = false).
        { unfold quiet in Hq1. simpl in Hq1. inversion Hq1. assumption. }
        destruct w; unfold call_task, bind; simpl run_job.
        -- unfold generic_calls, bind, invoke, observe.
           cbn [it listeners microtasks waiting log crashed].
           rewrite queue_callback_eq by exact Hr. simpl.
           apply QIdle; auto. log_eq Ht.
        -- simpl. apply QQueued; auto. log_eq Ht.
        -- simpl. apply QWaiting; auto. log_eq Ht.
  - (* the continuation is queued *)
    destruct c as [accepted|k]; [|destruct k; discriminate].
    unfold step. simpl crashed. cbv iota. simpl microtasks. cbv iota.
    intro H. injection H as <-. unfold run_job, invoke.
    rewrite queue_callback_eq by exact He. simpl.
    apply QIdle; auto. log_eq Ht.
  - (* the continuation waits *)
    destruct c as [accepted|k]; [discriminate|].
    destruct k as [|k]; [|destruct k; discriminate].
    unfold step. simpl crashed. cbv iota. simpl waiting. simpl nth_error.
    cbv iota.
    intro H. injection H as <-. unfold invoke.
    rewrite queue_callback_eq by exact He. simpl.
    apply QIdle; auto. log_eq Ht.
  - destruct c as [accepted|k]; [discriminate|destruct k; discriminate].
Qed.

Lemma QueueInv_start (ls : list (Key * nat)) (fs : list AsyncTask) :
  Forall calls_once fs -> Forall quiet fs ->
  QueueInv (queue_log ls fs)
    {| it := tl fs; listeners := ls; microtasks := [JTask (hd_error fs)];
       waiting := []; log := []; crashed := false |}.
Proof. intros Ho Hq. apply QIdle; auto. Qed.

Lemma QueueInv_prefix (total : list Obs) (m : Machine) :
  QueueInv total m -> exists future, log m ++ future = total.
Proof.
  intros [ls lg rest Ht _ _ | ls lg r rest Ht _ _ _
         | ls lg r rest Ht _ _ _ | ls]; simpl.
  - eexists. exact Ht.
  - eexists. exact Ht.
  - eexists. exact Ht.
  - exists []. apply app_nil_r.
Qed.

Lemma QueueInv_rest (total : list Obs) (m : Machine) :
  QueueInv total m -> quiescent m -> log m = total.
Proof.
  intros [ls lg rest Ht _ _ | ls lg r rest Ht _ _ _
         | ls lg r rest Ht _ _ _ | ls] [C|[Hm Hw]];
    simpl in *; try discriminate; reflexivity.
Qed.

Lemma QueueInv_alive (total : list Obs) (m : Machine) :
  QueueInv total m -> crashed m = false.
Proof. intros [| | |]; reflexivity. Qed.

Lemma reachable_QueueInv (ls : list (Key * nat)) (fs : list AsyncTask)
    (m : Machine) :
  Forall calls_once fs -> Forall quiet fs ->
  reachable
    {| it := tl fs; listeners := ls; microtasks := [JTask (hd_error fs)];
       waiting := []; log := []; crashed := false |} m ->
  QueueInv (queue_log ls fs) m.
Proof.
  intros Ho Hq [schedule <-].
  apply run_preserves.
  - intros c m0 m1. apply QueueInv_step.
  - apply QueueInv_start; assumption.
Qed.

Lemma queue_log_no_listener (fs : list AsyncTask) :
  queue_log [] fs = flat_map round fs ++ [Emit (VSym END_EVENT) []].
Proof.
  induction fs as [|t fs IH].
  - reflexivity.
  - cbn [queue_log flat_map]. unfold round, completion, heard, deaf.
    cbn [filter map]. rewrite IH.
    cbn [app]. rewrite <- !app_assoc. reflexivity.
Qed.

Lemma effect_obs_no_emit (s : Symbol) (t : AsyncTask) :
  filter (is_emit_of s) (effect_obs t) = [].
Proof. destruct t; reflexivity. Qed.

Lemma emitted_app (s : Symbol) (l l' : list Obs) :
  emitted s (l ++ l') = (emitted s l + emitted s l')%nat.
Proof. unfold emitted. rewrite filter_app, length_app. reflexivity. Qed.

Lemma emitted_rounds (s : Symbol) (fs : list AsyncTask) :
  Forall (fun t => event_type (result_of t) <> VSym s) fs ->
  emitted s (flat_map round fs) = 0%nat.
Proof.
  induction 1 as [|t fs Ht _ IH]; [reflexivity|].
  cbn [flat_map]. rewrite emitted_app, IH, Nat.add_0_r.
  unfold round, emitted. cbn [filter is_emit_of]. rewrite filter_app.
  rewrite effect_obs_no_emit. cbn [app filter is_emit_of].
  destruct (event_type (result_of t)) as [| | | |s'] eqn:E; try reflexivity.
  destruct (Symbol_eqb s s') eqn:Q; [|reflexivity].
  exfalso. apply Ht. f_equal.
  destruct s, s'; simpl in Q; try discriminate; try reflexivity.
  apply Nat.eqb_eq in Q. subst. reflexivity.
Qed.

(** C4.  The continuation that asyncQueue gives to a task emits with the
    results of the task as its arguments, so that the first result is the
    name of the event, where async.mjs documents one event of its own for
    a finished task (DONE_EVENT) and END_EVENT once all tasks are done.
    It is therefore not true that every list of tasks that call their
    continuation once ends with exactly one emission of END_EVENT.  At
    the list of a task that passes 'error' as its first result, followed
    by task B, the task calls its continuation once, the emission of
    'error' throws because nobody listens for it, the queue stops, task B
    is never started and END_EVENT is never emitted.  At a task that
    passes END_EVENT, END_EVENT is emitted twice, the first time before
    task B starts. *)
Lemma asyncQueue_result_names_can_break_the_aggregate :
  ~ (forall fs, Forall calls_once fs ->
       forall m, reachable (asyncQueue fs) m -> quiescent m ->
                 emitted END_EVENT (log m) = 1%nat) /\
  log (drain 9 (asyncQueue [task_error; task_B]))
  = [Started task_error; Called [VStr "error"]] /\
  log (drain 9 (asyncQueue [task_end; task_B]))
  = [ Started task_end; Called [VSym END_EVENT]; Emit (VSym END_EVENT) [];
      Started task_B; Called [VStr "B"]; Emit (VStr "B") [];
      Emit (VSym END_EVENT) [] ].
Proof.
  split; [|split; reflexivity].
  intro H.
  specialize (H [task_error; task_B]).
  assert (O : Forall calls_once [task_error; task_B])
    by (repeat constructor).
  specialize (H O (drain 9 (asyncQueue [task_error; task_B]))
                (drain_reachable 9 _)).
  assert (Q : quiescent (drain 9 (asyncQueue [task_error; task_B])))
    by (left; reflexivity).
  specialize (H Q). vm_compute in H. discriminate.
Qed.

(** X26.  For tasks that do not throw, call their continuation exactly
    once, at once or later, and do not name the event 'error' (which an
    emitter without listener for it throws), the log of asyncQueue is, at
    every moment, a prefix of the sequential log: for each task in
    submission order its start, its effect, the call of its continuation
    and the emission of its results, one task after the other, and then
    one emission of END_EVENT; every run that comes to rest has produced
    exactly this log, and the runtime can always come to rest.  For the
    empty list the log is the emission of END_EVENT alone.  When no task
    passes END_EVENT as its first result, END_EVENT is emitted exactly
    once. *)
Theorem asyncQueue_runs_tasks_in_order (fs : list AsyncTask)
    (Honce : Forall calls_once fs) (Hquiet : Forall quiet fs) :
  (forall m, reachable (asyncQueue fs) m ->
     exists future,
       log m ++ future = flat_map round fs ++ [Emit (VSym END_EVENT) []]) /\
  (forall m, reachable (asyncQueue fs) m -> quiescent m ->
     log m = flat_map round fs ++ [Emit (VSym END_EVENT) []]) /\
  (exists schedule, quiescent (run schedule (asyncQueue fs))) /\
  (Forall (fun t => event_type (result_of t) <> VSym END_EVENT) fs ->
   emitted END_EVENT (flat_map round fs ++ [Emit (VSym END_EVENT) []])
   = 1%nat).
Proof.
  rewrite asyncQueue_eq. rewrite <- queue_log_no_listener.
  repeat split.
  - intros m R. apply QueueInv_prefix.
    apply reachable_QueueInv; assumption.
  - intros m R Q. apply QueueInv_rest; [|exact Q].
    apply reachable_QueueInv; assumption.
  - apply rest_exists.
  - intro H. rewrite queue_log_no_listener, emitted_app.
    rewrite (emitted_rounds END_EVENT fs H). reflexivity.
Qed.

Lemma asyncQueue_runs_tasks_in_order_witness :
  log (drain 9 (asyncQueue [task_A; task_B; task_C]))
  = [ Started task_A; Called [VStr "A"]; Emit (VStr "A") [];
      Started task_B; Called [VStr "B"]; Emit (VStr "B") [];
      Started task_C; Called [VStr "C"]; Emit (VStr "C") [];
      Emit (VSym END_EVENT) [] ].
Proof.
  apply (asyncQueue_runs_tasks_in_order [task_A; task_B; task_C]).
  - repeat constructor.
  - repeat constructor.
  - apply drain_reachable.
  - right. split; reflexivity.
Defined.

(* ================================================================== *)
(** ** The write tasks of a chunk                                     *)
(* ================================================================== *)

Section Scan.

Local Open Scope nat_scope.










End Scan.

Lemma queue_log_end_listener (cb : nat) (fs : list AsyncTask) :
  Forall (fun t => Key_eqb (KSym END_EVENT)
                     (to_key (event_type (result_of t))) = false) fs ->
  queue_log [(KSym END_EVENT, cb)] fs
  = flat_map round fs ++ [Emit (VSym END_EVENT) []; Heard cb []].
Proof.
  induction 1 as [|t fs Ht _ IH].
  - reflexivity.
  - cbn [queue_log flat_map]. unfold round, completion, heard, deaf, hears.
    cbn [filter map fst]. rewrite Ht. cbn [negb map app].
    fold (deaf [(KSym END_EVENT, cb)] VUndefined).
    change (filter (fun l : Key * nat =>
                      negb (Key_eqb (fst l) (to_key VUndefined)))
              [(KSym END_EVENT, cb)]) with [(KSym END_EVENT, cb)] in *.
    rewrite IH. rewrite <- !app_assoc. reflexivity.
Qed.

Lemma writes_are_single_shot (chunk : Buffer) (queue : list AsyncTask) :
  Forall (writes_range chunk) queue ->
  Forall calls_once queue /\ Forall quiet queue /\
  Forall (fun t => Key_eqb (KSym END_EVENT)
                     (to_key (event_type (result_of t))) = false) queue.
Proof.
  induction 1 as [|t queue Ht _ IH].
  - repeat split; constructor.
  - destruct Ht as [file [lo [hi Ht]]]. subst t.
    destruct IH as (IH1 & IH2 & IH3).
    repeat split; constructor; auto.
    + reflexivity.
    + repeat constructor.
Qed.



(** The machines of the run that [_write] starts for a queue of writes. *)
Lemma write_queue_inv (chunk : Buffer) (queue : list AsyncTask)
    (callback : nat) :
  Forall (writes_range chunk) queue ->
  forall m,
    reachable (once (VSym END_EVENT) callback (asyncQueue queue)) m ->
    QueueInv (flat_map round queue
              ++ [Emit (VSym END_EVENT) []; Heard callback []]) m.
Proof.
  intros Hw m R.
  destruct (writes_are_single_shot chunk queue Hw) as (Ho & Hq & Hk).
  rewrite <- (queue_log_end_listener callback queue Hk).
  apply reachable_QueueInv; try assumption.
  rewrite asyncQueue_eq in R. exact R.
Qed.

(** C1, at the single-file body: [_write] returns with exactly one Part,
    named a.txt, of type text/plain, and the run that it starts gives the
    sink of this Part the seven bytes of hello followed by CRLF, in every
    run that comes to rest: the line terminator that separates the body
    from the terminal boundary is written to the file. *)
Theorem single_file_sink_receives_trailing_crlf :
  HttpForm_write 2 (fresh_form (Buffer_from "--B")) single_file_chunk 1
  = Some (Ok (single_file_form,
              once (VSym END_EVENT) 1
                (asyncQueue [FileWrite 0 (Buffer_from "hello" ++ EOL)]))) /\
  (forall m,
     reachable (once (VSym END_EVENT) 1
                  (asyncQueue [FileWrite 0 (Buffer_from "hello" ++ EOL)])) m ->
     quiescent m ->
     sink 0 (log m) = Buffer_from "hello" ++ EOL) /\
  Buffer_from "hello" ++ EOL <> Buffer_from "hello" /\
  sink 0 (log (drain 9 (HttpForm_final single_file_form 2))) = [].
Proof.
  split; [vm_compute; reflexivity|]. split; [|split].
  - intros m R Q.
    assert (Hw : Forall (writes_range single_file_chunk)
                   [FileWrite 0 (Buffer_from "hello" ++ EOL)]).
    { constructor; [|constructor]. exists O, 98, 105. vm_compute. reflexivity. }
    rewrite (QueueInv_rest _ _
               (write_queue_inv single_file_chunk _ 1%nat Hw m R) Q).
    reflexivity.
  - discriminate.
  - vm_compute. reflexivity.
Qed.

(* ================================================================== *)
(** ** The concurrent orchestrator                                    *)
(* ================================================================== *)

Section Parallel.

Local Open Scope nat_scope.

Lemma started_app (l l' : list Obs) :
  started (l ++ l') = started l ++ started l'.
Proof.
  induction l as [|o l IH]; [reflexivity|].
  destruct o; simpl; rewrite IH; reflexivity.
Qed.

Lemma called_app (l l' : list Obs) : called (l ++ l') = called l ++ called l'.
Proof.
  induction l as [|o l IH]; [reflexivity|].
  destruct o; simpl; rewrite IH; reflexivity.
Qed.

Lemma emissions_app (l l' : list Obs) :
  emissions (l ++ l') = emissions l ++ emissions l'.
Proof.
  induction l as [|o l IH]; [reflexivity|].
  destruct o; simpl; rewrite IH; reflexivity.
Qed.

Lemma tl_skipn {A} (k : nat) (l : list A) : tl (skipn k l) = skipn (S k) l.
Proof.
  revert l. induction k as [|k IH]; intros [|a l]; try reflexivity.
  simpl skipn at 1. rewrite IH. reflexivity.
Qed.

Lemma perm_remove_nth {A} (k : nat) (l : list A) (a : A) :
  nth_error l k = Some a -> Permutation (a :: remove_nth k l) l.
Proof.
  intro H. apply nth_error_split in H. destruct H as (l1 & l2 & E & L).
  subst l k. unfold remove_nth.
  assert (S1 : skipn (S (List.length l1)) (l1 ++ a :: l2) = l2)
    by (clear; induction l1 as [|b l1 IH]; [reflexivity|exact IH]).
  rewrite S1, firstn_app, firstn_all, Nat.sub_diag. simpl.
  rewrite app_nil_r. apply Permutation_middle.
Qed.

Lemma remove_nth_map {A B} (f : A -> B) (k : nat) (l : list A) :
  remove_nth k (map f l) = map f (remove_nth k l).
Proof.
  unfold remove_nth. rewrite map_app, firstn_map, skipn_map. reflexivity.
Qed.

Lemma parallel_callback_eq r i mt w lg cr :
  is_error (event_type r) = false ->
  parallel_callback r {| it := i; listeners := []; microtasks := mt;
                         waiting := w; log := lg; crashed := cr |}
  = Returned tt
      {| it := tl i; listeners := []; microtasks := mt; waiting := w;
         log := lg ++ Called r :: Emit (event_type r) (event_args r)
                :: match i with
                   | [] => [Emit (VSym END_EVENT) []]
                   | _ :: _ => []
                   end;
         crashed := cr |}.
Proof.
  intro H. unfold parallel_callback, bind, observe.
  cbn [it listeners microtasks waiting log crashed].
  rewrite emit_apply_emit, (emit_quiet _ _ _ H).
  cbn [it listeners microtasks waiting log crashed].
  unfold it_next. cbn [it listeners microtasks waiting log crashed].
  destruct i as [|f i].
  - rewrite emit_quiet by reflexivity. unfold heard, deaf. simpl.
    rewrite <- !app_assoc. reflexivity.
  - unfold heard, deaf, ret. simpl. rewrite <- !app_assoc. reflexivity.
Qed.

Lemma for_of_eq fs i ls mt w lg cr :
  for_of fs {| it := i; listeners := ls; microtasks := mt; waiting := w;
               log := lg; crashed := cr |}
  = Returned tt
      {| it := i; listeners := ls; microtasks := mt ++ map JFunc fs;
         waiting := w; log := lg; crashed := cr |}.
Proof.
  revert mt. induction fs as [|f fs IH]; intro mt; simpl.
  - rewrite app_nil_r. reflexivity.
  - unfold bind, queueMicrotask.
    cbn [it listeners microtasks waiting log crashed].
    rewrite IH, <- app_assoc. reflexivity.
Qed.

Lemma asyncParallel_eq (fs : list AsyncTask) :
  asyncParallel fs =
  {| it := tl fs; listeners := [];
     microtasks := map JFunc fs
                   ++ match fs with
                      | [] => [JEmit (VSym END_EVENT)]
                      | _ :: _ => []
                      end;
     waiting := []; log := []; crashed := false |}.
Proof.
  unfold asyncParallel, boot, bind. rewrite for_of_eq.
  destruct fs as [|f fs]; simpl; [reflexivity|].
  rewrite app_nil_r. reflexivity.
Qed.

Lemma callback_log (fs : list AsyncTask) (lg : list Obs) (r : list Value) :
  List.length (called lg) < List.length fs ->
  emissions lg
  = map event_of (called lg)
    ++ aggregate (List.length (called lg)) (List.length fs) ->
  forall lg',
    lg' = lg ++ Called r :: Emit (event_type r) (event_args r)
          :: match skipn (S (List.length (called lg))) fs with
             | [] => [Emit (VSym END_EVENT) []]
             | _ :: _ => []
             end ->
    started lg' = started lg /\ called lg' = called lg ++ [r] /\
    emissions lg'
    = map event_of (called lg')
      ++ aggregate (List.length (called lg')) (List.length fs) /\
    (List.length (called lg') = List.length fs ->
     exists body, lg' = body ++ [Emit (VSym END_EVENT) []]).
Proof.
  intros Hc He lg' ->.
  assert (A0 : aggregate (List.length (called lg)) (List.length fs) = []).
  { unfold aggregate.
    destruct (Nat.eqb_spec (List.length (called lg)) (List.length fs));
      [lia|reflexivity]. }
  rewrite A0, app_nil_r in He.
  pose proof (length_skipn (S (List.length (called lg))) fs) as Ls.
  destruct (skipn (S (List.length (called lg))) fs) as [|f rest].
  - simpl in Ls.
    assert (N : S (List.length (called lg)) = List.length fs) by lia.
    rewrite started_app, called_app, emissions_app. simpl.
    rewrite app_nil_r, He, length_app, map_app. simpl.
    rewrite Nat.add_1_r, N. unfold aggregate. rewrite Nat.eqb_refl.
    repeat split.
    + rewrite <- app_assoc. reflexivity.
    + intros _. exists (lg ++ [Called r; Emit (event_type r) (event_args r)]).
      rewrite <- app_assoc. reflexivity.
  - simpl in Ls.
    rewrite started_app, called_app, emissions_app. simpl.
    rewrite app_nil_r, He, length_app, map_app. simpl.
    rewrite Nat.add_1_r. unfold aggregate.
    destruct (Nat.eqb_spec (S (List.length (called lg))) (List.length fs));
      [lia|].
    repeat split.
    + rewrite app_nil_r. reflexivity.
    + intro. lia.
Qed.

Lemma ParInv_intro fs i mt w lg unstarted mq wq :
  i = skipn (S (List.length (called lg))) fs ->
  mt = map JFunc unstarted ++ map (JCall ParallelCallback) mq ->
  w = map (pair ParallelCallback) wq ->
  fs = started lg ++ unstarted ->
  Permutation (called lg ++ mq ++ wq) (map result_of (started lg)) ->
  Forall (fun r => is_error (event_type r) = false) (mq ++ wq) ->
  emissions lg
  = map event_of (called lg)
    ++ aggregate (List.length (called lg)) (List.length fs) ->
  (List.length (called lg) = List.length fs ->
   exists body, lg = body ++ [Emit (VSym END_EVENT) []]) ->
  ParInv fs {| it := i; listeners := []; microtasks := mt; waiting := w;
               log := lg; crashed := false |}.
Proof. intros -> -> ->. apply PInv. Qed.

Lemma ParInv_counts fs lg unstarted (mq wq : list (list Value)) :
  fs = started lg ++ unstarted ->
  Permutation (called lg ++ mq ++ wq) (map result_of (started lg)) ->
  List.length (called lg) + List.length mq + List.length wq
  + List.length unstarted = List.length fs.
Proof.
  intros -> P. apply Permutation_length in P.
  rewrite !length_app, length_map in *. lia.
Qed.

Lemma start_log (lg : list Obs) (t : AsyncTask) :
  started (lg ++ Started t :: effect_obs t) = started lg ++ [t] /\
  called (lg ++ Started t :: effect_obs t) = called lg /\
  emissions (lg ++ Started t :: effect_obs t) = emissions lg.
Proof.
  rewrite started_app, called_app, emissions_app.
  destruct t; simpl; rewrite ?app_nil_r; auto.
Qed.

(** A started task whose continuation is now pending. *)
Lemma ParInv_started fs lg t u mq wq mq' wq' :
  fs = started lg ++ t :: u ->
  Permutation (called lg ++ mq ++ wq) (map result_of (started lg)) ->
  Forall (fun r => is_error (event_type r) = false) (mq ++ wq) ->
  emissions lg
  = map event_of (called lg)
    ++ aggregate (List.length (called lg)) (List.length fs) ->
  is_error (event_type (result_of t)) = false ->
  Permutation (mq' ++ wq') (result_of t :: mq ++ wq) ->
  ParInv fs
    {| it := skipn (S (List.length (called lg))) fs; listeners := [];
       microtasks := map JFunc u ++ map (JCall ParallelCallback) mq';
       waiting := map (pair ParallelCallback) wq';
       log := lg ++ Started t :: effect_obs t; crashed := false |}.
Proof.
  intros Hfs Hp Hq He Hr Hp'.
  destruct (start_log lg t) as (S1 & S2 & S3).
  pose proof (ParInv_counts fs lg (t :: u) mq wq Hfs Hp) as Hc.
  simpl in Hc.
  eapply ParInv_intro with (unstarted := u) (mq := mq') (wq := wq').
  - rewrite S2. reflexivity.
  - reflexivity.
  - reflexivity.
  - rewrite S1, <- app_assoc. exact Hfs.
  - rewrite S1, S2, map_app. simpl.
    rewrite Hp'. rewrite <- Hp.
    rewrite <- Permutation_middle. apply Permutation_cons_append.
  - eapply Permutation_Forall; [symmetry; exact Hp'|].
    constructor; assumption.
  - rewrite S2, S3. exact He.
  - rewrite S2. intro. lia.
Qed.

(** A continuation, taken from the pending ones, has been called. *)
Lemma ParInv_called fs lg r u mq wq i mt w lg' :
  fs = started lg ++ u ->
  Permutation (called lg ++ r :: mq ++ wq) (map result_of (started lg)) ->
  Forall (fun r => is_error (event_type r) = false) (mq ++ wq) ->
  emissions lg
  = map event_of (called lg)
    ++ aggregate (List.length (called lg)) (List.length fs) ->
  i = tl (skipn (S (List.length (called lg))) fs) ->
  mt = map JFunc u ++ map (JCall ParallelCallback) mq ->
  w = map (pair ParallelCallback) wq ->
  lg' = lg ++ Called r :: Emit (event_type r) (event_args r)
        :: match skipn (S (List.length (called lg))) fs with
           | [] => [Emit (VSym END_EVENT) []]
           | _ :: _ => []
           end ->
  ParInv fs
    {| it := i; listeners := [];
       microtasks := mt; waiting := w; log := lg'; crashed := false |}.
Proof.
  intros Hfs Hp Hq He -> Hmt Hw Hlg.
  assert (Hc : List.length (called lg) < List.length fs).
  { apply Permutation_length in Hp. rewrite Hfs.
    rewrite !length_app in *. simpl in Hp. rewrite length_map in Hp. lia. }
  destruct (callback_log fs lg r Hc He lg' Hlg) as (C1 & C2 & C3 & C4).
  eapply ParInv_intro with (unstarted := u) (mq := mq) (wq := wq);
    try assumption.
  - rewrite tl_skipn, C2, length_app. simpl. rewrite Nat.add_1_r. reflexivity.
  - rewrite C1. exact Hfs.
  - rewrite C1, C2, <- Hp, <- app_assoc. simpl. reflexivity.
Qed.

Lemma ParInv_step (fs : list AsyncTask) (c : Choice) (m m' : Machine) :
  Forall calls_once fs -> Forall quiet fs ->
  ParInv fs m -> step c m = Some m' -> ParInv fs m'.
Proof.
  intros Ho Hqu Inv. destruct Inv as [lg unstarted mq wq Hfs Hp Hq He Hl].
  destruct c as [accepted|k].
  - destruct unstarted as [|t u].
    + destruct mq as [|r mq]; [discriminate|].
      unfold step. cbn [crashed microtasks map app]. intro H.
      injection H as <-. unfold run_job, invoke.
      rewrite parallel_callback_eq by exact (Forall_inv Hq).
      cbn [settle].
      eapply ParInv_called with (u := []) (mq := mq) (wq := wq) (r := r);
        try eassumption; try reflexivity.
      exact (Forall_inv_tail Hq).
    + assert (Tin : In t fs) by (rewrite Hfs; apply in_or_app; right; left;
                                 reflexivity).
      pose proof (proj1 (Forall_forall _ _) Ho t Tin) as Ht1.
      pose proof (proj1 (Forall_forall _ _) Hqu t Tin) as Ht2.
      unfold step. cbn [crashed microtasks map app]. intro H.
      injection H as <-. unfold run_job.
      destruct t as [file data|file|calls].
      * unfold call_task, HttpFile_write, bind, observe.
        cbn [it listeners microtasks waiting log crashed].
        destruct accepted; cbn [negb]; unfold queueMicrotask, wait_for;
          cbn [it listeners microtasks waiting log crashed settle];
          rewrite <- app_assoc.
        -- rewrite <- app_assoc.
           change [JCall ParallelCallback []]
             with (map (JCall ParallelCallback) [[]]).
           rewrite <- map_app.
           apply (ParInv_started fs lg (FileWrite file data) u mq wq
                    (mq ++ [[]]) wq); try assumption; try reflexivity.
           rewrite <- app_assoc. simpl.
           symmetry. apply Permutation_middle.
        -- change [(ParallelCallback, @nil Value)]
             with (map (pair ParallelCallback) [@nil Value]).
           rewrite <- map_app.
           apply (ParInv_started fs lg (FileWrite file data) u mq wq
                    mq (wq ++ [[]])); try assumption; try reflexivity.
           rewrite app_assoc. symmetry. apply Permutation_cons_append.
      * unfold call_task, HttpFile_close, bind, observe, wait_for.
        cbn [it listeners microtasks waiting log crashed settle].
        rewrite <- app_assoc.
        change [(ParallelCallback, @nil Value)]
          with (map (pair ParallelCallback) [@nil Value]).
        rewrite <- map_app.
        apply (ParInv_started fs lg (FileClose file) u mq wq
                 mq (wq ++ [[]])); try assumption; try reflexivity.
        rewrite app_assoc. symmetry. apply Permutation_cons_append.
      * destruct (calls_once_generic _ Ht1) as [w [r ->]].
        assert (Hr : is_error (event_type r) = false)
          by (exact (Forall_inv Ht2)).
        destruct w; unfold call_task; cbn [generic_calls];
          unfold bind, observe, invoke;
          cbn [it listeners microtasks waiting log crashed].
        -- unfold bind. rewrite parallel_callback_eq by exact Hr.
           cbn [ret settle].
           destruct (start_log lg (Generic [(Sync, r)])) as (S1 & S2 & S3).
           cbn [effect_obs] in S1, S2, S3.
           eapply ParInv_called
             with (lg := lg ++ [Started (Generic [(Sync, r)])])
                  (u := u) (mq := mq) (wq := wq) (r := r);
             try reflexivity; try (rewrite S2; reflexivity); try assumption.
           ++ rewrite S1, <- app_assoc. exact Hfs.
           ++ rewrite S1, S2, map_app. simpl. rewrite <- Hp.
              rewrite <- Permutation_middle. apply Permutation_cons_append.
           ++ rewrite S2, S3. exact He.
        -- unfold bind, queueMicrotask, ret.
           cbn [it listeners microtasks waiting log crashed settle].
           rewrite <- app_assoc.
           change [JCall ParallelCallback r]
             with (map (JCall ParallelCallback) [r]).
           rewrite <- map_app.
           apply (ParInv_started fs lg (Generic [(Queued, r)]) u mq wq
                    (mq ++ [r]) wq); try assumption; try reflexivity.
           rewrite <- app_assoc. simpl. symmetry. apply Permutation_middle.
        -- unfold bind, wait_for, ret.
           cbn [it listeners microtasks waiting log crashed settle].
           change [(ParallelCallback, r)]
             with (map (pair ParallelCallback) [r]).
           rewrite <- map_app.
           apply (ParInv_started fs lg (Generic [(External, r)]) u mq wq
                    mq (wq ++ [r])); try assumption; try reflexivity.
           rewrite app_assoc. symmetry. apply Permutation_cons_append.
  - unfold step. cbn [crashed waiting].
    destruct (nth_error (map (pair ParallelCallback) wq) k)
      as [[cb r]|] eqn:E; [|discriminate].
    intro H. injection H as <-.
    rewrite nth_error_map in E.
    destruct (nth_error wq k) as [r'|] eqn:E'; [|discriminate].
    injection E as <- <-.
    pose proof (perm_remove_nth k wq r' E') as Pw.
    assert (Hr : is_error (event_type r') = false).
    { apply (proj1 (Forall_forall _ _) Hq). apply in_or_app. right.
      eapply nth_error_In. exact E'. }
    unfold invoke. rewrite parallel_callback_eq by exact Hr.
    cbn [settle]. rewrite remove_nth_map.
    eapply ParInv_called with (u := unstarted) (mq := mq)
                              (wq := remove_nth k wq) (r := r');
      try reflexivity; try assumption.
    + rewrite <- Hp. apply Permutation_app_head.
      rewrite Permutation_middle. apply Permutation_app_head. exact Pw.
    + apply Forall_app. split.
      * apply Forall_app in Hq. exact (proj1 Hq).
      * apply Forall_app in Hq. destruct Hq as [_ Hq].
        eapply Permutation_Forall in Hq; [|symmetry; exact Pw].
        exact (Forall_inv_tail Hq).
Qed.

Lemma ParInv_start (t : AsyncTask) (fs : list AsyncTask) :
  ParInv (t :: fs) (asyncParallel (t :: fs)).
Proof.
  rewrite asyncParallel_eq.
  apply ParInv_intro with (unstarted := t :: fs) (mq := []) (wq := []).
  - reflexivity.
  - reflexivity.
  - reflexivity.
  - reflexivity.
  - apply perm_nil.
  - apply Forall_nil.
  - reflexivity.
  - simpl. intro. discriminate.
Qed.

Lemma ParInv_moment (fs : list AsyncTask) (m : Machine) :
  ParInv fs m ->
  (exists later, fs = started (log m) ++ later) /\
  (exists pending,
     Permutation (called (log m) ++ pending)
       (map result_of (started (log m)))) /\
  (exists tail,
     emissions (log m) = map event_of (called (log m)) ++ tail /\
     (tail = [] \/
      (tail = [END] /\ List.length (called (log m)) = List.length fs))).
Proof.
  intros [lg unstarted mq wq Hfs Hp Hq He Hl]. cbn [log].
  split; [exists unstarted; exact Hfs|].
  split; [exists (mq ++ wq); exact Hp|].
  exists (aggregate (List.length (called lg)) (List.length fs)).
  split; [exact He|]. unfold aggregate.
  destruct (Nat.eqb_spec (List.length (called lg)) (List.length fs));
    [right; split; [reflexivity|assumption]|left; reflexivity].
Qed.

Lemma ParInv_rest (fs : list AsyncTask) (m : Machine) :
  ParInv fs m -> quiescent m ->
  started (log m) = fs /\
  Permutation (called (log m)) (map result_of fs) /\
  emissions (log m) = map event_of (called (log m)) ++ [END] /\
  exists body, log m = body ++ [Emit (VSym END_EVENT) []].
Proof.
  intros [lg unstarted mq wq Hfs Hp Hq He Hl] [Q|[Qm Qw]];
    [discriminate|]. cbn [log microtasks waiting] in *.
  apply app_eq_nil in Qm. destruct Qm as [Qu Qq].
  apply map_eq_nil in Qu, Qq, Qw. subst unstarted mq wq.
  rewrite app_nil_r in Hfs. simpl in Hp. rewrite app_nil_r in Hp.
  assert (N : List.length (called lg) = List.length fs).
  { apply Permutation_length in Hp. rewrite length_map in Hp.
    rewrite Hfs. exact Hp. }
  rewrite <- Hfs in Hp.
  split; [symmetry; exact Hfs|]. split; [exact Hp|]. split; [|exact (Hl N)].
  rewrite He. unfold aggregate. rewrite N, Nat.eqb_refl. reflexivity.
Qed.

(** The machines of [asyncParallel([])], whoever listens. *)
Lemma parallel_empty_step (ls : list (Key * nat)) (c : Choice)
    (m m' : Machine) :
  (m = {| it := []; listeners := ls;
          microtasks := [JEmit (VSym END_EVENT)]; waiting := [];
          log := []; crashed := false |} \/
   m = {| it := []; listeners := deaf ls (VSym END_EVENT);
          microtasks := []; waiting := [];
          log := heard ls (VSym END_EVENT) []; crashed := false |}) ->
  step c m = Some m' ->
  (m' = {| it := []; listeners := ls;
           microtasks := [JEmit (VSym END_EVENT)]; waiting := [];
           log := []; crashed := false |} \/
   m' = {| it := []; listeners := deaf ls (VSym END_EVENT);
           microtasks := []; waiting := [];
           log := heard ls (VSym END_EVENT) []; crashed := false |}).
Proof.
  intros [-> | ->] H.
  - destruct c as [accepted|k]; [|destruct k; discriminate].
    injection H as <-. right. reflexivity.
  - destruct c as [accepted|k]; [discriminate|destruct k; discriminate].
Qed.

Lemma parallel_empty_reach (ls : list (Key * nat)) (m : Machine) :
  reachable {| it := []; listeners := ls;
               microtasks := [JEmit (VSym END_EVENT)]; waiting := [];
               log := []; crashed := false |} m ->
  m = {| it := []; listeners := ls;
         microtasks := [JEmit (VSym END_EVENT)]; waiting := [];
         log := []; crashed := false |} \/
  m = {| it := []; listeners := deaf ls (VSym END_EVENT);
         microtasks := []; waiting := [];
         log := heard ls (VSym END_EVENT) []; crashed := false |}.
Proof.
  intros [schedule <-].
  apply (run_preserves
           (fun m =>
              m = {| it := []; listeners := ls;
                     microtasks := [JEmit (VSym END_EVENT)]; waiting := [];
                     log := []; crashed := false |} \/
              m = {| it := []; listeners := deaf ls (VSym END_EVENT);
                     microtasks := []; waiting := [];
                     log := heard ls (VSym END_EVENT) [];
                     crashed := false |})).
  - intros c m0 m1. apply parallel_empty_step.
  - left. reflexivity.
Qed.

Lemma emitted_emissions (s : Symbol) (l : list Obs) :
  emitted s l = List.length (filter (is_event_of s) (emissions l)).
Proof.
  unfold emitted. induction l as [|o l IH]; [reflexivity|].
  destruct o as [t|f d|f|r|type args|k a]; simpl; try exact IH.
  unfold is_event_of. simpl.
  destruct type as [| | | |s']; simpl; try exact IH.
  destruct (Symbol_eqb s s'); simpl; rewrite IH; reflexivity.
Qed.

Lemma Symbol_eqb_eq (a b : Symbol) : Symbol_eqb a b = true -> a = b.
Proof.
  destruct a, b; simpl; try discriminate; try reflexivity.
  intro H. apply Nat.eqb_eq in H. subst. reflexivity.
Qed.

Lemma no_event_of (s : Symbol) (rs : list (list Value)) :
  Forall (fun r => event_type r <> VSym s) rs ->
  filter (is_event_of s) (map event_of rs) = [].
Proof.
  induction 1 as [|r rs Hr _ IH]; [reflexivity|].
  simpl. rewrite IH. unfold is_event_of, event_of. simpl.
  destruct (event_type r) as [| | | |s'] eqn:E; try reflexivity.
  destruct (Symbol_eqb s s') eqn:Q; [|reflexivity].
  apply Symbol_eqb_eq in Q. subst. exfalso. apply Hr. reflexivity.
Qed.

End Parallel.

Lemma reachable_ParInv (fs : list AsyncTask) (m : Machine) :
  Forall calls_once fs -> Forall quiet fs -> fs <> [] ->
  reachable (asyncParallel fs) m -> ParInv fs m.
Proof.
  intros Ho Hq Hn [schedule <-].
  apply run_preserves.
  - intros c m0 m1. apply ParInv_step; assumption.
  - destruct fs as [|t fs]; [contradiction|]. apply ParInv_start.
Qed.

(** C5.  The continuation that asyncParallel gives to a task emits with
    the results of the task as its arguments, so that the first result is
    the name of the event, where async.mjs documents one event of its own
    for a finished task (DONE_EVENT) and END_EVENT once all tasks are
    done.  It is therefore not true that every list of tasks that call
    their continuation once ends with exactly one emission of END_EVENT.
    At the list of a task that passes 'error' as its first result,
    followed by task B, the emission of 'error' throws because nobody
    listens for it, and END_EVENT is never emitted although the
    continuation of the task was called.  At a task that passes
    END_EVENT, END_EVENT is emitted twice, the first time before task B
    has finished. *)
Lemma asyncParallel_result_names_can_break_the_aggregate :
  ~ (forall fs, Forall calls_once fs ->
       forall m, reachable (asyncParallel fs) m -> quiescent m ->
                 emitted END_EVENT (log m) = 1%nat) /\
  log (drain 9 (asyncParallel [task_error; task_B]))
  = [Started task_error; Called [VStr "error"]] /\
  log (drain 9 (asyncParallel [task_end; task_B]))
  = [ Started task_end; Called [VSym END_EVENT]; Emit (VSym END_EVENT) [];
      Started task_B; Called [VStr "B"]; Emit (VStr "B") [];
      Emit (VSym END_EVENT) [] ].
Proof.
  split; [|split; reflexivity].
  intro H.
  specialize (H [task_error; task_B]).
  assert (O : Forall calls_once [task_error; task_B])
    by (repeat constructor).
  specialize (H O (drain 9 (asyncParallel [task_error; task_B]))
                (drain_reachable 9 _)).
  assert (Q : quiescent (drain 9 (asyncParallel [task_error; task_B])))
    by (left; reflexivity).
  specialize (H Q). vm_compute in H. discriminate.
Qed.

(** X27.  asyncParallel calls no task itself: it queues one
    microtask per task, in submission order (and, for the empty list, the
    microtask that emits END_EVENT).  For tasks that do not throw, call
    their continuation exactly once, at once or later, and do not name the
    event 'error' (which an emitter without listener for it throws), at
    every moment the started tasks
    are the first of the list, the continuations called so far are among
    the results of the started tasks, and the emissions are those of the
    continuations called, in the order of the calls, followed by END_EVENT
    only if as many continuations were called as there are tasks.  A run
    that comes to rest has started every task, has called the continuation
    of each (in some order), has emitted their events in that order and
    then END_EVENT, which is the last entry of the log; the runtime can
    always come to rest; and when no task passes END_EVENT as its first
    result, END_EVENT has been emitted exactly once. *)
Theorem asyncParallel_completes_in_finishing_order (fs : list AsyncTask)
    (Honce : Forall calls_once fs) (Hquiet : Forall quiet fs) :
  log (asyncParallel fs) = [] /\
  microtasks (asyncParallel fs)
  = map JFunc fs ++ match fs with
                    | [] => [JEmit (VSym END_EVENT)]
                    | _ :: _ => []
                    end /\
  (forall m, reachable (asyncParallel fs) m ->
     (exists later, fs = started (log m) ++ later) /\
     (exists pending,
        Permutation (called (log m) ++ pending)
          (map result_of (started (log m)))) /\
     (exists tail,
        emissions (log m) = map event_of (called (log m)) ++ tail /\
        (tail = [] \/
         (tail = [END] /\
          List.length (called (log m)) = List.length fs)))) /\
  (forall m, reachable (asyncParallel fs) m -> quiescent m ->
     started (log m) = fs /\
     Permutation (called (log m)) (map result_of fs) /\
     emissions (log m) = map event_of (called (log m)) ++ [END] /\
     (exists body, log m = body ++ [Emit (VSym END_EVENT) []]) /\
     (Forall (fun t => event_type (result_of t) <> VSym END_EVENT) fs ->
      emitted END_EVENT (log m) = 1%nat)) /\
  (exists schedule, quiescent (run schedule (asyncParallel fs))).
Proof.
  split; [rewrite asyncParallel_eq; reflexivity|].
  split; [rewrite asyncParallel_eq; reflexivity|].
  split; [|split; [|apply rest_exists]].
  - intros m R. destruct fs as [|t fs].
    + rewrite asyncParallel_eq in R.
      destruct (parallel_empty_reach [] m R) as [-> | ->]; cbn [log].
      * split; [exists []; reflexivity|].
        split; [exists []; constructor|].
        exists []. split; [reflexivity|left; reflexivity].
      * split; [exists []; reflexivity|].
        split; [exists []; constructor|].
        exists [END]. split; [reflexivity|right; split; reflexivity].
    + apply ParInv_moment. apply reachable_ParInv; try assumption.
      discriminate.
  - intros m R Q.
    assert (H : started (log m) = fs /\
                Permutation (called (log m)) (map result_of fs) /\
                emissions (log m) = map event_of (called (log m)) ++ [END] /\
                exists body, log m = body ++ [Emit (VSym END_EVENT) []]).
    { destruct fs as [|t fs].
      - rewrite asyncParallel_eq in R.
        destruct (parallel_empty_reach [] m R) as [-> | ->].
        + destruct Q as [Q|[Q _]]; discriminate.
        + cbn [log]. repeat split; try constructor.
          exists []. reflexivity.
      - apply ParInv_rest; [|exact Q].
        apply reachable_ParInv; try assumption. discriminate. }
    destruct H as (H1 & H2 & H3 & H4).
    repeat split; try assumption.
    intro Hno. rewrite emitted_emissions, H3, filter_app.
    rewrite no_event_of; [reflexivity|].
    eapply Permutation_Forall; [symmetry; exact H2|].
    apply Forall_map. exact Hno.
Qed.

Lemma asyncParallel_completes_in_finishing_order_witness :
  emissions (log (drain 9 (asyncParallel [late_A; task_B])))
  = [(VStr "B", []); (VStr "A", []); END].
Proof.
  destruct (asyncParallel_completes_in_finishing_order [late_A; task_B])
    as (_ & _ & _ & H & _).
  - repeat constructor.
  - repeat constructor.
  - destruct (H (drain 9 (asyncParallel [late_A; task_B])))
      as (_ & _ & E & _).
    + apply drain_reachable.
    + right. split; reflexivity.
    + rewrite E. reflexivity.
Defined.

(* ================================================================== *)
(** ** The empty body                                                 *)
(* ================================================================== *)

Lemma compare_terminal (b : Buffer) :
  Buf.compare SEP (b ++ SEP) (0 + blen b) (0 + blen b + blen SEP) = Ok 0.
Proof.
  unfold Buf.compare.
  assert (L : 0 <= blen b) by (unfold blen; lia).
  replace (0 + blen b <? 0) with false by (symmetry; apply Z.ltb_ge; lia).
  replace (0 + blen b + blen SEP <? 0) with false
    by (symmetry; apply Z.ltb_ge; unfold blen; lia).
  replace (blen (b ++ SEP) <? 0 + blen b + blen SEP) with false
    by (symmetry; apply Z.ltb_ge; unfold blen; rewrite length_app; lia).
  simpl orb. cbv iota.
  replace (Z.to_nat (0 + blen b + blen SEP - (0 + blen b))) with 2%nat
    by (unfold blen; simpl; lia).
  replace (Z.to_nat (0 + blen b)) with (List.length b)
    by (unfold blen; lia).
  rewrite skipn_app, skipn_all, Nat.sub_diag. reflexivity.
Qed.

Lemma write_scan_terminal (b : Buffer) (fuel : nat) :
  write_scan (S fuel) (fresh_form b) (b ++ SEP) = Some (Ok (fresh_form b, [])).
Proof.
  unfold write_scan. cbn [boundary fresh_form]. rewrite indexOf_prefix.
  cbn [write_loop]. change (0 =? -1) with false. cbv iota.
  unfold write_body. cbn [files fresh_form List.length Z.of_nat boundary].
  change (0 <? 0) with false. cbv iota.
  rewrite compare_terminal. change (0 =? 0) with true. cbv iota.
  cbn [scan_end scan_form scan_queue]. rewrite Z.ltb_irrefl. reflexivity.
Qed.

(** C6: for every boundary, the body that is the boundary followed by the
    terminal marker, given as one chunk to a form without Parts, makes
    [_write] return with no Part and an empty queue; in every run that
    comes to rest nothing but the emission of END_EVENT and the call of the
    chunk's callback has happened, so no sink was written; and [_final]
    likewise only emits END_EVENT and calls its callback.  Both runs can
    come to rest. *)
Theorem empty_body_decodes_to_no_part (b : Buffer) (fuel cb1 cb2 : nat) :
  HttpForm_write (S fuel) (fresh_form b) (b ++ SEP) cb1
  = Some (Ok (fresh_form b, once (VSym END_EVENT) cb1 (asyncQueue []))) /\
  files (fresh_form b) = [] /\
  (forall m, reachable (once (VSym END_EVENT) cb1 (asyncQueue [])) m ->
     quiescent m -> log m = [Emit (VSym END_EVENT) []; Heard cb1 []]) /\
  (exists schedule,
     quiescent (run schedule (once (VSym END_EVENT) cb1 (asyncQueue [])))) /\
  (forall m, reachable (HttpForm_final (fresh_form b) cb2) m ->
     quiescent m -> log m = [Emit (VSym END_EVENT) []; Heard cb2 []]) /\
  (exists schedule,
     quiescent (run schedule (HttpForm_final (fresh_form b) cb2))).
Proof.
  split; [|split; [|split; [|split; [|split]]]].
  - unfold HttpForm_write. rewrite write_scan_terminal. reflexivity.
  - reflexivity.
  - intros m R Q.
    apply (QueueInv_rest _ _ (write_queue_inv [] [] cb1 (Forall_nil _) m R) Q).
  - apply rest_exists.
  - intros m R Q.
    destruct (parallel_empty_reach [(KSym END_EVENT, cb2)] m R) as [P|P];
      rewrite P in *.
    + destruct Q as [Q|[Q _]]; discriminate.
    + reflexivity.
  - apply rest_exists.
Qed.

(* ================================================================== *)
(** ** The loop of _write                                             *)
(* ================================================================== *)


Lemma cut_chunk_pass (form : HttpForm) (queue : list AsyncTask) (end0 : Z) :
  boundary form = Buffer_from "--B" ->
  exists form' queue',
    write_body cut_chunk form queue 1 end0 = Continue form' queue' 1 1 /\
    boundary form' = Buffer_from "--B".
Proof.
  intro B. unfold write_body. rewrite B.
  assert (Q : exists queue1,
    (if (0 <? Z.of_nat (List.length (files form)))
     then match bind_write form (Buf.subarray cut_chunk end0 1) with
          | Ok t => Ok (queue ++ [t])
          | Throw e => Throw e
          end
     else Ok queue) = Ok queue1).
  { destruct (0 <? Z.of_nat (List.length (files form))) eqn:L.
    - assert (N : files form <> []) by (intro E; rewrite E in L; discriminate).
      destruct (lastFile_some form N) as [f F]. unfold bind_write.
      rewrite F. eexists. reflexivity.
    - eexists. reflexivity. }
  destruct Q as [queue1 ->].
  exists (push_file form (js "a") (js "t/p")), queue1.
  split; [|exact B].
  assert (C : Buf.compare SEP cut_chunk (1 + blen (Buffer_from "--B"))
                 (1 + blen (Buffer_from "--B") + blen SEP) = Ok 1)
    by (vm_compute; reflexivity).
  rewrite C. change (1 =? 0) with false. cbv iota.
  assert (N : HttpForm_NEW_FILE_METHOD form cut_chunk
                (1 + blen (Buffer_from "--B") + blen EOL)
              = Ok (push_file form (js "a") (js "t/p"), 1)).
  { unfold HttpForm_NEW_FILE_METHOD.
    change (SplitGen_next
              (splitBuffer cut_chunk EOL
                 (1 + blen (Buffer_from "--B") + blen EOL)))
      with (Some {| buf := cut_chunk; start := 6; end_ := 18 |},
            splitBuffer cut_chunk EOL 20).
    change (SplitGen_next (splitBuffer cut_chunk EOL 20))
      with (Some {| buf := cut_chunk; start := 20; end_ := 23 |},
            splitBuffer cut_chunk EOL 25).
    change (SplitGen_next (splitBuffer cut_chunk EOL 25))
      with (Some {| buf := cut_chunk; start := 25; end_ := -1 |},
            {| gen_buf := cut_chunk; gen_sep := EOL;
               gen_state := Finished |}).
    reflexivity. }
  rewrite N.
  change (boundary (push_file form (js "a") (js "t/p"))) with (boundary form).
  rewrite B. reflexivity.
Qed.

(** On such a chunk the loop of [_write] never ends: the third header view
    is the final one, whose end is -1, so the cursor goes back to 1 and the
    same boundary is found again, with one more file each time. *)
Lemma write_loop_can_run_forever (fuel : nat) (form : HttpForm) :
  boundary form = Buffer_from "--B" ->
  write_scan fuel form cut_chunk = None.
Proof.
  intro B. unfold write_scan. rewrite B.
  change (Buf.indexOf cut_chunk (Buffer_from "--B") 0) with 1.
  assert (L : forall fuel form queue end0,
            boundary form = Buffer_from "--B" ->
            write_loop fuel cut_chunk form queue 1 end0 = None).
  { clear. induction fuel as [|fuel IH]; intros form queue end0 B.
    - reflexivity.
    - cbn [write_loop]. change (1 =? -1) with false. cbv iota.
      destruct (cut_chunk_pass form queue end0 B) as (form' & queue' & P & B').
      rewrite P. apply IH. exact B'. }
  rewrite (L fuel form [] 0 B). reflexivity.
Qed.

(* ================================================================== *)
(** ** Arbitrary tasks                                              *)
(* ================================================================== *)

Section Traces.

Variable fs : list AsyncTask.

Lemma Ext_app ls l1 ls1 l2 ls2 b :
  Ext fs ls l1 ls1 false -> Ext fs ls1 l2 ls2 b ->
  Ext fs ls (l1 ++ l2) ls2 b.
Proof.
  intro H. remember false as b0 eqn:B. revert B l2 ls2 b.
  induction H as [ls | ls t l ls' b0 Ht H IH | ls f d l ls' b0 H IH
                 | ls f l ls' b0 H IH | ls r l ls' b0 Hr Hn H IH
                 | ls r Hr Hn | ls l ls' b0 H IH];
    intros B l2 ls2 b H2; simpl.
  - exact H2.
  - apply Ext_start; auto.
  - apply Ext_wrote; auto.
  - apply Ext_closing; auto.
  - rewrite <- app_assoc.
    change (Called r :: Emit (event_type r) (event_args r)
            :: map (fun l0 => Heard (snd l0) (event_args r))
                 (filter (hears (to_key (event_type r))) ls) ++ l ++ l2)
      with (Called r :: heard ls (event_type r) (event_args r) ++ l ++ l2).
    apply Ext_call; auto.
  - discriminate.
  - rewrite <- app_assoc.
    change (Emit (VSym END_EVENT) []
            :: map (fun l0 => Heard (snd l0) [])
                 (filter (hears (to_key (VSym END_EVENT))) ls) ++ l ++ l2)
      with (heard ls (VSym END_EVENT) [] ++ l ++ l2).
    apply Ext_end; auto.
Qed.

Lemma traces_ret {A} (a : A) : traces fs (ret a).
Proof.
  intros m S. simpl. split; [exact S|]. split; [reflexivity|].
  exists []. rewrite app_nil_r. split; [reflexivity|apply Ext_nil].
Qed.

Lemma traces_bind {A B} (c : M A) (k : A -> M B) :
  traces fs c -> (forall a, traces fs (k a)) -> traces fs (bind c k).
Proof.
  intros Hc Hk m S. unfold bind. specialize (Hc m S).
  destruct (c m) as [a m1|m1].
  - destruct Hc as (S1 & C1 & ext1 & L1 & E1).
    specialize (Hk a m1 S1).
    destruct (k a m1) as [b m2|m2];
      destruct Hk as (S2 & C2 & ext2 & L2 & E2);
      (split; [exact S2|]); (split; [congruence|]);
      exists (ext1 ++ ext2); (split; [rewrite L2, L1, app_assoc; reflexivity|]);
      eapply Ext_app; eassumption.
  - exact Hc.
Qed.

Lemma traces_started (t : AsyncTask) :
  In t fs -> traces fs (observe [Started t]).
Proof.
  intros Ht m S. simpl. split; [exact S|]. split; [reflexivity|].
  exists [Started t]. split; [reflexivity|]. apply Ext_start; [exact Ht|].
  apply Ext_nil.
Qed.

Lemma traces_wrote (file : nat) (data : Buffer) :
  traces fs (observe [Wrote file data]).
Proof.
  intros m S. simpl. split; [exact S|]. split; [reflexivity|].
  exists [Wrote file data]. split; [reflexivity|]. apply Ext_wrote, Ext_nil.
Qed.

Lemma traces_closing (file : nat) : traces fs (observe [Closing file]).
Proof.
  intros m S. simpl. split; [exact S|]. split; [reflexivity|].
  exists [Closing file]. split; [reflexivity|]. apply Ext_closing, Ext_nil.
Qed.

Lemma traces_queueMicrotask (j : Job) :
  job_from fs j -> traces fs (queueMicrotask j).
Proof.
  intros Hj m (S1 & S2 & S3). simpl.
  split; [|split; [reflexivity|]].
  - split; [exact S1|]. split; [|exact S3].
    apply Forall_app. split; [exact S2|]. constructor; [exact Hj|constructor].
  - exists []. rewrite app_nil_r. split; [reflexivity|apply Ext_nil].
Qed.

Lemma traces_wait_for (cb : Callback) (r : list Value) :
  from fs r -> traces fs (wait_for cb r).
Proof.
  intros Hr m (S1 & S2 & S3). simpl.
  split; [|split; [reflexivity|]].
  - split; [exact S1|]. split; [exact S2|].
    apply Forall_app. split; [exact S3|]. constructor; [exact Hr|constructor].
  - exists []. rewrite app_nil_r. split; [reflexivity|apply Ext_nil].
Qed.

Lemma incl_tl_it (a : AsyncTask) (l : list AsyncTask) :
  incl (a :: l) fs -> In a fs /\ incl l fs.
Proof.
  intro H. split.
  - apply H. left. reflexivity.
  - intros x Hx. apply H. right. exact Hx.
Qed.

Lemma traces_emit_end : traces fs (emit (VSym END_EVENT) [] ;; ret tt).
Proof.
  intros m S. unfold bind, emit. simpl.
  split; [exact S|]. split; [reflexivity|].
  exists (heard (listeners m) (VSym END_EVENT) []).
  split; [reflexivity|].
  rewrite <- (app_nil_r (heard (listeners m) (VSym END_EVENT) [])).
  apply Ext_end, Ext_nil.
Qed.

Lemma job_from_next (i : list AsyncTask) :
  incl i fs -> job_from fs (JTask (hd_error i)) /\ incl (tl i) fs.
Proof.
  destruct i as [|t i]; intro H; simpl.
  - split; [exact I|exact H].
  - apply incl_tl_it in H. exact H.
Qed.

Lemma traces_queue_callback (r : list Value) :
  from fs r -> traces fs (queue_callback r).
Proof.
  intros Hr [i ls mt w lg cr] (S1 & S2 & S3).
  unfold queue_callback, bind, observe. rewrite emit_apply_emit.
  unfold emit. cbn [it listeners microtasks waiting log crashed] in *.
  fold (raises ls (event_type r)).
  destruct (raises ls (event_type r)) eqn:R.
  - split; [repeat split; assumption|]. split; [reflexivity|].
    exists [Called r]. split; [reflexivity|].
    apply Ext_throw; assumption.
  - rewrite factory_eq.
    destruct (job_from_next i S1) as [J1 J2].
    split; [|split; [reflexivity|]].
    + split; [exact J2|]. split; [|exact S3].
      apply Forall_app. split; [exact S2|].
      constructor; [exact J1|constructor].
    + exists (Called r :: heard ls (event_type r) (event_args r) ++ []).
      cbn [log listeners]. split.
      * rewrite app_nil_r, <- app_assoc. reflexivity.
      * apply Ext_call; [exact Hr|exact R|apply Ext_nil].
Qed.

Lemma traces_parallel_callback (r : list Value) :
  from fs r -> traces fs (parallel_callback r).
Proof.
  intros Hr [i ls mt w lg cr] (S1 & S2 & S3).
  unfold parallel_callback, bind, observe. rewrite emit_apply_emit.
  unfold emit at 1. cbn [it listeners microtasks waiting log crashed] in *.
  fold (raises ls (event_type r)).
  destruct (raises ls (event_type r)) eqn:R.
  - split; [repeat split; assumption|]. split; [reflexivity|].
    exists [Called r]. split; [reflexivity|].
    apply Ext_throw; assumption.
  - unfold it_next. cbn [it listeners microtasks waiting log crashed].
    destruct i as [|t i].
    + unfold emit, ret. cbn [it listeners microtasks waiting log crashed].
      cbn [is_error andb].
      split; [repeat split; assumption|]. split; [reflexivity|].
      exists (Called r :: heard ls (event_type r) (event_args r)
              ++ heard (deaf ls (event_type r)) (VSym END_EVENT) [] ++ []).
      split.
      * rewrite app_nil_r, <- !app_assoc. reflexivity.
      * apply Ext_call; [exact Hr|exact R|]. apply Ext_end, Ext_nil.
    + unfold ret. apply incl_tl_it in S1.
      split; [repeat split; try assumption; exact (proj2 S1)|].
      split; [reflexivity|].
      exists (Called r :: heard ls (event_type r) (event_args r) ++ []).
      cbn [log listeners]. split.
      * rewrite app_nil_r, <- app_assoc. reflexivity.
      * apply Ext_call; [exact Hr|exact R|apply Ext_nil].
Qed.

Lemma traces_invoke (cb : Callback) (r : list Value) :
  from fs r -> traces fs (invoke cb r).
Proof.
  intro Hr. destruct cb; simpl.
  - apply traces_queue_callback. exact Hr.
  - apply traces_parallel_callback. exact Hr.
Qed.

Lemma traces_generic_calls (cb : Callback)
    (calls : list (When * list Value)) :
  Forall (fun c => from fs (snd c)) calls ->
  traces fs (generic_calls cb calls).
Proof.
  induction 1 as [|[w r] calls Hr _ IH]; simpl generic_calls.
  - apply traces_ret.
  - simpl in Hr. destruct w; apply traces_bind; try (intros _; exact IH).
    + apply traces_invoke. exact Hr.
    + apply traces_queueMicrotask. exact Hr.
    + apply traces_wait_for. exact Hr.
Qed.

Lemma traces_call_task (t : AsyncTask) (accepted : bool) (cb : Callback) :
  In t fs -> traces fs (call_task t accepted cb).
Proof.
  intro Ht. unfold call_task.
  apply traces_bind; [apply traces_started; exact Ht|]. intros _.
  assert (F : forall r, In r (calls_of t) -> from fs r)
    by (intros r Hr; exists t; split; assumption).
  destruct t as [file data|file|calls].
  - unfold HttpFile_write.
    apply traces_bind; [apply traces_wrote|]. intros _.
    destruct (negb accepted).
    + apply traces_wait_for. apply F. left. reflexivity.
    + apply traces_queueMicrotask. apply F. left. reflexivity.
  - unfold HttpFile_close.
    apply traces_bind; [apply traces_closing|]. intros _.
    apply traces_wait_for. apply F. left. reflexivity.
  - apply traces_generic_calls. apply Forall_forall. intros c Hc.
    apply F. simpl. apply in_map. exact Hc.
Qed.

Lemma traces_run_job (accepted : bool) (j : Job) :
  job_from fs j -> traces fs (run_job accepted j).
Proof.
  destruct j as [[t|]|t|type|cb r]; simpl; intro H.
  - apply traces_call_task. exact H.
  - apply traces_emit_end.
  - apply traces_call_task. exact H.
  - subst type. apply traces_emit_end.
  - apply traces_invoke. exact H.
Qed.

Lemma settle_traced (m0 m1 : Machine) (c : M unit) :
  traced fs m0 m1 -> crashed m1 = false -> sourced fs m1 ->
  traces fs c ->
  forall m2, log m2 = log m1 -> listeners m2 = listeners m1 ->
             crashed m2 = false -> sourced fs m2 ->
             traced fs m0 (settle (c m2)).
Proof.
  intros (_ & ext & L & E) C1 _ Hc m2 L2 Ls2 C2 S2.
  rewrite C1 in E. specialize (Hc m2 S2).
  destruct (c m2) as [[] m3|m3]; destruct Hc as (S3 & C3 & ext3 & L3 & E3);
    simpl.
  - split; [exact S3|]. exists (ext ++ ext3).
    split; [rewrite L3, L2, L, app_assoc; reflexivity|].
    rewrite C3, C2. rewrite Ls2 in E3. eapply Ext_app; eassumption.
  - split; [exact S3|]. exists (ext ++ ext3).
    split; [rewrite L3, L2, L, app_assoc; reflexivity|].
    rewrite Ls2 in E3. eapply Ext_app; eassumption.
Qed.

Lemma in_remove_nth {A} (k : nat) (l : list A) (x : A) :
  In x (remove_nth k l) -> In x l.
Proof.
  unfold remove_nth. intro H. apply in_app_or in H.
  rewrite <- (firstn_skipn k l). apply in_or_app.
  destruct H as [H|H]; [left; exact H|right].
  rewrite <- tl_skipn in H.
  destruct (skipn k l); [contradiction|]. right. exact H.
Qed.

Lemma traced_step (m0 : Machine) (c : Choice) (m m' : Machine) :
  traced fs m0 m -> step c m = Some m' -> traced fs m0 m'.
Proof.
  intros T H. pose proof T as (S & _). destruct S as (S1 & S2 & S3).
  unfold step in H. destruct (crashed m) eqn:C; [discriminate|].
  destruct c as [accepted|k].
  - destruct (microtasks m) as [|j js] eqn:Em; [discriminate|].
    injection H as <-.
    apply (settle_traced m0 m (run_job accepted j) T C (proj1 T)).
    + apply traces_run_job. exact (Forall_inv S2).
    + reflexivity.
    + reflexivity.
    + reflexivity.
    + split; [exact S1|]. split; [exact (Forall_inv_tail S2)|exact S3].
  - destruct (nth_error (waiting m) k) as [[cb r]|] eqn:Ew; [|discriminate].
    injection H as <-.
    apply (settle_traced m0 m (invoke cb r) T C (proj1 T)).
    + apply traces_invoke.
      apply (proj1 (Forall_forall _ _) S3 (cb, r)).
      eapply nth_error_In. exact Ew.
    + reflexivity.
    + reflexivity.
    + reflexivity.
    + split; [exact S1|]. split; [exact S2|].
      apply Forall_forall. intros x Hx.
      apply (proj1 (Forall_forall _ _) S3).
      eapply in_remove_nth. exact Hx.
Qed.

Lemma traced_reachable (m0 m : Machine) :
  sourced fs m0 -> crashed m0 = false -> reachable m0 m -> traced fs m0 m.
Proof.
  intros S C [schedule <-].
  apply run_preserves.
  - intros c m1 m2. apply traced_step.
  - split; [exact S|]. exists []. rewrite app_nil_r, C.
    split; [reflexivity|apply Ext_nil].
Qed.

End Traces.

(* ================================================================== *)
(** ** What a log of the orchestrators looks like                     *)
(* ================================================================== *)







Lemma Key_eqb_eq (a b : Key) : Key_eqb a b = true -> a = b.
Proof.
  destruct a as [s|s], b as [t|t]; simpl; try discriminate; intro H.
  - apply String.eqb_eq in H. subst. reflexivity.
  - apply Symbol_eqb_eq in H. subst. reflexivity.
Qed.

Lemma to_key_sym (v : Value) (s : Symbol) : to_key v = KSym s -> v = VSym s.
Proof.
  destruct v as [| |[|]|str|s']; simpl; try discriminate.
  intro H. injection H as ->. reflexivity.
Qed.



(** A listener for END_EVENT that is there from the start is called with
    the first emission of END_EVENT. *)
Lemma Ext_first_end fs (cb : nat) ls l ls' b :
  Ext fs ls l ls' b -> ls = [(KSym END_EVENT, cb)] ->
  forall args post, after_first_end l = Some (args, post) ->
    exists post', post = Heard cb args :: post'.
Proof.
  induction 1 as [ls | ls t l ls' b0 Ht H IH | ls f d l ls' b0 H IH
                 | ls f l ls' b0 H IH | ls r l ls' b0 Hr Hn H IH
                 | ls r Hr Hn | ls l ls' b0 H IH];
    intros Hls args post Hf.
  - discriminate.
  - apply IH; assumption.
  - apply IH; assumption.
  - apply IH; assumption.
  - subst ls. unfold heard, hears in Hf. cbn [after_first_end app] in Hf.
    destruct (Key_eqb (KSym END_EVENT) (to_key (event_type r))) eqn:K.
    + apply Key_eqb_eq in K. symmetry in K. apply to_key_sym in K.
      rewrite K in Hf. cbn in Hf. injection Hf as <- <-.
      eexists. reflexivity.
    + assert (D : deaf [(KSym END_EVENT, cb)] (event_type r)
                  = [(KSym END_EVENT, cb)]).
      { unfold deaf, hears. cbn [filter fst]. rewrite K. reflexivity. }
      assert (Hf' : after_first_end l = Some (args, post)).
      { cbn [filter fst] in Hf. rewrite K in Hf. cbn [map app] in Hf.
        destruct (event_type r) as [| | | |[| |n]]; try exact Hf.
        discriminate. }
      apply IH; [exact D|exact Hf'].
  - discriminate.
  - subst ls. cbn in Hf. injection Hf as <- <-. eexists. reflexivity.
Qed.


Lemma sourced_asyncQueue (fs : list AsyncTask) (ls : list (Key * nat)) :
  sourced fs {| it := tl fs; listeners := ls;
                microtasks := [JTask (hd_error fs)]; waiting := [];
                log := []; crashed := false |}.
Proof.
  destruct (job_from_next fs fs (incl_refl fs)) as [J1 J2].
  split; [exact J2|]. split; [|constructor].
  constructor; [exact J1|constructor].
Qed.

Lemma sourced_asyncParallel (fs : list AsyncTask) (ls : list (Key * nat)) :
  sourced fs {| it := tl fs; listeners := ls;
                microtasks := map JFunc fs
                              ++ match fs with
                                 | [] => [JEmit (VSym END_EVENT)]
                                 | _ :: _ => []
                                 end;
                waiting := []; log := []; crashed := false |}.
Proof.
  split; [|split; [|constructor]].
  - intros x Hx. destruct fs; [destruct Hx|right; exact Hx].
  - cbn [microtasks]. apply Forall_app. split.
    + apply Forall_forall. intros j Hj. apply in_map_iff in Hj.
      destruct Hj as (t & <- & Ht). exact Ht.
    + destruct fs; [|constructor].
      constructor; [reflexivity|constructor].
Qed.

(** The logs of both orchestrators, whoever listens from the start. *)
Lemma orchestrator_log (fs : list AsyncTask) (ls : list (Key * nat))
    (m : Machine) :
  reachable {| it := tl fs; listeners := ls;
               microtasks := [JTask (hd_error fs)]; waiting := [];
               log := []; crashed := false |} m \/
  reachable {| it := tl fs; listeners := ls;
               microtasks := map JFunc fs
                             ++ match fs with
                                | [] => [JEmit (VSym END_EVENT)]
                                | _ :: _ => []
                                end;
               waiting := []; log := []; crashed := false |} m ->
  Ext fs ls (log m) (listeners m) (crashed m).
Proof.
  intros [R|R].
  - destruct (traced_reachable fs _ m (sourced_asyncQueue fs ls) eq_refl R)
      as (_ & ext & L & E).
    cbn in L. rewrite L. exact E.
  - destruct (traced_reachable fs _ m (sourced_asyncParallel fs ls) eq_refl R)
      as (_ & ext & L & E).
    cbn in L. rewrite L. exact E.
Qed.

Lemma once_asyncQueue (type : Value) (l : nat) (fs : list AsyncTask) :
  once type l (asyncQueue fs)
  = {| it := tl fs; listeners := [(to_key type, l)];
       microtasks := [JTask (hd_error fs)]; waiting := [];
       log := []; crashed := false |}.
Proof. rewrite asyncQueue_eq. reflexivity. Qed.

Lemma once_asyncParallel (type : Value) (l : nat) (fs : list AsyncTask) :
  once type l (asyncParallel fs)
  = {| it := tl fs; listeners := [(to_key type, l)];
       microtasks := map JFunc fs
                     ++ match fs with
                        | [] => [JEmit (VSym END_EVENT)]
                        | _ :: _ => []
                        end;
       waiting := []; log := []; crashed := false |}.
Proof. rewrite asyncParallel_eq. reflexivity. Qed.



(** C10: for every task list, when asyncQueue or asyncParallel returns
    nothing has been emitted and no task has been called: the log is
    empty.  A listener for END_EVENT attached to the returned emitter is
    therefore called with the first emission of END_EVENT, in every run and
    whatever the tasks do; this holds in particular for the callbacks that
    [_write] and [_final] attach. *)
Theorem orchestrators_emit_nothing_during_the_call
    (fs : list AsyncTask) (callback : nat) :
  log (asyncQueue fs) = [] /\
  log (asyncParallel fs) = [] /\
  (forall m args post,
     reachable (once (VSym END_EVENT) callback (asyncQueue fs)) m ->
     after_first_end (log m) = Some (args, post) ->
     exists post', post = Heard callback args :: post') /\
  (forall m args post,
     reachable (once (VSym END_EVENT) callback (asyncParallel fs)) m ->
     after_first_end (log m) = Some (args, post) ->
     exists post', post = Heard callback args :: post') /\
  (forall fuel form chunk form' m0 m args post,
     HttpForm_write fuel form chunk callback = Some (Ok (form', m0)) ->
     reachable m0 m ->
     after_first_end (log m) = Some (args, post) ->
     exists post', post = Heard callback args :: post') /\
  (forall form m args post,
     reachable (HttpForm_final form callback) m ->
     after_first_end (log m) = Some (args, post) ->
     exists post', post = Heard callback args :: post').
Proof.
  assert (Q : forall fs0 m args post,
     reachable (once (VSym END_EVENT) callback (asyncQueue fs0)) m ->
     after_first_end (log m) = Some (args, post) ->
     exists post', post = Heard callback args :: post').
  { intros fs0 m args post R Hf. rewrite once_asyncQueue in R.
    eapply Ext_first_end; [|reflexivity|exact Hf].
    apply (orchestrator_log fs0 [(KSym END_EVENT, callback)] m).
    left. exact R. }
  assert (P : forall fs0 m args post,
     reachable (once (VSym END_EVENT) callback (asyncParallel fs0)) m ->
     after_first_end (log m) = Some (args, post) ->
     exists post', post = Heard callback args :: post').
  { intros fs0 m args post R Hf. rewrite once_asyncParallel in R.
    eapply Ext_first_end; [|reflexivity|exact Hf].
    apply (orchestrator_log fs0 [(KSym END_EVENT, callback)] m).
    right. exact R. }
  split; [rewrite asyncQueue_eq; reflexivity|].
  split; [rewrite asyncParallel_eq; reflexivity|].
  split; [apply Q|]. split; [apply P|]. split.
  - intros fuel form chunk form' m0 m args post W R Hf.
    unfold HttpForm_write in W.
    destruct (write_scan fuel form chunk) as [[[form1 queue]|e]|];
      try discriminate.
    injection W as <- <-. eapply Q; eassumption.
  - intros form m args post R Hf. unfold HttpForm_final in R.
    eapply P; eassumption.
Qed.

(* ================================================================== *)
(** ** Where the splitter cuts                                        *)
(* ================================================================== *)

Lemma starts_with_length (needle hay : Buffer) :
  Buf.starts_with needle hay = true -> (length needle <= length hay)%nat.
Proof.
  intro H. destruct (starts_with_split needle hay H) as [post ->].
  rewrite length_app. lia.
Qed.

Lemma starts_with_prefix (needle hay post : Buffer) :
  Buf.starts_with needle hay = true ->
  Buf.starts_with needle (hay ++ post) = true.
Proof.
  intro H. destruct (starts_with_split needle hay H) as [rest ->].
  rewrite <- app_assoc. apply starts_with_app.
Qed.

(** [search] returns the first position at which the needle stands. *)
Lemma search_first (needle hay : Buffer) (pos i : nat) :
  Buf.search needle hay pos = Some i ->
  (pos <= i)%nat /\
  Buf.starts_with needle (skipn (i - pos) hay) = true /\
  (forall j, (j < i - pos)%nat ->
             Buf.starts_with needle (skipn j hay) = false).
Proof.
  revert pos. induction hay as [|h hay IH]; intros pos H.
  - cbn [Buf.search] in H.
    destruct (Buf.starts_with needle []) eqn:E; [|discriminate].
    injection H as <-. rewrite Nat.sub_diag. repeat split; [lia|exact E|].
    intros j Hj. lia.
  - cbn [Buf.search] in H.
    destruct (Buf.starts_with needle (h :: hay)) eqn:E.
    + injection H as <-. rewrite Nat.sub_diag.
      repeat split; [lia|exact E|]. intros j Hj. lia.
    + destruct (IH (S pos) H) as (L & T & F).
      repeat split; [lia| |].
      * replace (i - pos)%nat with (S (i - S pos)) by lia. exact T.
      * intros [|j] Hj; [exact E|]. cbn [skipn]. apply F. lia.
Qed.

Lemma search_absent (needle hay : Buffer) (pos : nat) :
  Buf.search needle hay pos = None ->
  forall j, Buf.starts_with needle (skipn j hay) = false.
Proof.
  revert pos. induction hay as [|h hay IH]; intros pos H j.
  - cbn [Buf.search] in H. rewrite skipn_nil.
    destruct (Buf.starts_with needle []); [discriminate|reflexivity].
  - cbn [Buf.search] in H.
    destruct (Buf.starts_with needle (h :: hay)) eqn:E; [discriminate|].
    destruct j as [|j]; [exact E|]. cbn [skipn]. exact (IH _ H j).
Qed.

(** Conversely, the first position at which the needle stands is what
    [search] returns. *)
Lemma search_at (needle hay : Buffer) (pos k : nat) :
  Buf.starts_with needle (skipn k hay) = true ->
  (forall j, (j < k)%nat -> Buf.starts_with needle (skipn j hay) = false) ->
  Buf.search needle hay pos = Some (pos + k)%nat.
Proof.
  revert hay pos. induction k as [|k IH]; intros hay pos T F.
  - cbn [skipn] in T. destruct hay as [|h hay]; cbn [Buf.search];
      rewrite T; f_equal; lia.
  - destruct hay as [|h hay].
    + specialize (F O ltac:(lia)). cbn [skipn] in *. congruence.
    + pose proof (F O ltac:(lia)) as F0. cbn [skipn] in F0.
      cbn [Buf.search]. rewrite F0.
      rewrite (IH hay (S pos)).
      * f_equal. lia.
      * exact T.
      * intros j Hj. exact (F (S j) ltac:(lia)).
Qed.

Lemma clamp_range (len i : Z) : 0 <= len -> 0 <= Buf.clamp len i <= len.
Proof. intro H. unfold Buf.clamp. destruct (i <? 0) eqn:E; lia. Qed.

Lemma blen_nonneg (b : Buffer) : 0 <= blen b.
Proof. unfold blen. lia. Qed.

Lemma blen_pos (b : Buffer) : b <> [] -> 0 < blen b.
Proof. intro H. destruct b; [congruence|]. unfold blen. cbn [length]. lia. Qed.

(** What [indexOf] returns for a needle that is not empty: the first
    position, from the offset on, at which the needle stands. *)
Lemma indexOf_first (b needle : Buffer) (st : Z) :
  needle <> [] ->
  let o := Buf.clamp (blen b) st in
  let e := Buf.indexOf b needle st in
  (e = -1 /\
   forall j, (Z.to_nat o <= j)%nat ->
             Buf.starts_with needle (skipn j b) = false) \/
  (o <= e /\ e + blen needle <= blen b /\
   Buf.starts_with needle (skipn (Z.to_nat e) b) = true /\
   forall j, (Z.to_nat o <= j < Z.to_nat e)%nat ->
             Buf.starts_with needle (skipn j b) = false).
Proof.
  intros N o e. subst o e.
  pose proof (blen_pos needle N) as P. pose proof (blen_nonneg b) as Q.
  unfold Buf.indexOf. cbv zeta.
  assert (Z0 : (blen needle =? 0) = false) by lia. rewrite !Z0.
  assert (far : forall j, (Z.to_nat (blen b) < j + Z.to_nat (blen needle))%nat ->
                Buf.starts_with needle (skipn j b) = false).
  { intros j Hj. destruct (Buf.starts_with needle (skipn j b)) eqn:E; [|reflexivity].
    apply starts_with_length in E. rewrite length_skipn in E.
    unfold blen in *. lia. }
  set (off := if st <? 0
              then if 0 <=? st + blen b then st + blen b else 0
              else if st + blen needle <=? blen b then st else -1).
  destruct (off <? 0) eqn:Hoff.
  - left. split; [reflexivity|]. intros j Hj. apply far.
    unfold Buf.clamp in Hj. subst off.
    destruct (st <? 0) eqn:E1.
    + destruct (0 <=? st + blen b) eqn:E2; lia.
    + destruct (st + blen needle <=? blen b) eqn:E2; [lia|].
      assert (Z.min st (blen b) + blen needle > blen b) by lia.
      lia.
  - assert (O : off = Buf.clamp (blen b) st).
    { unfold Buf.clamp. subst off. destruct (st <? 0) eqn:E1.
      - destruct (0 <=? st + blen b) eqn:E2; lia.
      - destruct (st + blen needle <=? blen b) eqn:E2; lia. }
    rewrite <- O.
    destruct (Buf.search needle (skipn (Z.to_nat off) b) (Z.to_nat off))
      as [i|] eqn:S1.
    + right. destruct (search_first _ _ _ _ S1) as (L & T & F).
      rewrite skipn_skipn in T.
      replace (i - Z.to_nat off + Z.to_nat off)%nat with i in T by lia.
      pose proof (starts_with_length _ _ T) as Len.
      rewrite length_skipn in Len. unfold blen in *.
      repeat split; try lia.
      * rewrite Nat2Z.id. exact T.
      * intros j Hj. rewrite Nat2Z.id in Hj.
        specialize (F (j - Z.to_nat off)%nat ltac:(lia)).
        rewrite skipn_skipn in F.
        replace (j - Z.to_nat off + Z.to_nat off)%nat with j in F by lia.
        exact F.
    + left. split; [reflexivity|]. intros j Hj.
      pose proof (search_absent _ _ _ S1 (j - Z.to_nat off)%nat) as F.
      rewrite skipn_skipn in F.
      replace (j - Z.to_nat off + Z.to_nat off)%nat with j in F by lia.
      exact F.
Qed.

Lemma subarray_from_skipn (b : Buffer) (st : Z) :
  Buf.subarray_from b st = skipn (Z.to_nat (Buf.clamp (blen b) st)) b.
Proof.
  unfold Buf.subarray_from, Buf.subarray. cbv zeta.
  pose proof (blen_nonneg b) as Q.
  rewrite (clamp_len _ Q). apply firstn_all2.
  rewrite length_skipn.
  pose proof (clamp_range (blen b) st Q) as H.
  set (c := Buf.clamp (blen b) st) in *. unfold blen in *. lia.
Qed.

Lemma subarray_to (b : Buffer) (st e : Z) :
  0 <= e <= blen b ->
  Buf.subarray b st e
  = firstn (Z.to_nat (e - Buf.clamp (blen b) st))
      (skipn (Z.to_nat (Buf.clamp (blen b) st)) b).
Proof.
  intro H. unfold Buf.subarray. cbv zeta.
  replace (Buf.clamp (blen b) e) with e; [reflexivity|].
  unfold Buf.clamp. destruct (e <? 0) eqn:E; lia.
Qed.

Lemma SplitGen_take_finished (fuel : nat) (g : SplitGen) :
  gen_state g = Finished -> SplitGen_take fuel g = ([], true).
Proof.
  intro F. destruct fuel as [|fuel]; cbn [SplitGen_take].
  - rewrite F. reflexivity.
  - unfold SplitGen_next. rewrite F. reflexivity.
Qed.

(** The separator stands nowhere in [hay] when it stands at none of its
    positions. *)
Lemma indexOf_nowhere (hay needle : Buffer) :
  needle <> [] ->
  (forall j, Buf.starts_with needle (skipn j hay) = false) ->
  Buf.indexOf hay needle 0 = -1.
Proof.
  intros N F. pose proof (indexOf_first hay needle 0 N) as H. cbv zeta in H.
  destruct H as [[H _]|(_ & _ & T & _)]; [exact H|].
  rewrite F in T. discriminate.
Qed.

(** The separator stands at the end of [pre ++ needle] and not before. *)
Lemma indexOf_at_end (pre needle : Buffer) :
  needle <> [] ->
  (forall j, (j < length pre)%nat ->
             Buf.starts_with needle (skipn j (pre ++ needle)) = false) ->
  Buf.indexOf (pre ++ needle) needle 0 = blen pre.
Proof.
  intros N F. rewrite indexOf_zero.
  pose proof (blen_pos needle N) as P.
  assert (Z0 : (blen needle =? 0) = false) by lia. rewrite Z0.
  assert (L : (blen needle <=? blen (pre ++ needle)) = true).
  { apply Z.leb_le. unfold blen. rewrite length_app. lia. }
  rewrite L.
  rewrite (search_at needle (pre ++ needle) 0 (length pre)).
  - reflexivity.
  - rewrite skipn_app, Nat.sub_diag, skipn_all. cbn [skipn app].
    rewrite <- (app_nil_r needle) at 2. apply starts_with_app.
  - exact F.
Qed.

Lemma splitBuffer_cut (fuel : nat) (b sep : Buffer) (st : Z) :
  sep <> [] ->
  (Z.to_nat (blen b - Buf.clamp (blen b) st) < fuel)%nat ->
  exists views last,
    SplitGen_take fuel (splitBuffer b sep st) = (views ++ [last], true) /\
    Buf.subarray_from b st
    = flat_map (fun v => shown v ++ sep) views
      ++ Buf.subarray_from b (start last) /\
    Forall (fun v => buf v = b /\
                     Buf.indexOf (shown v ++ sep) sep 0 = blen (shown v))
      views /\
    buf last = b /\ end_ last = -1 /\
    Buf.indexOf (Buf.subarray_from b (start last)) sep 0 = -1.
Proof.
  intro N. revert st. induction fuel as [|fuel IH]; intros st Hf; [lia|].
  pose proof (blen_nonneg b) as Q. pose proof (blen_pos sep N) as P.
  pose proof (clamp_range (blen b) st Q) as Ho.
  cbn [SplitGen_take]. unfold SplitGen_next, splitBuffer.
  cbn [gen_state gen_buf gen_sep].
  pose proof (indexOf_first b sep st N) as H. cbv zeta in H.
  set (o := Buf.clamp (blen b) st) in *.
  set (e := Buf.indexOf b sep st) in *.
  destruct H as [[E F]|(Le & Fit & T & F)].
  - rewrite E. change (-1 =? -1) with true. cbv iota.
    rewrite SplitGen_take_finished by reflexivity.
    exists [], {| buf := b; start := st; end_ := -1 |}.
    cbn [app flat_map start end_ buf].
    repeat split; try reflexivity.
    + constructor.
    + rewrite subarray_from_skipn. apply indexOf_nowhere; [exact N|].
      intro j. rewrite skipn_skipn. apply F. fold o. lia.
  - assert (E : (e =? -1) = false) by lia. rewrite E.
    assert (C : Buf.clamp (blen b) (e + blen sep) = e + blen sep).
    { unfold Buf.clamp. destruct (e + blen sep <? 0) eqn:E1; lia. }
    destruct (IH (e + blen sep)) as (views & last & Tk & J & V & Bl & El & Il).
    { rewrite C. lia. }
    change {| gen_buf := b; gen_sep := sep;
              gen_state := Suspended (e + blen sep) |}
      with (splitBuffer b sep (e + blen sep)).
    rewrite Tk.
    exists ({| buf := b; start := st; end_ := e |} :: views), last.
    destruct (starts_with_split _ _ T) as [post Post].
    assert (Sh : shown {| buf := b; start := st; end_ := e |}
                 = firstn (Z.to_nat (e - o)) (skipn (Z.to_nat o) b)).
    { unfold shown. cbn [buf start end_]. apply subarray_to. lia. }
    assert (Cut : skipn (Z.to_nat o) b
                  = firstn (Z.to_nat (e - o)) (skipn (Z.to_nat o) b)
                    ++ sep ++ post).
    { rewrite <- Post.
      replace (Z.to_nat e) with (Z.to_nat (e - o) + Z.to_nat o)%nat by lia.
      rewrite <- skipn_skipn. symmetry. apply firstn_skipn. }
    assert (Next : Buf.subarray_from b (e + blen sep) = post).
    { rewrite subarray_from_skipn, C.
      replace (Z.to_nat (e + blen sep))
        with (length sep + Z.to_nat e)%nat by (unfold blen; lia).
      rewrite <- skipn_skipn, Post, skipn_app, Nat.sub_diag, skipn_all.
      reflexivity. }
    repeat split; try assumption.
    + cbn [flat_map]. rewrite <- !app_assoc, <- J, Next, Sh.
      rewrite subarray_from_skipn. fold o. exact Cut.
    + constructor; [|exact V]. split; [reflexivity|].
      rewrite Sh. apply indexOf_at_end; [exact N|].
      intros j Hj.
      destruct (Buf.starts_with sep
                  (skipn j (firstn (Z.to_nat (e - o)) (skipn (Z.to_nat o) b)
                            ++ sep))) eqn:S1; [|reflexivity].
      apply (starts_with_prefix _ _ post) in S1.
      assert (Lj : (j <= length (firstn (Z.to_nat (e - o))
                                   (skipn (Z.to_nat o) b)))%nat) by lia.
      rewrite skipn_app in S1.
      replace (j - length (firstn (Z.to_nat (e - o)) (skipn (Z.to_nat o) b)))%nat
        with O in S1 by lia.
      cbn [skipn] in S1. rewrite <- app_assoc in S1.
      assert (S2 : Buf.starts_with sep (skipn j (skipn (Z.to_nat o) b)) = true).
      { rewrite Cut, skipn_app.
        replace (j - length (firstn (Z.to_nat (e - o))
                               (skipn (Z.to_nat o) b)))%nat with O by lia.
        exact S1. }
      rewrite skipn_skipn in S2.
      rewrite length_firstn, length_skipn in Hj.
      rewrite F in S2; [discriminate|]. unfold blen in *. lia.
Qed.

(** X1.  For a separator that is not empty, iteration over
    [splitBuffer(b, sep, st)] ends after at most [b.length + 1] views.  All
    views refer to [b].  Joining the bytes that the views before the last
    show, each followed by the separator, and the bytes from the start of
    the last view gives back [b.subarray(st)]; in a view followed by the
    separator, the separator stands at the end and nowhere before; it does
    not occur from the start of the last view on. *)
Theorem splitBuffer_views_rebuild_the_buffer (b sep : Buffer) (st : Z)
    (Hsep : sep <> []) :
  exists views last,
    SplitGen_take (S (length b)) (splitBuffer b sep st)
    = (views ++ [last], true) /\
    Buf.subarray_from b st
    = flat_map (fun v => shown v ++ sep) views
      ++ Buf.subarray_from b (start last) /\
    Forall (fun v => buf v = b /\
                     Buf.indexOf (shown v ++ sep) sep 0 = blen (shown v))
      views /\
    buf last = b /\ end_ last = -1 /\
    Buf.indexOf (Buf.subarray_from b (start last)) sep 0 = -1.
Proof.
  apply splitBuffer_cut; [exact Hsep|].
  pose proof (clamp_range (blen b) st (blen_nonneg b)) as H.
  unfold blen in *. lia.
Qed.

Lemma splitBuffer_views_rebuild_the_buffer_witness :
  split_sep <> [] /\
  exists views last,
    SplitGen_take 4 (splitBuffer split_input split_sep 0)
    = (views ++ [last], true) /\
    Buf.subarray_from split_input 0
    = flat_map (fun v => shown v ++ split_sep) views
      ++ Buf.subarray_from split_input (start last) /\
    Forall (fun v => buf v = split_input /\
                     Buf.indexOf (shown v ++ split_sep) split_sep 0
                     = blen (shown v))
      views /\
    buf last = split_input /\ end_ last = -1 /\
    Buf.indexOf (Buf.subarray_from split_input (start last)) split_sep 0 = -1.
Proof.
  split; [discriminate|].
  apply (splitBuffer_views_rebuild_the_buffer split_input split_sep 0).
  discriminate.
Defined.

(** The empty needle is found where the search begins. *)
Lemma indexOf_empty (b : Buffer) (s : Z) :
  Buf.indexOf b [] s = Buf.clamp (blen b) s.
Proof.
  pose proof (blen_nonneg b) as Q.
  unfold Buf.indexOf, Buf.clamp. cbv zeta.
  change (blen []) with 0. change (0 =? 0) with true. cbv iota.
  destruct (s <? 0) eqn:E1.
  - destruct (0 <=? s + blen b) eqn:E2; lia.
  - destruct (s + 0 <=? blen b) eqn:E2; lia.
Qed.

(** X2.  With the empty separator the generator never finishes: the empty
    separator is found where the search begins, so after the first view
    every further view is the same empty range, without end. *)
Theorem splitBuffer_empty_separator_never_finishes (b : Buffer) (st : Z)
    (n : nat) :
  SplitGen_take (S n) (splitBuffer b [] st)
  = ({| buf := b; start := st; end_ := Buf.clamp (blen b) st |}
     :: repeat {| buf := b; start := Buf.clamp (blen b) st;
                  end_ := Buf.clamp (blen b) st |} n,
     false).
Proof.
  pose proof (blen_nonneg b) as Q.
  pose proof (indexOf_empty b) as I.
  assert (R : forall k s, 0 <= s <= blen b ->
            SplitGen_take k (splitBuffer b [] s)
            = (repeat {| buf := b; start := s; end_ := s |} k, false)).
  { induction k as [|k IH]; intros s Hs; [reflexivity|].
    cbn [SplitGen_take]. unfold SplitGen_next, splitBuffer.
    cbn [gen_state gen_buf gen_sep]. rewrite I.
    assert (C : Buf.clamp (blen b) s = s).
    { unfold Buf.clamp. destruct (s <? 0) eqn:E; lia. }
    rewrite C. assert (E : (s =? -1) = false) by lia. rewrite E.
    change (blen []) with 0. rewrite Z.add_0_r.
    change {| gen_buf := b; gen_sep := []; gen_state := Suspended s |}
      with (splitBuffer b [] s).
    rewrite (IH s Hs). reflexivity. }
  pose proof (clamp_range (blen b) st Q) as Ho.
  cbn [SplitGen_take]. unfold SplitGen_next, splitBuffer.
  cbn [gen_state gen_buf gen_sep]. rewrite I.
  assert (E : (Buf.clamp (blen b) st =? -1) = false) by lia. rewrite E.
  change (blen []) with 0. rewrite Z.add_0_r.
  change {| gen_buf := b; gen_sep := [];
            gen_state := Suspended (Buf.clamp (blen b) st) |}
    with (splitBuffer b [] (Buf.clamp (blen b) st)).
  rewrite (R n _ Ho). reflexivity.
Qed.

(** X3.  Whenever iteration over [splitBuffer] is done, the view that came
    last has [end = -1], whatever the buffer, the separator and the start,
    so that its [toString()] is the empty string; no view before it has
    [end = -1]. *)
Theorem splitBuffer_last_view_reads_empty (fuel : nat) (b sep : Buffer)
    (st : Z) (views : list SplitResult) (last : SplitResult)
    (Hdone : SplitGen_take fuel (splitBuffer b sep st)
             = (views ++ [last], true)) :
  end_ last = -1 /\ SplitResult_toString last = [] /\
  Forall (fun v => end_ v <> -1) views.
Proof.
  revert st views Hdone. induction fuel as [|fuel IH]; intros st views H.
  - cbn in H. discriminate.
  - cbn [SplitGen_take] in H.
    destruct (SplitGen_next (splitBuffer b sep st)) as [[r|] g] eqn:Nx;
      [|destruct views; discriminate].
    destruct (SplitGen_next_view _ _ _ _ _ Nx) as (Br & Sr & Er & Bg & Sg & St).
    destruct (end_ r =? -1) eqn:E.
    + rewrite SplitGen_take_finished in H by exact St.
      destruct views as [|v [|v' views]]; try discriminate.
      injection H as <-.
      destruct (SplitGen_last_end _ _ _ _ _ Nx St) as [E1 T1].
      repeat split; [exact E1|exact T1|constructor].
    + assert (G : g = splitBuffer b sep (end_ r + blen sep)).
      { destruct g as [gb gs gst]. cbn in Bg, Sg, St. subst. reflexivity. }
      rewrite G in H.
      destruct (SplitGen_take fuel (splitBuffer b sep (end_ r + blen sep)))
        as [rs done] eqn:Tk.
      injection H as H1 H2. subst done.
      destruct views as [|v views].
      * destruct rs; [|destruct rs; discriminate].
        exfalso.
        destruct fuel as [|fuel']; cbn in Tk; [discriminate|].
        unfold SplitGen_next in Tk. cbn in Tk.
        destruct (SplitGen_take fuel' _); discriminate.
      * cbn [app] in H1. injection H1 as -> ->.
        destruct (IH _ _ Tk) as (E1 & T1 & F1).
        repeat split; [exact E1|exact T1|].
        constructor; [lia|exact F1].
Qed.

Lemma splitBuffer_last_view_reads_empty_witness :
  end_ {| buf := split_input; start := 2; end_ := -1 |} = -1 /\
  SplitResult_toString {| buf := split_input; start := 2; end_ := -1 |} = [] /\
  Forall (fun v => end_ v <> -1)
    [ {| buf := split_input; start := 0; end_ := 1 |} ].
Proof.
  apply (splitBuffer_last_view_reads_empty 5 split_input split_sep 0
           [ {| buf := split_input; start := 0; end_ := 1 |} ]
           {| buf := split_input; start := 2; end_ := -1 |}).
  vm_compute. reflexivity.
Defined.

(* ================================================================== *)
(** ** A header block that the chunk cuts                              *)
(* ================================================================== *)

(** What [NEW_FILE_METHOD] reads and returns does not depend on the form
    that it extends. *)
Lemma NEW_FILE_METHOD_any_form (form form1 : HttpForm) (chunk : Buffer)
    (pos end1 : Z) :
  HttpForm_NEW_FILE_METHOD form chunk pos = Ok (form1, end1) ->
  exists name type,
    form1 = push_file form name type /\
    forall form',
      HttpForm_NEW_FILE_METHOD form' chunk pos
      = Ok (push_file form' name type, end1).
Proof.
  unfold HttpForm_NEW_FILE_METHOD.
  destruct (SplitGen_next (splitBuffer chunk EOL pos)) as [first g1].
  destruct (SplitGen_next g1) as [second g2].
  destruct (SplitGen_next g2) as [third g3].
  destruct (line_toString first) as [s1|]; [|discriminate].
  destruct (exec1 REG_EXP_FILENAME s1) as [name|]; [|discriminate].
  destruct (line_toString second) as [s2|]; [|discriminate].
  destruct (exec1 REG_EXP_CONTENT_TYPE s2) as [type|]; [|discriminate].
  destruct third as [r|]; [|discriminate].
  intro H. injection H as <- <-. exists name, type.
  split; reflexivity.
Qed.

(** The first occurrence from offset 0, when it is not at 0, is also the
    first from offset 1. *)
Lemma indexOf_from_one (chunk b : Buffer) (p : Z) :
  Buf.indexOf chunk b 0 = p -> 1 <= p -> Buf.indexOf chunk b 1 = p.
Proof.
  intros H0 Hp.
  assert (N : b <> []).
  { intro E. subst b. rewrite indexOf_empty in H0.
    rewrite clamp_zero in H0 by apply blen_nonneg. lia. }
  pose proof (blen_nonneg chunk) as Q. pose proof (blen_pos b N) as P.
  pose proof (indexOf_first chunk b 0 N) as A. cbv zeta in A.
  pose proof (indexOf_first chunk b 1 N) as B. cbv zeta in B.
  rewrite H0 in A.
  assert (C0 : Buf.clamp (blen chunk) 0 = 0) by (apply clamp_zero; exact Q).
  rewrite C0 in A.
  destruct A as [[A _]|(_ & A1 & A2 & A3)]; [lia|].
  assert (C1 : Buf.clamp (blen chunk) 1 = 1).
  { unfold Buf.clamp. change (1 <? 0) with false. cbv iota. lia. }
  rewrite C1 in B.
  set (e := Buf.indexOf chunk b 1) in *.
  destruct B as [[_ B]|(B0 & B1 & B2 & B3)].
  - rewrite B in A2; [discriminate|]. lia.
  - destruct (Z.lt_trichotomy e p) as [L|[L|L]]; [|exact L|].
    + rewrite A3 in B2; [discriminate|]. lia.
    + rewrite B3 in A2; [discriminate|]. lia.
Qed.

Section CutHeader.

Variable chunk : Buffer.
Variable b : Buffer.
Variable p : Z.
Variables name type : JsString.

Hypothesis Hnonterminal :
  exists c, Buf.compare SEP chunk (p + blen b) (p + blen b + blen SEP) = Ok c
            /\ c <> 0.

Hypothesis Hcut :
  forall form',
    HttpForm_NEW_FILE_METHOD form' chunk (p + blen b + blen EOL)
    = Ok (push_file form' name type, 1).

Lemma cut_header_pass (form : HttpForm) (queue : list AsyncTask) (end0 : Z) :
  boundary form = b ->
  exists queue',
    write_body chunk form queue p end0
    = Continue (push_file form name type) queue'
        (Buf.indexOf chunk b 1) 1
    /\ (files form = [] -> queue' = queue)
    /\ (forall f, lastFile form = Some f ->
          queue' = queue ++ [FileWrite (stream f) (Buf.subarray chunk end0 p)]).
Proof.
  intro B. unfold write_body. rewrite B.
  destruct Hnonterminal as (c & C & Cn). rewrite C.
  assert (Cz : (c =? 0) = false) by lia. rewrite Cz.
  rewrite Hcut. cbn [boundary push_file]. rewrite B.
  destruct (files form) as [|f0 fs] eqn:Fs.
  - cbn [List.length]. change (0 <? Z.of_nat 0) with false. cbv iota.
    exists queue. repeat split.
    intros f Lf. rewrite lastFile_none in Lf by exact Fs. discriminate.
  - assert (Nz : (0 <? Z.of_nat (List.length (f0 :: fs))) = true).
    { apply Z.ltb_lt. cbn [List.length]. lia. }
    rewrite Nz.
    destruct (lastFile_some form) as [f Lf]; [rewrite Fs; discriminate|].
    unfold bind_write. rewrite Lf.
    exists (queue ++ [FileWrite (stream f) (Buf.subarray chunk end0 p)]).
    repeat split.
    + discriminate.
    + intros f' Lf'. congruence.
Qed.

Lemma cut_header_loop (fuel : nat) (form : HttpForm)
    (queue : list AsyncTask) (end0 : Z) :
  boundary form = b -> p <> -1 -> Buf.indexOf chunk b 1 = p ->
  write_loop fuel chunk form queue p end0 = None.
Proof.
  intros B Hp H1. revert form queue end0 B.
  induction fuel as [|fuel IH]; intros form queue end0 B.
  - cbn [write_loop]. assert (E : (p =? -1) = false) by lia.
    rewrite E. reflexivity.
  - cbn [write_loop]. assert (E : (p =? -1) = false) by lia. rewrite E.
    destruct (cut_header_pass form queue end0 B) as (queue' & W & _).
    rewrite W, H1. apply IH. exact B.
Qed.

End CutHeader.

(** X4.  A chunk whose first boundary stands at an offset [p >= 1], is not
    the terminal one, and is followed by a header block that the end of
    the chunk cuts before the third line ends (so that [NEW_FILE_METHOD]
    returns 1, from the final view's [end] of -1): [_write] never returns.
    Every pass of its loop finds the same boundary again and adds another
    file. *)
Theorem write_never_returns_on_cut_header
    (form form1 : HttpForm) (chunk : Buffer) (p : Z)
    (Hfirst : Buf.indexOf chunk (boundary form) 0 = p)
    (Hoffset : 1 <= p)
    (Hnonterminal :
       exists c, Buf.compare SEP chunk (p + blen (boundary form))
                   (p + blen (boundary form) + blen SEP) = Ok c /\ c <> 0)
    (Hcut : HttpForm_NEW_FILE_METHOD form chunk
              (p + blen (boundary form) + blen EOL) = Ok (form1, 1)) :
  forall fuel callback, HttpForm_write fuel form chunk callback = None.
Proof.
  intros fuel callback.
  destruct (NEW_FILE_METHOD_any_form _ _ _ _ _ Hcut) as (name & type & _ & Any).
  unfold HttpForm_write, write_scan. rewrite Hfirst.
  rewrite (cut_header_loop chunk (boundary form) p name type Hnonterminal Any
             fuel form [] 0 eq_refl).
  - reflexivity.
  - lia.
  - apply indexOf_from_one; assumption.
Qed.

Lemma write_never_returns_on_cut_header_witness :
  HttpForm_write 1000 (fresh_form (Buffer_from "--B")) cut_chunk 0 = None.
Proof.
  refine (write_never_returns_on_cut_header
           (fresh_form (Buffer_from "--B"))
           (push_file (fresh_form (Buffer_from "--B")) (js "a") (js "t/p"))
           cut_chunk 1 _ _ _ _ 1000%nat 0%nat).
  - vm_compute. reflexivity.
  - lia.
  - exists 1. split; [vm_compute; reflexivity|lia].
  - vm_compute. reflexivity.
Defined.

(** X5.  A chunk that begins with a boundary, not the terminal one, and
    holds no other boundary, the header block behind the boundary being
    cut by the end of the chunk (so that [NEW_FILE_METHOD] returns 1):
    [_write] returns, having created the file, and queues for it the
    whole chunk but its first byte, boundary and header lines included. *)
Theorem cut_header_at_start_is_written_to_the_file
    (fuel : nat) (form form1 : HttpForm) (chunk : Buffer) (callback : nat)
    (Hfirst : Buf.indexOf chunk (boundary form) 0 = 0)
    (Honly : Buf.indexOf chunk (boundary form) 1 = -1)
    (Hnonterminal :
       exists c, Buf.compare SEP chunk (0 + blen (boundary form))
                   (0 + blen (boundary form) + blen SEP) = Ok c /\ c <> 0)
    (Hcut : HttpForm_NEW_FILE_METHOD form chunk
              (0 + blen (boundary form) + blen EOL) = Ok (form1, 1)) :
  exists f,
    lastFile form1 = Some f /\
    HttpForm_write (S fuel) form chunk callback
    = Some (Ok (form1,
                once (VSym END_EVENT) callback
                  (asyncQueue
                     (match lastFile form with
                      | Some f0 => [FileWrite (stream f0) []]
                      | None => []
                      end
                      ++ [FileWrite (stream f) (Buf.subarray_from chunk 1)])))).
Proof.
  destruct (NEW_FILE_METHOD_any_form _ _ _ _ _ Hcut)
    as (name & type & F1 & Any).
  destruct (cut_header_pass chunk (boundary form) 0 name type Hnonterminal Any
              form [] 0 eq_refl) as (queue' & W & Q0 & Q1).
  assert (Long : 1 < blen chunk).
  { destruct Hnonterminal as (c & C & _). unfold Buf.compare in C.
    destruct ((0 + blen (boundary form) <? 0)
              || (0 + blen (boundary form) + blen SEP <? 0)
              || (blen chunk <? 0 + blen (boundary form) + blen SEP)) eqn:E;
      [discriminate|].
    apply orb_false_elim in E. destruct E as [_ E].
    pose proof (blen_nonneg (boundary form)). change (blen SEP) with 2 in E.
    lia. }
  assert (Lf : exists f, lastFile form1 = Some f).
  { apply lastFile_some. rewrite F1. cbn [files push_file].
    destruct (files form); discriminate. }
  destruct Lf as [f Lf]. exists f. split; [exact Lf|].
  unfold HttpForm_write, write_scan. rewrite Hfirst.
  cbn [write_loop]. change (0 =? -1) with false. cbv iota.
  rewrite W, Honly.
  destruct fuel; cbn [write_loop]; change (-1 =? -1) with true; cbv iota;
    cbn [scan_end scan_form scan_queue];
    (assert (Lt : (1 <? blen chunk) = true) by (apply Z.ltb_lt; lia));
    rewrite Lt;
    rewrite <- F1; unfold bind_write; rewrite Lf;
    (destruct (lastFile form) as [f0|] eqn:L0;
     [ rewrite (Q1 f0 eq_refl);
       replace (Buf.subarray chunk 0 0) with (@nil byte);
       [reflexivity|]
     | rewrite Q0; [reflexivity|] ]).
  all: try (unfold Buf.subarray; cbv zeta;
            rewrite clamp_zero by apply blen_nonneg; reflexivity).
  all: unfold lastFile in L0; destruct (files form) as [|x l] eqn:Fs;
       [reflexivity|].
  all: exfalso; destruct (lastFile_some form) as [y Ly];
       [rewrite Fs; discriminate|];
       unfold lastFile in Ly; rewrite Fs in Ly; congruence.
Qed.

Lemma cut_header_at_start_is_written_to_the_file_witness :
  exists f,
    lastFile (push_file (fresh_form (Buffer_from "--B")) (js "a") (js "t/p"))
    = Some f /\
    HttpForm_write 1 (fresh_form (Buffer_from "--B")) cut_chunk_at_start 7
    = Some (Ok (push_file (fresh_form (Buffer_from "--B")) (js "a") (js "t/p"),
                once (VSym END_EVENT) 7
                  (asyncQueue
                     (match lastFile (fresh_form (Buffer_from "--B")) with
                      | Some f0 => [FileWrite (stream f0) []]
                      | None => []
                      end
                      ++ [FileWrite (stream f)
                            (Buf.subarray_from cut_chunk_at_start 1)])))).
Proof.
  apply (cut_header_at_start_is_written_to_the_file 0
           (fresh_form (Buffer_from "--B"))
           (push_file (fresh_form (Buffer_from "--B")) (js "a") (js "t/p"))
           cut_chunk_at_start 7).
  - vm_compute. reflexivity.
  - vm_compute. reflexivity.
  - exists 1. split; [vm_compute; reflexivity|lia].
  - vm_compute. reflexivity.
Defined.

(* ================================================================== *)
(** ** A whole body in one chunk                                      *)
(* ================================================================== *)

Lemma blen_app (a b : Buffer) : blen (a ++ b) = blen a + blen b.
Proof. unfold blen. rewrite length_app. lia. Qed.

Lemma starts_with_within (needle hay post : Buffer) :
  Buf.starts_with needle (hay ++ post) = true ->
  (length needle <= length hay)%nat ->
  Buf.starts_with needle hay = true.
Proof.
  revert hay. induction needle as [|n needle IH]; intros hay H L.
  - destruct hay; reflexivity.
  - destruct hay as [|h hay]; [cbn in L; lia|].
    cbn [app Buf.starts_with] in *.
    apply andb_true_iff in H. destruct H as [H1 H2].
    rewrite H1. cbn [andb]. apply IH; [exact H2|cbn in L; lia].
Qed.

Lemma skipn_past {A} (pre y : list A) (j : nat) :
  skipn (length pre + j) (pre ++ y) = skipn j y.
Proof.
  rewrite skipn_app.
  replace (length pre + j - length pre)%nat with j by lia.
  rewrite skipn_all2 by lia. reflexivity.
Qed.

Lemma skipn_inside {A} (x post : list A) (j : nat) :
  (j <= length x)%nat -> skipn j (x ++ post) = skipn j x ++ post.
Proof.
  intro L. rewrite skipn_app.
  replace (j - length x)%nat with O by lia. reflexivity.
Qed.

(** The bytes between two offsets of a buffer. *)
Lemma slice_at (chunk pre x post : Buffer) (s e : Z) :
  chunk = pre ++ x ++ post -> s = blen pre -> e = s + blen x ->
  firstn (Z.to_nat (e - s)) (skipn (Z.to_nat s) chunk) = x.
Proof.
  intros -> -> ->. unfold blen.
  replace (Z.to_nat (Z.of_nat (length pre) + Z.of_nat (length x)
                     - Z.of_nat (length pre))) with (length x) by lia.
  rewrite Nat2Z.id.
  rewrite <- (Nat.add_0_r (length pre)), skipn_past. cbn [skipn].
  rewrite firstn_app, Nat.sub_diag, firstn_all. cbn [firstn].
  apply app_nil_r.
Qed.

Lemma clamp_inside (len i : Z) : 0 <= i <= len -> Buf.clamp len i = i.
Proof. intro H. unfold Buf.clamp. destruct (i <? 0) eqn:E; lia. Qed.

Lemma subarray_at (chunk pre x post : Buffer) (s e : Z) :
  chunk = pre ++ x ++ post -> s = blen pre -> e = s + blen x ->
  Buf.subarray chunk s e = x.
Proof.
  intros C S E. unfold Buf.subarray. cbv zeta.
  pose proof (blen_nonneg pre). pose proof (blen_nonneg x).
  pose proof (blen_nonneg post).
  assert (L : blen chunk = blen pre + blen x + blen post).
  { rewrite C, !blen_app. lia. }
  rewrite !clamp_inside by lia.
  apply (slice_at chunk pre x post); assumption.
Qed.

Lemma compare_at (src chunk pre x post : Buffer) (s e : Z) :
  chunk = pre ++ x ++ post -> s = blen pre -> e = s + blen x ->
  Buf.compare src chunk s e = Ok (Buf.lex src x).
Proof.
  intros C S E. unfold Buf.compare.
  pose proof (blen_nonneg pre). pose proof (blen_nonneg x).
  pose proof (blen_nonneg post).
  assert (L : blen chunk = blen pre + blen x + blen post).
  { rewrite C, !blen_app. lia. }
  assert (G : (s <? 0) || (e <? 0) || (blen chunk <? e) = false).
  { apply orb_false_iff. split; [apply orb_false_iff; split|]; lia. }
  rewrite G. rewrite (slice_at chunk pre x post) by assumption.
  reflexivity.
Qed.

Lemma toString_at (chunk pre x post : Buffer) (s e : Z) :
  chunk = pre ++ x ++ post -> s = blen pre -> e = s + blen x ->
  Buf.toString chunk s e = decode x.
Proof.
  intros C S E.
  pose proof (blen_nonneg pre). pose proof (blen_nonneg x).
  pose proof (blen_nonneg post).
  assert (L : blen chunk = blen pre + blen x + blen post).
  { rewrite C, !blen_app. lia. }
  destruct x as [|c x].
  - change (blen []) with 0 in *. unfold decode, Buf.toString. cbv zeta.
    change (blen []) with 0. cbn.
    destruct ((0 <? s) && (blen chunk <=? s)); [reflexivity|].
    destruct (s <=? 0) eqn:E1; destruct (blen chunk <? e) eqn:E2;
      match goal with
      | |- (if ?c then _ else _) = _ =>
          assert (Hc : c = true) by (apply Z.leb_le; lia); rewrite Hc
      end; reflexivity.
  - assert (P : 0 < blen (c :: x)) by (apply blen_pos; discriminate).
    unfold decode, Buf.toString. cbv zeta.
    assert (G1 : (0 <? s) && (blen chunk <=? s) = false).
    { apply andb_false_iff. right. lia. }
    rewrite G1.
    assert (G2 : (0 <? 0) && (blen (c :: x) <=? 0) = false) by reflexivity.
    rewrite G2.
    assert (G3 : (blen chunk <? e) = false) by lia. rewrite G3.
    assert (G4 : (blen (c :: x) <? blen (c :: x)) = false) by lia.
    rewrite G4. change (0 <=? 0) with true. cbv iota.
    assert (G5 : (blen (c :: x) <=? 0) = false) by lia. rewrite G5.
    assert (G6 : (if s <=? 0 then 0 else s) = s).
    { destruct (s <=? 0) eqn:E1; lia. }
    rewrite G6.
    assert (G7 : (e <=? s) = false) by lia. rewrite G7.
    unfold Buf.utf8Slice.
    rewrite (slice_at chunk pre (c :: x) post) by assumption.
    rewrite Z.sub_0_r. change (Z.to_nat 0) with O. cbn [skipn].
    unfold blen. rewrite Nat2Z.id, firstn_all. reflexivity.
Qed.

(** Where the needle is first found in a part of the buffer, it is first
    found in the buffer from the start of that part. *)
Lemma indexOf_shift (chunk pre x post needle : Buffer) (s k : Z) :
  chunk = pre ++ x ++ post -> s = blen pre ->
  needle <> [] -> Buf.indexOf x needle 0 = k -> k <> -1 ->
  Buf.indexOf chunk needle s = s + k.
Proof.
  intros C S N K Kf.
  pose proof (blen_nonneg pre) as Qp. pose proof (blen_nonneg x) as Qx.
  pose proof (blen_nonneg post) as Qq. pose proof (blen_pos needle N) as P.
  assert (L : blen chunk = blen pre + blen x + blen post).
  { rewrite C, !blen_app. lia. }
  pose proof (indexOf_first x needle 0 N) as A. cbv zeta in A.
  rewrite clamp_zero in A by exact Qx. rewrite K in A.
  destruct A as [[A _]|(A0 & A1 & A2 & A3)]; [contradiction|].
  pose proof (indexOf_first chunk needle s N) as B. cbv zeta in B.
  rewrite (clamp_inside (blen chunk) s) in B by lia.
  assert (At : forall j, (j <= length x)%nat ->
               skipn (Z.to_nat s + j) chunk = skipn j x ++ post).
  { intros j Hj. rewrite C, S. unfold blen. rewrite Nat2Z.id.
    rewrite skipn_past. apply skipn_inside. exact Hj. }
  assert (Here : Buf.starts_with needle (skipn (Z.to_nat (s + k)) chunk)
                 = true).
  { replace (Z.to_nat (s + k)) with (Z.to_nat s + Z.to_nat k)%nat by lia.
    rewrite At by (unfold blen in *; lia).
    apply starts_with_prefix. exact A2. }
  assert (Before : forall j, (Z.to_nat s <= j < Z.to_nat (s + k))%nat ->
                   Buf.starts_with needle (skipn j chunk) = false).
  { intros j Hj.
    destruct (Buf.starts_with needle (skipn j chunk)) eqn:E; [|reflexivity].
    replace j with (Z.to_nat s + (j - Z.to_nat s))%nat in E by lia.
    rewrite At in E by (unfold blen in *; lia).
    apply starts_with_within in E.
    - rewrite A3 in E; [discriminate|]. lia.
    - rewrite length_skipn. unfold blen in *. lia. }
  set (e := Buf.indexOf chunk needle s) in *.
  destruct B as [[_ B]|(B0 & B1 & B2 & B3)].
  - rewrite B in Here; [discriminate|]. lia.
  - destruct (Z.lt_trichotomy e (s + k)) as [Lt|[Eq|Gt]]; [|exact Eq|].
    + rewrite Before in B2; [discriminate|]. lia.
    + rewrite B3 in Here; [discriminate|]. lia.
Qed.

(** A line without CRLF ends where the CRLF behind it stands. *)
Lemma line_end (l : Buffer) :
  ~ occurs EOL l -> Buf.indexOf (l ++ EOL) EOL 0 = blen l.
Proof.
  intro H. apply indexOf_at_end; [discriminate|].
  intros j Hj.
  destruct (Buf.starts_with EOL (skipn j (l ++ EOL))) eqn:E; [|reflexivity].
  exfalso. apply H.
  rewrite skipn_inside in E by lia.
  pose proof (firstn_skipn j l) as Sp.
  destruct (skipn j l) as [|c r] eqn:Sk.
  - apply (f_equal (@length byte)) in Sk. rewrite length_skipn in Sk.
    cbn in Sk. lia.
  - unfold EOL in E. cbn [app Buf.starts_with] in E.
    apply andb_true_iff in E. destruct E as [E1 E2].
    apply byte_eqb_eq in E1. subst c.
    destruct r as [|c2 r].
    + cbn in E2. discriminate.
    + cbn [app Buf.starts_with] in E2.
      apply andb_true_iff in E2. destruct E2 as [E2 _].
      apply byte_eqb_eq in E2. subst c2.
      exists (firstn j l), r. symmetry. exact Sp.
Qed.

(** The view of a line, and the generator behind it. *)
Lemma next_line (chunk pre x post : Buffer) (pos : Z) :
  chunk = pre ++ x ++ EOL ++ post -> pos = blen pre -> ~ occurs EOL x ->
  SplitGen_next (splitBuffer chunk EOL pos)
  = (Some {| buf := chunk; start := pos; end_ := pos + blen x |},
     splitBuffer chunk EOL (pos + blen x + blen EOL)) /\
  SplitResult_toString {| buf := chunk; start := pos; end_ := pos + blen x |}
  = decode x.
Proof.
  intros C S H.
  assert (I : Buf.indexOf chunk EOL pos = pos + blen x).
  { apply (indexOf_shift chunk pre (x ++ EOL) post).
    - rewrite C, <- app_assoc. reflexivity.
    - exact S.
    - discriminate.
    - apply line_end. exact H.
    - pose proof (blen_nonneg x). lia. }
  split.
  - unfold SplitGen_next, splitBuffer. cbn [gen_state gen_buf gen_sep].
    rewrite I.
    assert (E : (pos + blen x =? -1) = false).
    { pose proof (blen_nonneg x). pose proof (blen_nonneg pre). lia. }
    rewrite E. reflexivity.
  - unfold SplitResult_toString. cbn [buf start end_].
    apply (toString_at chunk pre x (EOL ++ post)); auto.
Qed.

Lemma NEW_FILE_METHOD_reads (form : HttpForm) (chunk pre l1 l2 post : Buffer)
    (pos : Z) (name type : JsString) :
  chunk = pre ++ l1 ++ EOL ++ l2 ++ EOL ++ EOL ++ post -> pos = blen pre ->
  ~ occurs EOL l1 -> ~ occurs EOL l2 ->
  exec1 REG_EXP_FILENAME (decode l1) = Ok name ->
  exec1 REG_EXP_CONTENT_TYPE (decode l2) = Ok type ->
  HttpForm_NEW_FILE_METHOD form chunk pos
  = Ok (push_file form name type,
        pos + blen l1 + blen EOL + blen l2 + blen EOL + blen EOL).
Proof.
  intros C S H1 H2 R1 R2.
  destruct (next_line chunk pre l1 (l2 ++ EOL ++ EOL ++ post) pos C S H1)
    as [N1 T1].
  destruct (next_line chunk (pre ++ l1 ++ EOL) l2 (EOL ++ post)
              (pos + blen l1 + blen EOL)) as [N2 T2].
  { rewrite C, <- !app_assoc. reflexivity. }
  { rewrite !blen_app. lia. }
  { exact H2. }
  destruct (next_line chunk (pre ++ l1 ++ EOL ++ l2 ++ EOL) [] post
              (pos + blen l1 + blen EOL + blen l2 + blen EOL)) as [N3 _].
  { rewrite C, <- !app_assoc. reflexivity. }
  { rewrite !blen_app. lia. }
  { intros (a & c & E). destruct a; discriminate. }
  unfold HttpForm_NEW_FILE_METHOD.
  rewrite N1, N2, N3. unfold line_toString.
  rewrite T1, R1, T2, R2. cbn [end_ blen length].
  change (blen []) with 0. f_equal. f_equal. lia.
Qed.

Lemma body_starts (b : Buffer) (rest : list Part) :
  exists t, multipart_body b rest = b ++ t.
Proof.
  destruct rest as [|p rest]; unfold multipart_body; cbn [flat_map app].
  - eexists. reflexivity.
  - unfold encode_part. rewrite <- !app_assoc. eexists. reflexivity.
Qed.

Lemma queue_push (form : HttpForm) (queue : list AsyncTask) (data : Buffer) :
  (if 0 <? Z.of_nat (List.length (files form))
   then match bind_write form data with
        | Ok t => Ok (queue ++ [t])
        | Throw e => Throw e
        end
   else Ok queue)
  = Ok (queue ++ pending form data).
Proof.
  unfold pending, bind_write.
  destruct (files form) as [|f0 fs] eqn:Fs.
  - rewrite lastFile_none by exact Fs. cbn. rewrite app_nil_r. reflexivity.
  - destruct (lastFile_some form) as [f Lf]; [rewrite Fs; discriminate|].
    rewrite Lf.
    assert (Nz : (0 <? Z.of_nat (List.length (f0 :: fs))) = true).
    { apply Z.ltb_lt. cbn [List.length]. lia. }
    rewrite Nz. reflexivity.
Qed.

Lemma lastFile_push (form : HttpForm) (name type : JsString) :
  lastFile (push_file form name type)
  = Some {| filename := name; contentType := type;
            stream := List.length (files form) |}.
Proof.
  unfold lastFile, push_file. cbn [files].
  destruct (files form ++ [{| filename := name; contentType := type;
                              stream := List.length (files form) |}])
    as [|x l] eqn:E.
  - destruct (files form); discriminate.
  - rewrite <- E. rewrite length_app. cbn [List.length].
    replace (List.length (files form) + 1 - 1)%nat
      with (List.length (files form)) by lia.
    rewrite nth_error_app2 by lia. rewrite Nat.sub_diag. reflexivity.
Qed.

(** The pass of the loop over one part of the body. *)
Lemma part_pass (b : Buffer) (form : HttpForm) (queue : list AsyncTask)
    (chunk pre tail : Buffer) (p : Part) (end0 : Z) :
  boundary form = b -> well_formed b p ->
  chunk = pre ++ encode_part b p ++ b ++ tail ->
  write_body chunk form queue (blen pre) end0
  = Continue (push_file form (part_filename p) (part_contentType p))
      (queue ++ pending form (Buf.subarray chunk end0 (blen pre)))
      (blen pre + blen (encode_part b p))
      (blen pre + blen (encode_part b p) - blen (part_data p) - blen EOL)
  /\ Buf.subarray chunk
       (blen pre + blen (encode_part b p) - blen (part_data p) - blen EOL)
       (blen pre + blen (encode_part b p))
     = part_data p ++ EOL.
Proof.
  intros B (H1 & H2 & R1 & R2 & D) C.
  assert (N : b <> []).
  { intro E. subst b. rewrite E in D. rewrite indexOf_empty in D.
    rewrite clamp_zero in D by apply blen_nonneg.
    pose proof (blen_nonneg (part_data p)). change (blen EOL) with 2 in D.
    lia. }
  set (l1 := part_disposition p) in *. set (l2 := part_type_line p) in *.
  set (d := part_data p) in *.
  assert (Len : blen (encode_part b p)
                = blen b + 2 + blen l1 + 2 + blen l2 + 2 + 2 + blen d + 2).
  { unfold encode_part. rewrite !blen_app. change (blen EOL) with 2.
    subst l1 l2 d. lia. }
  change (blen EOL) with 2.
  split.
  - unfold write_body. rewrite queue_push, B.
    rewrite (compare_at SEP chunk (pre ++ b) EOL
               (l1 ++ EOL ++ l2 ++ EOL ++ EOL ++ d ++ EOL ++ b ++ tail)).
    2:{ rewrite C. unfold encode_part. rewrite <- !app_assoc. reflexivity. }
    2:{ rewrite blen_app. reflexivity. }
    2:{ change (blen SEP) with 2. change (blen EOL) with 2. reflexivity. }
    change (Buf.lex SEP EOL =? 0) with false. cbv iota.
    rewrite (NEW_FILE_METHOD_reads form chunk (pre ++ b ++ EOL) l1 l2
               (d ++ EOL ++ b ++ tail) _
               (part_filename p) (part_contentType p)); try assumption.
    2:{ rewrite C. unfold encode_part. rewrite <- !app_assoc. reflexivity. }
    2:{ rewrite !blen_app. change (blen EOL) with 2. lia. }
    cbn [boundary push_file]. rewrite B. change (blen EOL) with 2.
    rewrite (indexOf_shift chunk
               (pre ++ b ++ EOL ++ l1 ++ EOL ++ l2 ++ EOL ++ EOL)
               (d ++ EOL ++ b) tail b _ (blen d + 2)).
    + f_equal; lia.
    + rewrite C. unfold encode_part. rewrite <- !app_assoc. reflexivity.
    + rewrite !blen_app. change (blen EOL) with 2. lia.
    + exact N.
    + exact D.
    + pose proof (blen_nonneg d). lia.
  - apply (subarray_at chunk
             (pre ++ b ++ EOL ++ l1 ++ EOL ++ l2 ++ EOL ++ EOL)
             (d ++ EOL) (b ++ tail)).
    + rewrite C. unfold encode_part. rewrite <- !app_assoc. reflexivity.
    + rewrite !blen_app. change (blen EOL) with 2. lia.
    + rewrite !blen_app. change (blen EOL) with 2. lia.
Qed.

Lemma write_loop_S (fuel : nat) (chunk : Buffer) (form : HttpForm)
    (queue : list AsyncTask) (start0 end0 : Z) :
  write_loop (S fuel) chunk form queue start0 end0
  = if start0 =? -1
    then Some (Ok {| scan_form := form; scan_queue := queue;
                     scan_end := end0 |})
    else match write_body chunk form queue start0 end0 with
         | Continue form' queue' start1 end1 =>
             write_loop fuel chunk form' queue' start1 end1
         | Break s => Some (Ok s)
         | Raise e => Some (Throw e)
         end.
Proof. reflexivity. Qed.

(** The loop of [_write] over what is left of a body. *)
Lemma body_loop (b : Buffer) (rest : list Part) :
  forall (pre : Buffer) (form : HttpForm) (queue : list AsyncTask)
         (end0 : Z) (extra : nat),
    boundary form = b -> Forall (well_formed b) rest ->
    write_loop (S (List.length rest) + extra)
      (pre ++ multipart_body b rest) form queue (blen pre) end0
    = Some (Ok
        {| scan_form :=
             {| boundary := b;
                files := files form
                         ++ indexed file_of (List.length (files form)) rest |};
           scan_queue :=
             queue
             ++ pending form
                  (Buf.subarray (pre ++ multipart_body b rest) end0 (blen pre))
             ++ indexed write_of (List.length (files form)) rest;
           scan_end := blen (pre ++ multipart_body b rest) |}).
Proof.
  induction rest as [|p rest IH]; intros pre form queue end0 extra B W.
  - change (S (List.length (@nil Part)) + extra)%nat with (S extra).
    rewrite write_loop_S. cbn [indexed].
    assert (E : (blen pre =? -1) = false).
    { pose proof (blen_nonneg pre). lia. }
    rewrite E. unfold write_body. rewrite queue_push, B.
    rewrite (compare_at SEP (pre ++ multipart_body b []) (pre ++ b) SEP []).
    2:{ unfold multipart_body. cbn [flat_map app].
        rewrite <- !app_assoc, app_nil_r. reflexivity. }
    2:{ rewrite blen_app. reflexivity. }
    2:{ reflexivity. }
    change (Buf.lex SEP SEP =? 0) with true. cbv iota.
    rewrite !app_nil_r. destruct form as [fb ff]. cbn in B. subst fb.
    reflexivity.
  - inversion W as [|p' rest' Wp Wr]; subst p' rest'.
    destruct (body_starts b rest) as [t T].
    assert (C : pre ++ multipart_body b (p :: rest)
                = pre ++ encode_part b p ++ b ++ t).
    { unfold multipart_body in *. cbn [flat_map].
      rewrite <- app_assoc, T. reflexivity. }
    destruct (part_pass b form queue _ pre t p end0 B Wp C) as [Ps Sub].
    change (S (List.length (p :: rest)) + extra)%nat
      with (S (S (List.length rest) + extra)).
    rewrite write_loop_S.
    assert (E : (blen pre =? -1) = false).
    { pose proof (blen_nonneg pre). lia. }
    rewrite E, Ps.
    assert (C2 : pre ++ multipart_body b (p :: rest)
                 = (pre ++ encode_part b p) ++ multipart_body b rest).
    { unfold multipart_body. cbn [flat_map]. rewrite <- !app_assoc.
      reflexivity. }
    rewrite C2 in Sub |- *.
    replace (blen pre + blen (encode_part b p))
      with (blen (pre ++ encode_part b p)) in * by apply blen_app.
    rewrite (IH (pre ++ encode_part b p)
               (push_file form (part_filename p) (part_contentType p)));
      [|exact B|exact Wr].
    rewrite Sub. unfold pending at 2. rewrite lastFile_push.
    cbn [stream files push_file indexed]. rewrite length_app.
    cbn [List.length]. rewrite Nat.add_1_r.
    rewrite <- !app_assoc. reflexivity.
Qed.

Lemma indexed_writes_single_shot (k : nat) (parts : list Part) :
  Forall calls_once (indexed write_of k parts) /\
  Forall quiet (indexed write_of k parts) /\
  Forall (fun t => Key_eqb (KSym END_EVENT)
                     (to_key (event_type (result_of t))) = false)
    (indexed write_of k parts).
Proof.
  revert k. induction parts as [|p parts IH]; intro k; cbn [indexed].
  - repeat split; constructor.
  - destruct (IH (S k)) as (I1 & I2 & I3).
    repeat split; constructor; auto.
    + reflexivity.
    + repeat constructor.
Qed.

Lemma sink_app (file : nat) (l l' : list Obs) :
  sink file (l ++ l') = sink file l ++ sink file l'.
Proof.
  induction l as [|o l IH]; [reflexivity|].
  destruct o; cbn [app sink]; try exact IH.
  destruct (Nat.eqb file0 file); [rewrite IH, app_assoc|]; congruence.
Qed.

Lemma sink_rounds (i k : nat) (parts : list Part) :
  sink i (flat_map round (indexed write_of k parts))
  = if (i <? k)%nat then []
    else match nth_error parts (i - k) with
         | Some p => part_data p ++ EOL
         | None => []
         end.
Proof.
  revert k. induction parts as [|p parts IH]; intro k.
  - cbn [indexed flat_map sink]. destruct (i <? k)%nat; [reflexivity|].
    destruct (i - k)%nat; reflexivity.
  - cbn [indexed flat_map]. rewrite sink_app, IH.
    unfold round, write_of. cbn [effect_obs app sink].
    destruct (Nat.eqb k i) eqn:E.
    + apply Nat.eqb_eq in E. subst k.
      rewrite Nat.sub_diag. cbn [nth_error].
      assert (L1 : (i <? i)%nat = false) by (apply Nat.ltb_ge; lia).
      assert (L2 : (i <? S i)%nat = true) by (apply Nat.ltb_lt; lia).
      rewrite L1, L2. rewrite !app_nil_r. reflexivity.
    + apply Nat.eqb_neq in E. cbn [app].
      destruct (i <? k)%nat eqn:L1.
      * apply Nat.ltb_lt in L1.
        assert (L2 : (i <? S k)%nat = true) by (apply Nat.ltb_lt; lia).
        rewrite L2. reflexivity.
      * apply Nat.ltb_ge in L1.
        assert (L2 : (i <? S k)%nat = false) by (apply Nat.ltb_ge; lia).
        rewrite L2.
        replace (i - k)%nat with (S (i - S k)) by lia. reflexivity.
Qed.

(** X6.  A body of well-formed parts and the terminal boundary, given to
    [_write] of a fresh form as one chunk: the form gets one file per part,
    in order, with the file name and the content type that the header
    lines of the part say, and the queue holds one write per part, to the
    sink of its file, of the bytes of the part followed by CRLF.  In every
    run that comes to rest each sink has received exactly these bytes, and
    the callback of the chunk has been called. *)
Theorem multipart_body_decodes (b : Buffer) (parts : list Part)
    (extra callback : nat) (Hparts : Forall (well_formed b) parts) :
  HttpForm_write (S (List.length parts) + extra) (fresh_form b)
    (multipart_body b parts) callback
  = Some (Ok ({| boundary := b; files := indexed file_of 0 parts |},
              once (VSym END_EVENT) callback
                (asyncQueue (indexed write_of 0 parts)))) /\
  (forall m,
     reachable (once (VSym END_EVENT) callback
                  (asyncQueue (indexed write_of 0 parts))) m ->
     quiescent m ->
     (forall i p, nth_error parts i = Some p ->
                  sink i (log m) = part_data p ++ EOL) /\
     In (Heard callback []) (log m)).
Proof.
  split.
  - unfold HttpForm_write, write_scan.
    destruct (body_starts b parts) as [t T].
    assert (I : Buf.indexOf (multipart_body b parts) (boundary (fresh_form b)) 0
                = 0).
    { cbn [boundary fresh_form]. rewrite T. apply indexOf_prefix. }
    rewrite I.
    pose proof (body_loop b parts [] (fresh_form b) [] 0 extra eq_refl Hparts)
      as L.
    cbn [app] in L. change (blen []) with 0 in L. rewrite L.
    cbn [scan_end scan_form scan_queue files fresh_form List.length app].
    rewrite Z.ltb_irrefl. unfold pending. cbn. reflexivity.
  - intros m R Q.
    destruct (indexed_writes_single_shot 0 parts) as (Ho & Hq & Hk).
    rewrite asyncQueue_eq in R. cbn [once it listeners microtasks waiting log
                                     crashed to_key app] in R.
    pose proof (reachable_QueueInv [(KSym END_EVENT, callback)] _ m Ho Hq R)
      as Inv.
    rewrite (queue_log_end_listener callback _ Hk) in Inv.
    rewrite (QueueInv_rest _ _ Inv Q).
    split.
    + intros i p Hp. rewrite sink_app, sink_rounds.
      change (i <? 0)%nat with false. cbv iota.
      rewrite Nat.sub_0_r, Hp. cbn [sink]. apply app_nil_r.
    + apply in_or_app. right. right. left. reflexivity.
Qed.

Lemma multipart_body_decodes_witness :
  HttpForm_write 2 (fresh_form (Buffer_from "--B"))
    (multipart_body (Buffer_from "--B") [single_part]) 1
  = Some (Ok ({| boundary := Buffer_from "--B";
                 files := indexed file_of 0 [single_part] |},
              once (VSym END_EVENT) 1
                (asyncQueue (indexed write_of 0 [single_part])))) /\
  (forall m,
     reachable (once (VSym END_EVENT) 1
                  (asyncQueue (indexed write_of 0 [single_part]))) m ->
     quiescent m ->
     (forall i p, nth_error [single_part] i = Some p ->
                  sink i (log m) = part_data p ++ EOL) /\
     In (Heard 1%nat []) (log m)).
Proof.
  apply (multipart_body_decodes (Buffer_from "--B") [single_part] 0 1).
  constructor; [|constructor].
  unfold well_formed. split; [|split; [|split; [|split]]].
  - apply indexOf_none. vm_compute. reflexivity.
  - apply indexOf_none. vm_compute. reflexivity.
  - vm_compute. reflexivity.
  - vm_compute. reflexivity.
  - vm_compute. reflexivity.
Defined.

(* ================================================================== *)
(** ** The writes that a chunk identifies                             *)
(* ================================================================== *)


Section Identified.

Variable chunk : Buffer.









End Identified.





(* ================================================================== *)
(** ** A body in two chunks                                           *)
(* ================================================================== *)

(** Where the needle is not found in the end of the buffer, it is not
    found in the buffer from the start of that end on. *)
Lemma indexOf_shift_none (chunk pre x needle : Buffer) (s : Z) :
  chunk = pre ++ x -> s = blen pre -> needle <> [] ->
  Buf.indexOf x needle 0 = -1 ->
  Buf.indexOf chunk needle s = -1.
Proof.
  intros C S N K.
  pose proof (blen_nonneg pre) as Qp. pose proof (blen_nonneg x) as Qx.
  assert (L : blen chunk = blen pre + blen x) by (rewrite C, blen_app; lia).
  pose proof (indexOf_first x needle 0 N) as A. cbv zeta in A.
  rewrite K in A. rewrite clamp_zero in A by exact Qx.
  destruct A as [[_ A]|(A0 & A1 & _)]; [|lia].
  pose proof (indexOf_first chunk needle s N) as B. cbv zeta in B.
  rewrite (clamp_inside (blen chunk) s) in B by lia.
  destruct B as [[B _]|(B0 & B1 & B2 & _)]; [exact B|].
  exfalso. set (e := Buf.indexOf chunk needle s) in *.
  replace (Z.to_nat e) with (length pre + (Z.to_nat e - length pre))%nat
    in B2 by (unfold blen in *; lia).
  rewrite C, skipn_past in B2. rewrite A in B2; [discriminate|lia].
Qed.

(** The boundary does not occur before its first occurrence ends. *)
Lemma cut_boundary_absent (d b1 b2 : Buffer) :
  b2 <> [] ->
  Buf.indexOf (d ++ b1 ++ b2) (b1 ++ b2) 0 = blen d ->
  Buf.indexOf (d ++ b1) (b1 ++ b2) 0 = -1.
Proof.
  intros N2 D.
  assert (N : b1 ++ b2 <> []).
  { intro E. apply app_eq_nil in E. destruct E as [_ E]. contradiction. }
  pose proof (blen_nonneg d) as Qd. pose proof (blen_nonneg b1) as Q1.
  pose proof (blen_pos b2 N2) as Q2.
  pose proof (indexOf_first (d ++ b1 ++ b2) (b1 ++ b2) 0 N) as A.
  cbv zeta in A. rewrite D in A.
  destruct A as [[A _]|(_ & _ & _ & A)]; [lia|].
  pose proof (indexOf_first (d ++ b1) (b1 ++ b2) 0 N) as B. cbv zeta in B.
  destruct B as [[B _]|(B0 & B1 & B2 & _)]; [exact B|].
  exfalso. set (e := Buf.indexOf (d ++ b1) (b1 ++ b2) 0) in *.
  rewrite clamp_zero in B0 by apply blen_nonneg.
  rewrite !blen_app in B1.
  apply (starts_with_prefix _ _ b2) in B2.
  rewrite <- skipn_inside in B2
    by (rewrite length_app; unfold blen in *; lia).
  rewrite <- app_assoc in B2.
  rewrite A in B2; [discriminate|].
  rewrite clamp_zero by (rewrite !blen_app; lia).
  unfold blen in *. lia.
Qed.

(** The boundary is first found behind the end of the data where it is
    first found behind the data. *)
Lemma suffix_boundary_first (x1 x2 b : Buffer) :
  b <> [] ->
  Buf.indexOf (x1 ++ x2 ++ b) b 0 = blen x1 + blen x2 ->
  Buf.indexOf (x2 ++ b) b 0 = blen x2.
Proof.
  intros N D.
  pose proof (blen_nonneg x1) as Q1. pose proof (blen_nonneg x2) as Q2.
  pose proof (indexOf_first (x1 ++ x2 ++ b) b 0 N) as A.
  cbv zeta in A. rewrite D in A.
  rewrite clamp_zero in A by apply blen_nonneg.
  destruct A as [[A _]|(_ & _ & _ & A)]; [lia|].
  apply indexOf_at_end; [exact N|].
  intros j Hj. rewrite <- (skipn_past x1 (x2 ++ b) j).
  apply A. unfold blen in *. lia.
Qed.

Lemma encode_part_header (b : Buffer) (p : Part) :
  encode_part b p = encode_header b p ++ part_data p ++ EOL.
Proof. unfold encode_part, encode_header. rewrite <- !app_assoc. reflexivity. Qed.

Lemma encode_header_starts (b : Buffer) (p : Part) :
  exists t, encode_header b p = b ++ t.
Proof. unfold encode_header. eexists. reflexivity. Qed.

Lemma encode_parts_snoc (b : Buffer) (parts : list Part) (p : Part) :
  encode_parts b (parts ++ [p])
  = encode_parts b parts ++ encode_header b p ++ part_data p ++ EOL.
Proof.
  unfold encode_parts. rewrite flat_map_app. cbn [flat_map].
  rewrite app_nil_r, encode_part_header. reflexivity.
Qed.

Lemma well_formed_boundary (b : Buffer) (p : Part) :
  well_formed b p -> b <> [].
Proof.
  intros (_ & _ & _ & _ & D) E. subst b. rewrite indexOf_empty in D.
  rewrite clamp_zero in D by apply blen_nonneg.
  pose proof (blen_nonneg (part_data p)). change (blen EOL) with 2 in D.
  lia.
Qed.

(** The pass of the loop over the header block of a part behind which the
    chunk holds no boundary. *)
Lemma open_part_pass (b : Buffer) (form : HttpForm)
    (queue : list AsyncTask) (chunk pre rest : Buffer) (p : Part) (end0 : Z) :
  boundary form = b -> well_formed b p ->
  chunk = pre ++ encode_header b p ++ rest ->
  Buf.indexOf rest b 0 = -1 ->
  write_body chunk form queue (blen pre) end0
  = Continue (push_file form (part_filename p) (part_contentType p))
      (queue ++ pending form (Buf.subarray chunk end0 (blen pre)))
      (-1)
      (blen pre + blen (encode_header b p))
  /\ Buf.subarray_from chunk (blen pre + blen (encode_header b p)) = rest.
Proof.
  intros B W C K. pose proof (well_formed_boundary b p W) as N.
  destruct W as (H1 & H2 & R1 & R2 & _).
  set (l1 := part_disposition p) in *. set (l2 := part_type_line p) in *.
  assert (Len : blen (encode_header b p)
                = blen b + 2 + blen l1 + 2 + blen l2 + 2 + 2).
  { unfold encode_header. rewrite !blen_app. change (blen EOL) with 2.
    subst l1 l2. lia. }
  pose proof (blen_nonneg pre) as Qp. pose proof (blen_nonneg b) as Qb.
  pose proof (blen_nonneg l1) as Ql1. pose proof (blen_nonneg l2) as Ql2.
  pose proof (blen_nonneg rest) as Qr.
  assert (Cs : chunk
               = (pre ++ b ++ EOL ++ l1 ++ EOL ++ l2 ++ EOL ++ EOL) ++ rest).
  { rewrite C. unfold encode_header. rewrite <- !app_assoc. reflexivity. }
  split.
  - unfold write_body. rewrite queue_push, B.
    rewrite (compare_at SEP chunk (pre ++ b) EOL
               (l1 ++ EOL ++ l2 ++ EOL ++ EOL ++ rest)).
    2:{ rewrite C. unfold encode_header. rewrite <- !app_assoc. reflexivity. }
    2:{ rewrite blen_app. reflexivity. }
    2:{ change (blen SEP) with 2. change (blen EOL) with 2. reflexivity. }
    change (Buf.lex SEP EOL =? 0) with false. cbv iota.
    rewrite (NEW_FILE_METHOD_reads form chunk (pre ++ b ++ EOL) l1 l2
               rest _
               (part_filename p) (part_contentType p)); try assumption.
    2:{ rewrite C. unfold encode_header. rewrite <- !app_assoc. reflexivity. }
    2:{ rewrite !blen_app. change (blen EOL) with 2. lia. }
    cbn [boundary push_file]. rewrite B. change (blen EOL) with 2.
    rewrite (indexOf_shift_none chunk
               (pre ++ b ++ EOL ++ l1 ++ EOL ++ l2 ++ EOL ++ EOL) rest b).
    + f_equal. lia.
    + exact Cs.
    + rewrite !blen_app. change (blen EOL) with 2. lia.
    + exact N.
    + exact K.
  - rewrite subarray_from_skipn.
    assert (Lc : blen chunk = blen pre + blen (encode_header b p) + blen rest).
    { rewrite C, !blen_app. lia. }
    rewrite clamp_inside by lia.
    replace (Z.to_nat (blen pre + blen (encode_header b p)))
      with (length (pre ++ b ++ EOL ++ l1 ++ EOL ++ l2 ++ EOL ++ EOL) + 0)%nat.
    + rewrite Cs at 1. rewrite skipn_past. reflexivity.
    + rewrite Nat.add_0_r.
      assert (E : Z.of_nat
                    (length (pre ++ b ++ EOL ++ l1 ++ EOL ++ l2 ++ EOL ++ EOL))
                  = blen pre + blen (encode_header b p)).
      { fold (blen (pre ++ b ++ EOL ++ l1 ++ EOL ++ l2 ++ EOL ++ EOL)).
        rewrite !blen_app. change (blen EOL) with 2. lia. }
      lia.
Qed.

(** The loop of [_write] over some parts and the header block of one more,
    behind which the chunk holds no boundary. *)
Lemma open_body_loop (b : Buffer) (p : Part) (rest : Buffer)
    (parts : list Part) :
  forall (pre : Buffer) (form : HttpForm) (queue : list AsyncTask)
         (end0 : Z) (extra : nat),
    boundary form = b ->
    Forall (well_formed b) parts -> well_formed b p ->
    Buf.indexOf rest b 0 = -1 ->
    write_loop (S (S (List.length parts)) + extra)
      (pre ++ encode_parts b parts ++ encode_header b p ++ rest)
      form queue (blen pre) end0
    = Some (Ok
        {| scan_form :=
             {| boundary := b;
                files := files form
                         ++ indexed file_of (List.length (files form))
                              (parts ++ [p]) |};
           scan_queue :=
             queue
             ++ pending form
                  (Buf.subarray
                     (pre ++ encode_parts b parts ++ encode_header b p ++ rest)
                     end0 (blen pre))
             ++ indexed write_of (List.length (files form)) parts;
           scan_end :=
             blen (pre ++ encode_parts b parts ++ encode_header b p) |})
    /\ Buf.subarray_from
         (pre ++ encode_parts b parts ++ encode_header b p ++ rest)
         (blen (pre ++ encode_parts b parts ++ encode_header b p))
       = rest.
Proof.
  induction parts as [|q parts IH]; intros pre form queue end0 extra B W Wp K.
  - unfold encode_parts. cbn [flat_map app List.length].
    destruct (open_part_pass b form queue
                (pre ++ encode_header b p ++ rest) pre rest p end0
                B Wp eq_refl K) as [Ps Sub].
    change (S (S 0) + extra)%nat with (S (S extra)).
    rewrite write_loop_S.
    assert (E : (blen pre =? -1) = false).
    { pose proof (blen_nonneg pre). lia. }
    rewrite E, Ps. rewrite write_loop_S. change (-1 =? -1) with true.
    cbv iota. rewrite blen_app. split; [|exact Sub].
    cbn [indexed]. rewrite app_nil_r.
    destruct form as [fb ff]. cbn in B. subst fb.
    unfold push_file. cbn [boundary files]. reflexivity.
  - inversion W as [|q' r' Wq Wr]; subst q' r'.
    assert (T : exists t,
              encode_parts b parts ++ encode_header b p ++ rest = b ++ t).
    { unfold encode_parts. destruct parts as [|q2 parts]; cbn [app flat_map].
      - destruct (encode_header_starts b p) as [t Et]. rewrite Et.
        rewrite <- !app_assoc. eexists. reflexivity.
      - unfold encode_part. rewrite <- !app_assoc. eexists. reflexivity. }
    destruct T as [t T].
    assert (C : pre ++ encode_parts b (q :: parts) ++ encode_header b p ++ rest
                = pre ++ encode_part b q ++ b ++ t).
    { unfold encode_parts in *. cbn [flat_map].
      rewrite <- app_assoc, T. reflexivity. }
    destruct (part_pass b form queue _ pre t q end0 B Wq C) as [Ps Sub].
    change (S (S (List.length (q :: parts))) + extra)%nat
      with (S (S (S (List.length parts)) + extra)).
    rewrite write_loop_S.
    assert (E : (blen pre =? -1) = false).
    { pose proof (blen_nonneg pre). lia. }
    rewrite E, Ps.
    assert (C2 : pre ++ encode_parts b (q :: parts) ++ encode_header b p ++ rest
                 = (pre ++ encode_part b q)
                   ++ encode_parts b parts ++ encode_header b p ++ rest).
    { unfold encode_parts. cbn [flat_map]. rewrite <- !app_assoc.
      reflexivity. }
    assert (C3 : pre ++ encode_parts b (q :: parts) ++ encode_header b p
                 = (pre ++ encode_part b q)
                   ++ encode_parts b parts ++ encode_header b p).
    { unfold encode_parts. cbn [flat_map]. rewrite <- !app_assoc.
      reflexivity. }
    rewrite C2 in Sub |- *. rewrite C3.
    replace (blen pre + blen (encode_part b q))
      with (blen (pre ++ encode_part b q)) in * by apply blen_app.
    destruct (IH (pre ++ encode_part b q)
                (push_file form (part_filename q) (part_contentType q))
                (queue
                 ++ pending form
                      (Buf.subarray
                         ((pre ++ encode_part b q)
                          ++ encode_parts b parts ++ encode_header b p ++ rest)
                         end0 (blen pre)))
                (blen (pre ++ encode_part b q) - blen (part_data q)
                 - blen EOL)
                extra B Wr Wp K) as [L S2].
    split; [|exact S2].
    rewrite L. rewrite Sub. unfold pending at 2. rewrite lastFile_push.
    cbn [stream files push_file indexed app]. rewrite length_app.
    cbn [List.length]. rewrite Nat.add_1_r.
    rewrite <- !app_assoc. reflexivity.
Qed.

Lemma indexed_length {A B} (f : nat -> A -> B) (i : nat) (l : list A) :
  List.length (indexed f i l) = List.length l.
Proof.
  revert i. induction l as [|a l IH]; intro i; cbn [indexed List.length];
    [reflexivity|]. rewrite IH. reflexivity.
Qed.

Lemma indexed_app {A B} (f : nat -> A -> B) (i : nat) (l l' : list A) :
  indexed f i (l ++ l')
  = indexed f i l ++ indexed f (i + List.length l) l'.
Proof.
  revert i. induction l as [|a l IH]; intro i; cbn [app indexed List.length].
  - rewrite Nat.add_0_r. reflexivity.
  - rewrite IH. do 3 f_equal. lia.
Qed.

(** The last file of a form whose files are those of some parts. *)
Lemma lastFile_indexed (b : Buffer) (parts : list Part) (p : Part) :
  lastFile {| boundary := b; files := indexed file_of 0 (parts ++ [p]) |}
  = Some (file_of (List.length parts) p).
Proof.
  unfold lastFile. cbn [files].
  destruct (indexed file_of 0 (parts ++ [p])) eqn:I.
  - destruct parts; discriminate.
  - rewrite <- I, indexed_length, length_app. cbn [List.length].
    rewrite Nat.add_1_r. cbn [Nat.sub]. rewrite Nat.sub_0_r.
    rewrite indexed_app. cbn [indexed].
    rewrite nth_error_app2 by (rewrite indexed_length; lia).
    rewrite indexed_length, Nat.sub_diag. reflexivity.
Qed.

(** [_write] of a fresh form for a chunk that ends behind the header block
    of a part, with no boundary behind it. *)
Lemma open_write (b : Buffer) (p : Part) (rest : Buffer) (parts : list Part)
    (extra callback : nat) :
  Forall (well_formed b) parts -> well_formed b p ->
  Buf.indexOf rest b 0 = -1 ->
  HttpForm_write (S (S (List.length parts)) + extra) (fresh_form b)
    (encode_parts b parts ++ encode_header b p ++ rest) callback
  = Some (Ok ({| boundary := b; files := indexed file_of 0 (parts ++ [p]) |},
              once (VSym END_EVENT) callback
                (asyncQueue (indexed write_of 0 parts
                             ++ last_write (List.length parts) rest)))).
Proof.
  intros W Wp K. unfold HttpForm_write, write_scan.
  assert (T : exists t,
            encode_parts b parts ++ encode_header b p ++ rest = b ++ t).
  { unfold encode_parts. destruct parts as [|q2 parts']; cbn [app flat_map].
    - destruct (encode_header_starts b p) as [t Et]. rewrite Et.
      rewrite <- !app_assoc. eexists. reflexivity.
    - unfold encode_part. rewrite <- !app_assoc. eexists. reflexivity. }
  destruct T as [t T].
  assert (I : Buf.indexOf (encode_parts b parts ++ encode_header b p ++ rest)
                (boundary (fresh_form b)) 0 = 0).
  { cbn [boundary fresh_form]. rewrite T. apply indexOf_prefix. }
  rewrite I.
  destruct (open_body_loop b p rest parts [] (fresh_form b) [] 0 extra
              eq_refl W Wp K) as [L Sub].
  cbn [app] in L, Sub. change (blen []) with 0 in L. rewrite L.
  cbn [scan_end scan_form scan_queue files fresh_form List.length app].
  unfold pending. cbn [lastFile files fresh_form app].
  replace (encode_parts b parts ++ encode_header b p ++ rest)
    with ((encode_parts b parts ++ encode_header b p) ++ rest) at 1
    by (rewrite <- app_assoc; reflexivity).
  rewrite (blen_app _ rest).
  replace (blen (encode_parts b parts ++ encode_header b p)
           <? blen (encode_parts b parts ++ encode_header b p) + blen rest)
    with (0 <? blen rest).
  2:{ destruct (0 <? blen rest) eqn:E; symmetry;
        [apply Z.ltb_lt; apply Z.ltb_lt in E|apply Z.ltb_ge; apply Z.ltb_ge in E];
        lia. }
  unfold last_write. destruct (0 <? blen rest); [|rewrite app_nil_r; reflexivity].
  unfold bind_write. rewrite lastFile_indexed, Sub. reflexivity.
Qed.

Lemma file_writes_single_shot (queue : list AsyncTask) :
  Forall (fun t => exists file data, t = FileWrite file data) queue ->
  Forall calls_once queue /\ Forall quiet queue /\
  Forall (fun t => Key_eqb (KSym END_EVENT)
                     (to_key (event_type (result_of t))) = false) queue.
Proof.
  induction 1 as [|t queue Ht _ IH].
  - repeat split; constructor.
  - destruct Ht as [file [data Ht]]. subst t.
    destruct IH as (IH1 & IH2 & IH3).
    repeat split; constructor; auto.
    + reflexivity.
    + repeat constructor.
Qed.

Lemma indexed_are_writes (k : nat) (parts : list Part) :
  Forall (fun t => exists file data, t = FileWrite file data)
    (indexed write_of k parts).
Proof.
  revert k. induction parts as [|p parts IH]; intro k; cbn [indexed];
    constructor; [|apply IH].
  eexists _, _. reflexivity.
Qed.

(** The log of a run of the queue of [_write] that has come to rest. *)
Lemma write_queue_rest (queue : list AsyncTask) (callback : nat)
    (m : Machine) :
  Forall (fun t => exists file data, t = FileWrite file data) queue ->
  reachable (once (VSym END_EVENT) callback (asyncQueue queue)) m ->
  quiescent m ->
  log m = flat_map round queue ++ [Emit (VSym END_EVENT) []; Heard callback []].
Proof.
  intros F R Q. destruct (file_writes_single_shot queue F) as (Ho & Hq & Hk).
  rewrite asyncQueue_eq in R.
  cbn [once it listeners microtasks waiting log crashed to_key app] in R.
  pose proof (reachable_QueueInv [(KSym END_EVENT, callback)] _ m Ho Hq R)
    as Inv.
  rewrite (queue_log_end_listener callback _ Hk) in Inv.
  exact (QueueInv_rest _ _ Inv Q).
Qed.

Lemma sink_last_write (i k : nat) (rest : Buffer) :
  sink i (flat_map round (last_write k rest))
  = if Nat.eqb k i then rest else [].
Proof.
  unfold last_write. destruct (0 <? blen rest) eqn:E.
  - cbn [flat_map round effect_obs sink app].
    destruct (Nat.eqb k i); [rewrite !app_nil_r|]; reflexivity.
  - apply Z.ltb_ge in E. pose proof (blen_nonneg rest).
    assert (R : rest = []).
    { destruct rest; [reflexivity|]. unfold blen in *. cbn [length] in *. lia. }
    subst rest. destruct (Nat.eqb k i); reflexivity.
Qed.

Lemma last_write_are_writes (k : nat) (rest : Buffer) :
  Forall (fun t => exists file data, t = FileWrite file data)
    (last_write k rest).
Proof.
  unfold last_write. destruct (0 <? blen rest); constructor;
    [eexists _, _; reflexivity|constructor].
Qed.

(** X7.  A boundary that the end of a chunk cuts is not recognised.  When
    a body is given in two chunks, the first one ending inside the
    terminal boundary, [_write] of the first chunk gives the file of the
    last part its bytes, the CRLF and the beginning of the boundary, and
    [_write] of the second chunk, which finds no boundary in it, gives the
    same file the rest of the boundary and the two dashes: the file ends
    with the whole terminal boundary.  The files of the parts before are
    as they should be. *)
Theorem boundary_cut_by_chunks_lands_in_the_file (b1 b2 : Buffer)
    (parts : list Part) (p : Part) (extra callback1 callback2 : nat)
    (Hparts : Forall (well_formed (b1 ++ b2)) (parts ++ [p]))
    (Hcut : b2 <> [])
    (Htail : ~ occurs (b1 ++ b2) (b2 ++ SEP)) :
  let b := b1 ++ b2 in
  let k := List.length parts in
  let chunk1 := encode_parts b (parts ++ [p]) ++ b1 in
  let chunk2 := b2 ++ SEP in
  let form1 := {| boundary := b; files := indexed file_of 0 (parts ++ [p]) |} in
  let queue1 := indexed write_of 0 parts
                ++ [FileWrite k (part_data p ++ EOL ++ b1)] in
  let queue2 := [FileWrite k chunk2] in
  chunk1 ++ chunk2 = multipart_body b (parts ++ [p]) /\
  HttpForm_write (S (S k) + extra) (fresh_form b) chunk1 callback1
  = Some (Ok (form1, once (VSym END_EVENT) callback1 (asyncQueue queue1))) /\
  HttpForm_write extra form1 chunk2 callback2
  = Some (Ok (form1, once (VSym END_EVENT) callback2 (asyncQueue queue2))) /\
  forall m1 m2,
    reachable (once (VSym END_EVENT) callback1 (asyncQueue queue1)) m1 ->
    quiescent m1 ->
    reachable (once (VSym END_EVENT) callback2 (asyncQueue queue2)) m2 ->
    quiescent m2 ->
    sink k (log m1 ++ log m2) = part_data p ++ EOL ++ b ++ SEP /\
    (forall i q, nth_error parts i = Some q ->
                 sink i (log m1 ++ log m2) = part_data q ++ EOL).
Proof.
  cbv zeta. set (b := b1 ++ b2). set (k := List.length parts).
  apply Forall_app in Hparts. destruct Hparts as [W Wp].
  inversion Wp as [|p' r' Wp' _]; subst p' r'. clear Wp.
  set (rest := part_data p ++ EOL ++ b1).
  assert (K : Buf.indexOf rest b 0 = -1).
  { destruct Wp' as (_ & _ & _ & _ & D).
    pose proof (cut_boundary_absent (part_data p ++ EOL) b1 b2 Hcut) as A.
    rewrite <- !app_assoc in A. apply A.
    rewrite D, blen_app. reflexivity. }
  assert (C1 : encode_parts b (parts ++ [p]) ++ b1
               = encode_parts b parts ++ encode_header b p ++ rest).
  { rewrite encode_parts_snoc. unfold rest. rewrite <- !app_assoc.
    reflexivity. }
  assert (Lw : last_write k rest = [FileWrite k rest]).
  { unfold last_write.
    assert (E : (0 <? blen rest) = true).
    { apply Z.ltb_lt. unfold rest. rewrite !blen_app.
      pose proof (blen_nonneg (part_data p)). pose proof (blen_nonneg b1).
      change (blen EOL) with 2. lia. }
    rewrite E. reflexivity. }
  split; [|split; [|split]].
  - unfold multipart_body, encode_parts, b. rewrite <- !app_assoc.
    reflexivity.
  - pose proof (open_write b p rest parts extra callback1 W Wp' K) as O.
    fold k in O. rewrite C1, O, Lw. reflexivity.
  - unfold HttpForm_write, write_scan.
    assert (Nb : ~ occurs (boundary {| boundary := b;
                                       files := indexed file_of 0
                                                  (parts ++ [p]) |})
                   (b2 ++ SEP)) by exact Htail.
    rewrite (write_loop_no_boundary extra (b2 ++ SEP) _ Nb).
    cbn [scan_end scan_form scan_queue app].
    assert (Lt : (0 <? blen (b2 ++ SEP)) = true).
    { apply Z.ltb_lt. rewrite blen_app. pose proof (blen_nonneg b2).
      change (blen SEP) with 2. lia. }
    rewrite Lt. unfold bind_write. rewrite lastFile_indexed.
    rewrite subarray_from_zero. reflexivity.
  - intros m1 m2 R1 Q1 R2 Q2.
    assert (F1 : Forall (fun t => exists file data, t = FileWrite file data)
                   (indexed write_of 0 parts ++ [FileWrite k rest])).
    { apply Forall_app. split; [apply indexed_are_writes|].
      constructor; [eexists _, _; reflexivity|constructor]. }
    assert (F2 : Forall (fun t => exists file data, t = FileWrite file data)
                   [FileWrite k (b2 ++ SEP)]).
    { constructor; [eexists _, _; reflexivity|constructor]. }
    rewrite (write_queue_rest _ callback1 m1 F1 R1 Q1).
    rewrite (write_queue_rest _ callback2 m2 F2 R2 Q2).
    split.
    + rewrite !sink_app, flat_map_app, sink_app, sink_rounds.
      assert (K0 : (k <? 0)%nat = false) by (apply Nat.ltb_ge; lia).
      rewrite K0, Nat.sub_0_r.
      assert (Kn : nth_error parts k = None)
        by (apply nth_error_None; unfold k; lia).
      rewrite Kn. cbn [flat_map round effect_obs sink app].
      rewrite Nat.eqb_refl, !app_nil_r. unfold rest, b.
      rewrite <- !app_assoc. reflexivity.
    + intros i q Hq.
      assert (Hi : (i < k)%nat)
        by (apply nth_error_Some; rewrite Hq; discriminate).
      rewrite !sink_app, flat_map_app, sink_app, sink_rounds.
      assert (K0 : (i <? 0)%nat = false) by (apply Nat.ltb_ge; lia).
      rewrite K0, Nat.sub_0_r, Hq.
      cbn [flat_map round effect_obs sink app].
      assert (Ne : Nat.eqb k i = false) by (apply Nat.eqb_neq; lia).
      rewrite Ne, !app_nil_r. reflexivity.
Qed.

Lemma boundary_cut_by_chunks_lands_in_the_file_witness :
  HttpForm_write 2 (fresh_form (Buffer_from "--B"))
    (encode_parts (Buffer_from "--B") [single_part] ++ Buffer_from "--") 1
  = Some (Ok ({| boundary := Buffer_from "--B";
                 files := indexed file_of 0 [single_part] |},
              once (VSym END_EVENT) 1
                (asyncQueue
                   [FileWrite 0 (Buffer_from "hello" ++ EOL
                                 ++ Buffer_from "--")]))) /\
  HttpForm_write 0 {| boundary := Buffer_from "--B";
                      files := indexed file_of 0 [single_part] |}
    (Buffer_from "B" ++ SEP) 2
  = Some (Ok ({| boundary := Buffer_from "--B";
                 files := indexed file_of 0 [single_part] |},
              once (VSym END_EVENT) 2
                (asyncQueue [FileWrite 0 (Buffer_from "B" ++ SEP)]))).
Proof.
  destruct (boundary_cut_by_chunks_lands_in_the_file
              (Buffer_from "--") (Buffer_from "B") [] single_part 0 1 2)
    as (_ & W1 & W2 & _).
  - constructor; [|constructor].
    unfold well_formed. split; [|split; [|split; [|split]]].
    + apply indexOf_none. vm_compute. reflexivity.
    + apply indexOf_none. vm_compute. reflexivity.
    + vm_compute. reflexivity.
    + vm_compute. reflexivity.
    + vm_compute. reflexivity.
  - discriminate.
  - apply indexOf_none. vm_compute. reflexivity.
  - split; [exact W1|exact W2].
Defined.

(** X8.  A body that is cut anywhere inside the data of a part or the
    CRLF behind it, and given to [_write] in two chunks, is decoded like
    the body in one chunk: the form gets one file per part, in order, and
    in runs of the two queues that come to rest every file has received
    the bytes of its part followed by CRLF, the file of the part that is
    cut in two writes. *)
Theorem body_cut_inside_a_part_decodes (b : Buffer)
    (parts1 parts2 : list Part) (p : Part) (x1 x2 : Buffer)
    (extra callback1 callback2 : nat)
    (Hparts1 : Forall (well_formed b) parts1) (Hpart : well_formed b p)
    (Hparts2 : Forall (well_formed b) parts2)
    (Hcut : part_data p ++ EOL = x1 ++ x2) :
  let k := List.length parts1 in
  let parts := parts1 ++ p :: parts2 in
  let chunk1 := encode_parts b parts1 ++ encode_header b p ++ x1 in
  let chunk2 := x2 ++ multipart_body b parts2 in
  let form1 := {| boundary := b; files := indexed file_of 0 (parts1 ++ [p]) |} in
  let queue1 := indexed write_of 0 parts1 ++ last_write k x1 in
  let queue2 := FileWrite k x2 :: indexed write_of (S k) parts2 in
  chunk1 ++ chunk2 = multipart_body b parts /\
  HttpForm_write (S (S k) + extra) (fresh_form b) chunk1 callback1
  = Some (Ok (form1, once (VSym END_EVENT) callback1 (asyncQueue queue1))) /\
  HttpForm_write (S (List.length parts2) + extra) form1 chunk2 callback2
  = Some (Ok ({| boundary := b; files := indexed file_of 0 parts |},
              once (VSym END_EVENT) callback2 (asyncQueue queue2))) /\
  forall m1 m2,
    reachable (once (VSym END_EVENT) callback1 (asyncQueue queue1)) m1 ->
    quiescent m1 ->
    reachable (once (VSym END_EVENT) callback2 (asyncQueue queue2)) m2 ->
    quiescent m2 ->
    forall i q, nth_error parts i = Some q ->
                sink i (log m1 ++ log m2) = part_data q ++ EOL.
Proof.
  cbv zeta. set (k := List.length parts1).
  pose proof (well_formed_boundary b p Hpart) as N.
  assert (D : Buf.indexOf (x1 ++ x2 ++ b) b 0 = blen x1 + blen x2).
  { destruct Hpart as (_ & _ & _ & _ & D).
    assert (E1 : x1 ++ x2 ++ b = part_data p ++ EOL ++ b)
      by (rewrite app_assoc, <- Hcut, <- app_assoc; reflexivity).
    assert (E2 : blen x1 + blen x2 = blen (part_data p) + blen EOL)
      by (rewrite <- !blen_app, Hcut; reflexivity).
    rewrite E1, E2. exact D. }
  assert (K1 : Buf.indexOf x1 b 0 = -1).
  { pose proof (blen_nonneg x1) as Q1. pose proof (blen_nonneg x2) as Q2.
    pose proof (blen_pos b N) as Qb.
    pose proof (indexOf_first (x1 ++ x2 ++ b) b 0 N) as A.
    cbv zeta in A. rewrite D in A.
    rewrite clamp_zero in A by apply blen_nonneg.
    destruct A as [[A _]|(_ & _ & _ & A)]; [lia|].
    pose proof (indexOf_first x1 b 0 N) as B. cbv zeta in B.
    destruct B as [[B _]|(B0 & B1 & B2 & _)]; [exact B|].
    exfalso. set (e := Buf.indexOf x1 b 0) in *.
    rewrite clamp_zero in B0 by apply blen_nonneg.
    apply (starts_with_prefix _ _ (x2 ++ b)) in B2.
    rewrite <- skipn_inside in B2 by (unfold blen in *; lia).
    rewrite A in B2; [discriminate|]. unfold blen in *. lia. }
  assert (K2 : Buf.indexOf (x2 ++ multipart_body b parts2) b 0 = blen x2).
  { destruct (body_starts b parts2) as [t T]. rewrite T.
    pose proof (indexOf_shift (x2 ++ b ++ t) [] (x2 ++ b) t b 0 (blen x2))
      as S. cbn [app] in S. rewrite <- app_assoc in S.
    change (blen []) with 0 in S. rewrite Z.add_0_l in S. apply S.
    - reflexivity.
    - reflexivity.
    - exact N.
    - apply (suffix_boundary_first x1 x2 b N D).
    - pose proof (blen_nonneg x2). lia. }
  split; [|split; [|split]].
  - unfold multipart_body, encode_parts. rewrite flat_map_app.
    cbn [flat_map]. rewrite encode_part_header, Hcut, <- !app_assoc.
    reflexivity.
  - apply (open_write b p x1 parts1 extra callback1 Hparts1 Hpart K1).
  - unfold HttpForm_write, write_scan. cbn [boundary]. rewrite K2.
    pose proof (body_loop b parts2 x2
                  {| boundary := b;
                     files := indexed file_of 0 (parts1 ++ [p]) |}
                  [] 0 extra eq_refl Hparts2) as L.
    rewrite L. cbn [scan_end scan_form scan_queue files app].
    rewrite Z.ltb_irrefl. unfold pending. rewrite lastFile_indexed.
    cbn [stream file_of app]. rewrite indexed_length, length_app.
    cbn [List.length]. fold k. rewrite Nat.add_1_r.
    destruct (body_starts b parts2) as [t T].
    rewrite (subarray_at (x2 ++ multipart_body b parts2) [] x2
               (multipart_body b parts2)) by reflexivity.
    replace (parts1 ++ p :: parts2) with ((parts1 ++ [p]) ++ parts2)
      by (rewrite <- app_assoc; reflexivity).
    rewrite (indexed_app file_of 0 (parts1 ++ [p]) parts2).
    rewrite length_app. cbn [List.length Nat.add]. fold k.
    rewrite Nat.add_1_r. reflexivity.
  - intros m1 m2 R1 Q1 R2 Q2 i q Hq.
    assert (F1 : Forall (fun t => exists file data, t = FileWrite file data)
                   (indexed write_of 0 parts1 ++ last_write k x1)).
    { apply Forall_app. split;
        [apply indexed_are_writes|apply last_write_are_writes]. }
    assert (F2 : Forall (fun t => exists file data, t = FileWrite file data)
                   (FileWrite k x2 :: indexed write_of (S k) parts2)).
    { constructor; [eexists _, _; reflexivity|apply indexed_are_writes]. }
    rewrite (write_queue_rest _ callback1 m1 F1 R1 Q1).
    rewrite (write_queue_rest _ callback2 m2 F2 R2 Q2).
    rewrite !sink_app, flat_map_app, sink_app, sink_rounds, sink_last_write.
    cbn [flat_map]. rewrite sink_app, sink_rounds.
    cbn [round effect_obs sink app].
    assert (K0 : (i <? 0)%nat = false) by (apply Nat.ltb_ge; lia).
    rewrite K0, Nat.sub_0_r, !app_nil_r.
    destruct (Nat.lt_trichotomy i k) as [Lt|[Eq|Gt]].
    + rewrite nth_error_app1 in Hq by exact Lt. rewrite Hq.
      assert (Ne : Nat.eqb k i = false) by (apply Nat.eqb_neq; lia).
      assert (Ls : (i <? S k)%nat = true) by (apply Nat.ltb_lt; lia).
      rewrite Ne, Ls, !app_nil_r. reflexivity.
    + subst i. rewrite nth_error_app2 in Hq by (unfold k; lia).
      replace (k - List.length parts1)%nat with 0%nat in Hq by (unfold k; lia).
      cbn [nth_error] in Hq. injection Hq as <-.
      assert (Kn : nth_error parts1 k = None)
        by (apply nth_error_None; unfold k; lia).
      assert (Ls : (k <? S k)%nat = true) by (apply Nat.ltb_lt; lia).
      rewrite Kn, Nat.eqb_refl, Ls, !app_nil_r. cbn [app].
      symmetry. exact Hcut.
    + rewrite nth_error_app2 in Hq by (unfold k in *; lia).
      replace (i - List.length parts1)%nat with (S (i - S k)) in Hq
        by (unfold k in *; lia).
      cbn [nth_error] in Hq.
      assert (Kn : nth_error parts1 i = None)
        by (apply nth_error_None; unfold k in *; lia).
      assert (Ne : Nat.eqb k i = false) by (apply Nat.eqb_neq; lia).
      assert (Ls : (i <? S k)%nat = false) by (apply Nat.ltb_ge; lia).
      rewrite Kn, Ne, Ls, Hq. reflexivity.
Qed.

Lemma body_cut_inside_a_part_decodes_witness :
  HttpForm_write 2 (fresh_form (Buffer_from "--B"))
    (encode_header (Buffer_from "--B") single_part ++ Buffer_from "hel") 1
  = Some (Ok ({| boundary := Buffer_from "--B";
                 files := indexed file_of 0 [single_part] |},
              once (VSym END_EVENT) 1
                (asyncQueue [FileWrite 0 (Buffer_from "hel")]))) /\
  HttpForm_write 1 {| boundary := Buffer_from "--B";
                      files := indexed file_of 0 [single_part] |}
    ((Buffer_from "lo" ++ EOL) ++ multipart_body (Buffer_from "--B") []) 2
  = Some (Ok ({| boundary := Buffer_from "--B";
                 files := indexed file_of 0 [single_part] |},
              once (VSym END_EVENT) 2
                (asyncQueue [FileWrite 0 (Buffer_from "lo" ++ EOL)]))).
Proof.
  destruct (body_cut_inside_a_part_decodes
              (Buffer_from "--B") [] [] single_part
              (Buffer_from "hel") (Buffer_from "lo" ++ EOL) 0 1 2)
    as (_ & W1 & W2 & _).
  - constructor.
  - unfold well_formed. split; [|split; [|split; [|split]]].
    + apply indexOf_none. vm_compute. reflexivity.
    + apply indexOf_none. vm_compute. reflexivity.
    + vm_compute. reflexivity.
    + vm_compute. reflexivity.
    + vm_compute. reflexivity.
  - constructor.
  - reflexivity.
  - split; [exact W1|exact W2].
Defined.

(* ================================================================== *)
(** ** The end of the decoding                                        *)
(* ================================================================== *)

Section Final.

Local Open Scope nat_scope.

Lemma closings_app (l l' : list Obs) :
  closings (l ++ l') = closings l ++ closings l'.
Proof.
  induction l as [|o l IH]; [reflexivity|].
  destruct o; cbn [app closings]; rewrite IH; reflexivity.
Qed.

Lemma hearings_app (l l' : list Obs) :
  hearings (l ++ l') = hearings l ++ hearings l'.
Proof.
  induction l as [|o l IH]; [reflexivity|].
  destruct o; cbn [app hearings]; rewrite IH; reflexivity.
Qed.

Lemma skipn_head {A} (k : nat) (l r : list A) (x : A) :
  skipn k l = x :: r ->
  k < List.length l /\ skipn (S k) l = r /\ firstn (S k) l = firstn k l ++ [x].
Proof.
  revert l. induction k as [|k IH]; intros l H.
  - cbn [skipn] in H. subst l. cbn. repeat split. lia.
  - destruct l as [|a l]; [discriminate|].
    cbn [skipn] in H. destruct (IH l H) as (L & S1 & F1).
    cbn [List.length]. repeat split; [lia|exact S1|].
    cbn [firstn app] in *. rewrite F1. reflexivity.
Qed.

Lemma nth_error_repeat_inv {A} (x y : A) (w j : nat) :
  nth_error (repeat x w) j = Some y -> y = x /\ j < w.
Proof.
  revert j. induction w as [|w IH]; intros j H.
  - destruct j; discriminate.
  - destruct j as [|j]; cbn in H.
    + injection H as <-. split; [reflexivity|lia].
    + destruct (IH j H) as [E L]. split; [exact E|lia].
Qed.

Lemma remove_nth_repeat {A} (x : A) (w j : nat) :
  j < w -> remove_nth j (repeat x w) = repeat x (w - 1).
Proof.
  intro L. unfold remove_nth.
  assert (F : forall n k, k <= n -> firstn k (repeat x n) = repeat x k).
  { induction n as [|n IH]; intros [|k] Hk; try reflexivity; [lia|].
    cbn [repeat firstn]. rewrite IH by lia. reflexivity. }
  assert (S1 : forall n k, skipn k (repeat x n) = repeat x (n - k)).
  { induction n as [|n IH]; intros [|k]; try reflexivity.
    cbn [repeat skipn]. rewrite IH. reflexivity. }
  rewrite F by lia. rewrite S1, <- repeat_app. f_equal. lia.
Qed.

Lemma repeat_snoc {A} (x : A) (w : nat) :
  repeat x w ++ [x] = repeat x (S w).
Proof.
  induction w as [|w IH]; [reflexivity|].
  cbn [repeat app]. rewrite IH. reflexivity.
Qed.

(** The continuation of asyncParallel when the listener of [_final] is the
    only one. *)
Lemma parallel_callback_final cb i mt w lg cr :
  parallel_callback []
    {| it := i; listeners := [(KSym END_EVENT, cb)]; microtasks := mt;
       waiting := w; log := lg; crashed := cr |}
  = Returned tt
      {| it := tl i;
         listeners := match i with
                      | [] => []
                      | _ :: _ => [(KSym END_EVENT, cb)]
                      end;
         microtasks := mt; waiting := w;
         log := lg ++ Called [] :: Emit VUndefined []
                :: match i with
                   | [] => [Emit (VSym END_EVENT) []; Heard cb []]
                   | _ :: _ => []
                   end;
         crashed := cr |}.
Proof.
  destruct i as [|t i]; unfold parallel_callback, bind, observe, emit_apply,
    emit, it_next, ret;
    cbn [it listeners microtasks waiting log crashed to_key is_error
         filter hears fst snd Key_eqb Symbol_eqb negb andb map app];
    rewrite <- ?app_assoc; reflexivity.
Qed.

Lemma FinalInv_step (ss : list nat) (cb : nat) (c : Choice) (m m' : Machine) :
  FinalInv ss cb m -> step c m = Some m' -> FinalInv ss cb m'.
Proof.
  intros Inv. destruct Inv as [lg k n Hck Hk Hn Hc Hl Hh | body Hc Hl Hh].
  - remember (skipn (S n) (map FileClose ss)) as i0 eqn:Sn.
    destruct c as [accepted|j].
    + (* the next stream begins to close *)
      unfold step. cbn [crashed microtasks].
      destruct (skipn k ss) as [|s rest] eqn:Sk; [discriminate|].
      cbn [map]. intro H. injection H as <-.
      destruct (skipn_head _ _ _ _ Sk) as (Lk & Sk' & Fk).
      unfold run_job, call_task, HttpFile_close, bind, observe, wait_for.
      cbn [it listeners microtasks waiting log crashed settle].
      rewrite repeat_snoc, <- Sk', <- app_assoc.
      replace (S (k - n)) with (S k - n) by lia. rewrite Sn.
      apply FClosing; try lia.
      * rewrite closings_app, Hc, Fk. reflexivity.
      * rewrite called_app, length_app, Hl. cbn. lia.
      * rewrite hearings_app, Hh. reflexivity.
    + (* a stream has closed *)
      unfold step. cbn [crashed waiting].
      destruct (nth_error (repeat (ParallelCallback, []) (k - n)) j)
        as [[cb' results]|] eqn:Nj; [|discriminate].
      destruct (nth_error_repeat_inv _ _ _ _ Nj) as [E Lj].
      injection E as -> ->.
      intro H. injection H as <-. unfold invoke.
      rewrite parallel_callback_final. cbn [settle].
      rewrite remove_nth_repeat by exact Lj.
      destruct i0 as [|t i].
      * (* it was the last one *)
        assert (Ln : S n = List.length ss).
        { assert (L : List.length (skipn (S n) (map FileClose ss)) = 0)
            by (rewrite <- Sn; reflexivity).
          rewrite length_skipn, length_map in L. lia. }
        assert (Ek : k = List.length ss) by lia.
        replace (k - n - 1) with 0 by lia. cbn [repeat tl].
        rewrite Ek, skipn_all. cbn [map].
        replace (lg ++ [Called []; Emit VUndefined [];
                        Emit (VSym END_EVENT) []; Heard cb []])
          with ((lg ++ [Called []; Emit VUndefined []])
                ++ [Emit (VSym END_EVENT) []; Heard cb []])
          by (rewrite <- app_assoc; reflexivity).
        apply FClosed.
        -- rewrite closings_app, Hc, Ek, firstn_all, app_nil_r. reflexivity.
        -- rewrite called_app, length_app, Hl. cbn. lia.
        -- rewrite hearings_app, Hh. reflexivity.
      * assert (Ln : S n < List.length ss).
        { assert (L : List.length (skipn (S n) (map FileClose ss)) > 0)
            by (rewrite <- Sn; cbn; lia).
          rewrite length_skipn, length_map in L. lia. }
        replace (tl (t :: i)) with (skipn (S (S n)) (map FileClose ss))
          by (rewrite <- tl_skipn, <- Sn; reflexivity).
        replace (k - n - 1) with (k - S n) by lia.
        apply FClosing; try lia.
        -- rewrite closings_app, Hc. cbn. apply app_nil_r.
        -- rewrite called_app, length_app, Hl. cbn. lia.
        -- rewrite hearings_app, Hh. reflexivity.
  - destruct c as [accepted|j]; [discriminate|destruct j; discriminate].
Qed.

Lemma FinalInv_start (s : nat) (ss : list nat) (cb : nat) :
  FinalInv (s :: ss) cb
    (once (VSym END_EVENT) cb (asyncParallel (map FileClose (s :: ss)))).
Proof.
  rewrite once_asyncParallel. cbn [map to_key tl]. rewrite app_nil_r.
  apply (FClosing (s :: ss) cb [] 0 0); cbn; try reflexivity; lia.
Qed.

Lemma reachable_FinalInv (s : nat) (ss : list nat) (cb : nat) (m : Machine) :
  reachable (once (VSym END_EVENT) cb
               (asyncParallel (map FileClose (s :: ss)))) m ->
  FinalInv (s :: ss) cb m.
Proof.
  intros [schedule <-].
  apply (run_preserves (FinalInv (s :: ss) cb)).
  - intros c m1 m2 I St. exact (FinalInv_step _ _ _ _ _ I St).
  - apply FinalInv_start.
Qed.

End Final.

(** X9.  [_final] closes the stream of every file of the form exactly once,
    in the order of the files, and calls its callback exactly once, after
    the last of the streams has closed: at every moment of a run the
    streams closed so far are a prefix of the streams of the files, the
    callback has been called only if all of them began to close and as
    many continuations were called as there are files, and a run that
    comes to rest ends with the emission of END_EVENT and the call of the
    callback.  The runtime can come to rest. *)
Theorem final_closes_every_file_once (form : HttpForm) (callback : nat) :
  (forall m, reachable (HttpForm_final form callback) m ->
     (exists later, map stream (files form) = closings (log m) ++ later) /\
     (hearings (log m) = [] \/
      (hearings (log m) = [(callback, [])] /\
       closings (log m) = map stream (files form) /\
       List.length (called (log m)) = List.length (files form)))) /\
  (forall m, reachable (HttpForm_final form callback) m -> quiescent m ->
     closings (log m) = map stream (files form) /\
     List.length (called (log m)) = List.length (files form) /\
     exists body,
       log m = body ++ [Emit (VSym END_EVENT) []; Heard callback []] /\
       hearings body = []) /\
  (exists schedule, quiescent (run schedule (HttpForm_final form callback))).
Proof.
  unfold HttpForm_final.
  rewrite <- (map_map stream FileClose).
  rewrite <- (length_map stream (files form)).
  destruct (map stream (files form)) as [|s ss].
  - (* no file *)
    cbn [map List.length]. rewrite once_asyncParallel.
    cbn [map to_key tl app].
    split; [|split].
    + intros m R. apply parallel_empty_reach in R.
      destruct R as [-> | ->]; cbn.
      * split; [exists []; reflexivity|left; reflexivity].
      * split; [exists []; reflexivity|right; repeat split; reflexivity].
    + intros m R Q. apply parallel_empty_reach in R.
      destruct R as [-> | ->].
      * destruct Q as [Q|[Q _]]; discriminate.
      * cbn. repeat split. exists []. split; reflexivity.
    + apply rest_exists.
  - split; [|split].
    + intros m R. apply reachable_FinalInv in R.
      destruct R as [lg k n Hck Hk Hn Hc Hl Hh | body Hc Hl Hh];
        cbn [log].
      * split; [|left; exact Hh].
        exists (skipn k (s :: ss)). rewrite Hc. symmetry.
        apply firstn_skipn.
      * rewrite closings_app, hearings_app, called_app, length_app, Hc, Hl, Hh.
        cbn [closings hearings called List.length app].
        rewrite !app_nil_r.
        split; [exists []; rewrite app_nil_r; reflexivity|].
        right. repeat split. lia.
    + intros m R Q. apply reachable_FinalInv in R.
      destruct R as [lg k n Hck Hk Hn Hc Hl Hh | body Hc Hl Hh].
      * exfalso. destruct Q as [Q|[Q1 Q2]]; [discriminate|].
        cbn [microtasks waiting] in Q1, Q2.
        assert (L1 : List.length (skipn k (s :: ss)) = 0%nat).
        { destruct (skipn k (s :: ss)); [reflexivity|discriminate]. }
        rewrite length_skipn in L1.
        assert (L2 : (k - n = 0)%nat).
        { destruct (k - n)%nat; [reflexivity|discriminate]. }
        lia.
      * cbn [log].
        rewrite closings_app, called_app, length_app, Hc, Hl.
        cbn [closings called List.length app]. rewrite !app_nil_r.
        repeat split; [lia|].
        exists body. split; [reflexivity|exact Hh].
    + apply rest_exists.
Qed.

(* ================================================================== *)
(** ** The boundary of a form                                         *)
(* ================================================================== *)

Lemma lit_rest_some (l s s' : JsString) :
  RegExp.lit_rest l s = Some s' -> s = l ++ s'.
Proof.
  revert s. induction l as [|a l IH]; intros s H.
  - cbn in H. injection H as <-. reflexivity.
  - destruct s as [|b s]; [discriminate|]. cbn [RegExp.lit_rest] in H.
    destruct (a =? b) eqn:E; [|discriminate].
    apply Z.eqb_eq in E. subst b. cbn [app]. f_equal. apply IH. exact H.
Qed.

Lemma lit_rest_app (l s' : JsString) :
  RegExp.lit_rest l (l ++ s') = Some s'.
Proof.
  induction l as [|a l IH]; [reflexivity|].
  cbn [app RegExp.lit_rest]. rewrite Z.eqb_refl. exact IH.
Qed.

(** The first way in which [cls*] matches is the longest one. *)
Lemma repeats_head (cls : Z -> bool) (s : JsString) :
  exists v post more,
    RegExp.repeats cls s = (v, post) :: more /\ s = v ++ post /\
    Forall (fun c => cls c = true) v /\
    (post = [] \/ exists d post', post = d :: post' /\ cls d = false) /\
    (v = [] -> more = []).
Proof.
  induction s as [|c s IH].
  - exists [], [], []. cbn. repeat split; auto.
  - cbn [RegExp.repeats]. destruct (cls c) eqn:E.
    + destruct IH as (v & post & more & R & S & F & P & _).
      exists (c :: v), post,
        (map (fun p => (c :: fst p, snd p)) more ++ [([], c :: s)]).
      rewrite R. cbn [map fst snd app]. repeat split.
      * rewrite S. reflexivity.
      * constructor; assumption.
      * exact P.
      * discriminate.
    + exists [], (c :: s), []. repeat split; auto.
      right. exists c, s. split; [reflexivity|exact E].
Qed.

(** What the regular expression of the boundary matches at the start of a
    string. *)
Lemma alts_boundary (s : JsString) :
  (RegExp.alts REG_EXP_BOUNDARY s = [] /\
   forall c post, s = js "boundary=" ++ c :: post -> c = 59) \/
  (exists a more v post,
     RegExp.alts REG_EXP_BOUNDARY s = a :: more /\
     RegExp.group1 a = Some v /\ s = js "boundary=" ++ v ++ post /\
     v <> [] /\ Forall (fun c => c <> 59) v /\
     (post = [] \/ exists post', post = 59 :: post')).
Proof.
  unfold REG_EXP_BOUNDARY. cbn [RegExp.alts].
  destruct (RegExp.lit_rest (js "boundary=") s) as [s'|] eqn:L.
  - apply lit_rest_some in L. subst s.
    cbn [flat_map RegExp.plain RegExp.rest fst snd]. rewrite app_nil_r.
    destruct (repeats_head not_semicolon s')
      as (v & post & more & R & S & F & P & M).
    rewrite R. destruct v as [|c v].
    + left. rewrite (M eq_refl). cbn. split; [reflexivity|].
      intros c post' E. apply (app_inv_head (js "boundary=")) in E.
      cbn [app] in S. subst s'.
      destruct P as [P|(d & post'' & P & Pd)]; [subst post; discriminate|].
      subst post. injection E as <- _.
      unfold not_semicolon in Pd. apply negb_false_iff in Pd. lia.
    + right. cbn [filter RegExp.nonempty fst map].
      eexists _, _, (c :: v), post. split; [reflexivity|].
      cbn [RegExp.group1 RegExp.consumed RegExp.plain fst].
      repeat split.
      * rewrite S. reflexivity.
      * discriminate.
      * eapply Forall_impl; [|exact F]. intros a Ha.
        unfold not_semicolon in Ha. apply negb_true_iff in Ha. lia.
      * destruct P as [P|(d & post' & P & Pd)]; [left; exact P|].
        right. exists post'. rewrite P. f_equal.
        unfold not_semicolon in Pd. apply negb_false_iff in Pd. lia.
  - left. split; [reflexivity|].
    intros c post E. subst s. rewrite lit_rest_app in L. discriminate.
Qed.

(** The match is the leftmost one. *)
Lemma exec_boundary (s : JsString) :
  (RegExp.exec REG_EXP_BOUNDARY s = None /\
   forall pre c post, s = pre ++ js "boundary=" ++ c :: post -> c = 59) \/
  (exists a pre v post,
     RegExp.exec REG_EXP_BOUNDARY s = Some a /\
     RegExp.group1 a = Some v /\ s = pre ++ js "boundary=" ++ v ++ post /\
     v <> [] /\ Forall (fun c => c <> 59) v /\
     (post = [] \/ exists post', post = 59 :: post') /\
     forall pre' c post',
       s = pre' ++ js "boundary=" ++ c :: post' -> c <> 59 ->
       (List.length pre <= List.length pre')%nat).
Proof.
  induction s as [|x s IH].
  - left. split; [reflexivity|].
    intros pre c post E. destruct pre; discriminate.
  - cbn [RegExp.exec].
    destruct (alts_boundary (x :: s))
      as [[A N]|(a & more & v & post & A & G & S & V & F & P)].
    + rewrite A.
      destruct IH as [[E N']|(a & pre & v & post & E & G & S & V & F & P & Lm)].
      * left. split; [exact E|].
        intros [|y pre] c post Eq.
        -- apply (N c post). exact Eq.
        -- cbn [app] in Eq. injection Eq as _ Eq. apply (N' pre c post Eq).
      * right. exists a, (x :: pre), v, post.
        repeat split; try assumption.
        -- rewrite S. reflexivity.
        -- intros [|y pre'] c post' Eq Hc.
           ++ exfalso. apply Hc. apply (N c post'). exact Eq.
           ++ cbn [app] in Eq. injection Eq as _ Eq.
              cbn [List.length]. apply le_n_S. apply (Lm pre' c post' Eq Hc).
    + rewrite A. right. exists a, [], v, post.
      repeat split; try assumption.
      intros. cbn. lia.
Qed.

Lemma Buffer_from_dashes (v : JsString) :
  Buffer_from_string (js "--" ++ v) = SEP ++ Buffer_from_string v.
Proof. reflexivity. Qed.

(** X10.  The constructor reads the boundary from the content type: it
    throws a TypeError when the content type is undefined or holds no
    [boundary=] that a character other than a semicolon follows;
    otherwise the form has no file, and its boundary is two dashes
    followed by the UTF-8 encoding of the characters that follow the
    leftmost such [boundary=], up to the next semicolon or the end of the
    string. *)
Theorem constructor_reads_the_boundary (contentType : option JsString) :
  match HttpForm_constructor contentType with
  | Throw e =>
      e = TypeError /\
      forall s, contentType = Some s ->
        forall pre c post, s = pre ++ js "boundary=" ++ c :: post -> c = 59
  | Ok form =>
      files form = [] /\
      exists s pre v post,
        contentType = Some s /\
        s = pre ++ js "boundary=" ++ v ++ post /\
        v <> [] /\ Forall (fun c => c <> 59) v /\
        (post = [] \/ exists post', post = 59 :: post') /\
        (forall pre' c post',
           s = pre' ++ js "boundary=" ++ c :: post' -> c <> 59 ->
           (List.length pre <= List.length pre')%nat) /\
        boundary form = SEP ++ Buffer_from_string v
  end.
Proof.
  destruct contentType as [s|]; cbn [HttpForm_constructor].
  - unfold exec1.
    destruct (exec_boundary s)
      as [[E N]|(a & pre & v & post & E & G & S & V & F & P & Lm)];
      rewrite E.
    + split; [reflexivity|]. intros s' Es. injection Es as <-. exact N.
    + rewrite G. cbn [files boundary]. split; [reflexivity|].
      exists s, pre, v, post. repeat split; try assumption.
  - split; [reflexivity|]. intros s Es. discriminate.
Qed.

(* ================================================================== *)
(** ** Camel case                                                     *)
(* ================================================================== *)

Section CamelCaseFacts.

Local Open Scope nat_scope.

Variables toUpperCase toLowerCase : JsString -> JsString.

Lemma find_index_some (cls : Z -> bool) (s : JsString) (i j : nat) :
  find_index cls s i = Some j ->
  exists w d rest,
    s = w ++ d :: rest /\ Forall (fun c => cls c = false) w /\
    cls d = true /\ j = i + List.length w.
Proof.
  revert i. induction s as [|c s IH]; intros i H; [discriminate|].
  cbn [find_index] in H. destruct (cls c) eqn:E.
  - injection H as <-. exists [], c, s.
    repeat split; auto; cbn [List.length]; lia.
  - destruct (IH _ H) as (w & d & rest & S1 & F & D & J).
    exists (c :: w), d, rest. rewrite S1.
    repeat split; auto; cbn [List.length]; lia.
Qed.

Lemma find_index_none (cls : Z -> bool) (s : JsString) (i : nat) :
  find_index cls s i = None -> Forall (fun c => cls c = false) s.
Proof.
  revert i. induction s as [|c s IH]; intros i H; [constructor|].
  cbn [find_index] in H. destruct (cls c) eqn:E; [discriminate|].
  constructor; [exact E|]. exact (IH _ H).
Qed.

Lemma split_words_plain (s : JsString) :
  Forall (fun c => separator c = false) s -> split_words s = ([], s).
Proof.
  induction 1 as [|c s Hc _ IH]; [reflexivity|].
  cbn [split_words]. rewrite IH, Hc. reflexivity.
Qed.

Lemma split_words_word (w rest : JsString) (d : Z) :
  Forall (fun c => separator c = false) w -> separator d = true ->
  split_words (w ++ d :: rest)
  = ((w, d) :: fst (split_words rest), snd (split_words rest)).
Proof.
  intros F D. induction F as [|c w Hc _ IH].
  - cbn [app split_words]. rewrite D.
    destruct (split_words rest). reflexivity.
  - cbn [app split_words]. rewrite IH, Hc. reflexivity.
Qed.

(** What [exec] finds behind a separator. *)
Lemma exec_global_behind (pre rest : JsString) :
  exec_global (List.length pre) (pre ++ rest)
  = match find_index separator rest (List.length pre) with
    | Some index => (Some index, S index)
    | None => (None, 0)
    end.
Proof.
  unfold exec_global.
  rewrite <- (Nat.add_0_r (List.length pre)) at 1.
  rewrite skipn_past. reflexivity.
Qed.

Lemma substring_swapped (s : JsString) (a b : nat) :
  substring s a b = substring s b a.
Proof.
  unfold substring. cbv zeta.
  rewrite (Nat.max_comm (Nat.min a (List.length s))).
  rewrite (Nat.min_comm (Nat.min a (List.length s))).
  reflexivity.
Qed.

Lemma substring_inside (s pre x post : JsString) (a b : nat) :
  s = pre ++ x ++ post -> a = List.length pre ->
  b = List.length pre + List.length x ->
  substring s a b = x.
Proof.
  intros -> -> ->. unfold substring. cbv zeta.
  rewrite !length_app.
  replace (Nat.min (List.length pre)
             (List.length pre + (List.length x + List.length post)))
    with (List.length pre + 0) by lia.
  replace (Nat.min (List.length pre + List.length x)
             (List.length pre + (List.length x + List.length post)))
    with (List.length pre + List.length x) by lia.
  replace (Nat.max (List.length pre + 0) (List.length pre + List.length x)
           - Nat.min (List.length pre + 0)
               (List.length pre + List.length x))
    with (List.length x) by lia.
  replace (Nat.min (List.length pre + 0) (List.length pre + List.length x))
    with (List.length pre + 0) by lia.
  rewrite skipn_past. cbn [skipn].
  rewrite firstn_app, Nat.sub_diag, firstn_all. cbn [firstn].
  apply app_nil_r.
Qed.

Lemma camel_loop_words (fuel : nat) :
  forall (pre w rest result : JsString) (d : Z),
    Forall (fun c => separator c = false) w -> separator d = true ->
    List.length rest < fuel ->
    camel_loop toUpperCase toLowerCase fuel (pre ++ w ++ d :: rest) result
      (List.length pre) (Some (List.length pre + List.length w))
      (S (List.length pre + List.length w))
    = Some (Ok (result
                ++ flat_map (camel_piece toUpperCase toLowerCase)
                     ((w, d) :: fst (split_words rest)),
                List.length (pre ++ w ++ d :: rest)
                - List.length (snd (split_words rest)))).
Proof.
  induction fuel as [|fuel IH]; intros pre w rest result d F D L; [lia|].
  cbn [camel_loop].
  assert (P : exists c,
            nth_error (pre ++ w ++ d :: rest) (List.length pre) = Some c /\
            toUpperCase [c]
            ++ toLowerCase (substring (pre ++ w ++ d :: rest)
                              (List.length pre + 1)
                              (List.length pre + List.length w))
            = camel_piece toUpperCase toLowerCase (w, d)).
  { rewrite nth_error_app2 by lia. rewrite Nat.sub_diag.
    unfold camel_piece. cbn [fst snd].
    destruct w as [|c w].
    - exists d. split; [reflexivity|].
      rewrite substring_swapped.
      rewrite (substring_inside (pre ++ [] ++ d :: rest) pre [d] rest);
        [reflexivity|reflexivity|cbn [List.length]; lia
        |cbn [List.length]; lia].
    - exists c. split; [reflexivity|].
      rewrite (substring_inside (pre ++ (c :: w) ++ d :: rest)
                 (pre ++ [c]) w (d :: rest));
        [reflexivity| | |].
      + rewrite <- !app_assoc. reflexivity.
      + rewrite length_app. reflexivity.
      + rewrite length_app. cbn [List.length]. lia. }
  destruct P as (c & Nc & Pc). rewrite Nc, Pc.
  replace (pre ++ w ++ d :: rest) with ((pre ++ w ++ [d]) ++ rest)
    by (rewrite <- !app_assoc; reflexivity).
  replace (S (List.length pre + List.length w))
    with (List.length (pre ++ w ++ [d]))
    by (rewrite !length_app; cbn; lia).
  rewrite exec_global_behind.
  replace (List.length pre + List.length w + 1)
    with (List.length (pre ++ w ++ [d]))
    by (rewrite !length_app; cbn; lia).
  destruct (find_index separator rest (List.length (pre ++ w ++ [d])))
    as [j|] eqn:Fi.
  - destruct (find_index_some _ _ _ _ Fi) as (w' & d' & rest' & S1 & F' & D' & J).
    subst rest j.
    rewrite (IH (pre ++ w ++ [d]) w' rest' _ d' F' D').
    + rewrite (split_words_word w' rest' d' F' D').
      cbn [fst snd flat_map]. rewrite <- !app_assoc. reflexivity.
    + rewrite length_app in L. cbn [List.length] in L. lia.
  - apply find_index_none in Fi. rewrite (split_words_plain rest Fi).
    destruct fuel; cbn [camel_loop fst snd flat_map];
      rewrite !app_nil_r; repeat f_equal;
      rewrite !length_app; cbn [List.length]; lia.
Qed.

Lemma split_words_nil (t last : JsString) :
  split_words t = ([], last) -> last = t.
Proof.
  revert last. induction t as [|c t IH]; intros last H.
  - cbn in H. injection H as <-. reflexivity.
  - cbn [split_words] in H.
    destruct (split_words t) as [ws' last'] eqn:St.
    destruct (separator c); [discriminate|].
    destruct ws' as [|[w0 d0] ws']; [|discriminate].
    injection H as <-. f_equal. apply IH. reflexivity.
Qed.

(** What follows the last separator is the end of the string. *)
Lemma split_words_last (s : JsString) :
  skipn (List.length s - List.length (snd (split_words s))) s
  = snd (split_words s) /\
  List.length (snd (split_words s)) <= List.length s.
Proof.
  induction s as [|c s [IH Le]]; [split; [reflexivity|cbn; lia]|].
  cbn [split_words]. destruct (split_words s) as [ws last] eqn:Ss.
  cbn [snd] in *.
  destruct (separator c).
  - cbn [snd List.length]. split; [|lia].
    replace (S (List.length s) - List.length last)
      with (S (List.length s - List.length last)) by lia.
    cbn [skipn]. exact IH.
  - destruct ws as [|[w0 d0] ws]; cbn [snd List.length].
    + rewrite (split_words_nil s last Ss).
      rewrite Nat.sub_diag. split; [reflexivity|lia].
    + split; [|lia].
      replace (S (List.length s) - List.length last)
        with (S (List.length s - List.length last)) by lia.
      cbn [skipn]. exact IH.
Qed.

(** What [toCamelCase] returns, in terms of the pieces of the string. *)
Lemma toCamelCase_splits (str : JsString) (extra : nat) :
  toCamelCase toUpperCase toLowerCase (List.length str + extra) str
  = Some (Ok
      match split_words str with
      | ([], _) => toLowerCase str
      | (ws, last) =>
          let result := flat_map (camel_piece toUpperCase toLowerCase) ws in
          toLowerCase (firstn 1 result) ++ skipn 1 result
          ++ toUpperCase (firstn 1 last) ++ toLowerCase (skipn 1 last)
      end).
Proof.
  unfold toCamelCase.
  pose proof (exec_global_behind [] str) as E. cbn [List.length app] in E.
  rewrite E.
  destruct (find_index separator str 0) as [j|] eqn:Fi.
  - destruct (find_index_some _ _ _ _ Fi) as (w & d & rest & S1 & F & D & J).
    subst str j. cbn [Nat.add].
    pose proof (camel_loop_words (List.length (w ++ d :: rest) + extra)
                  [] w rest [] d F D) as L.
    cbn [List.length app Nat.add] in L. rewrite L.
    + destruct (split_words_last (w ++ d :: rest)) as [Sp _].
      rewrite (split_words_word w rest d F D) in Sp |- *.
      cbn [fst snd] in *. unfold substr, substring_from. cbn [skipn].
      rewrite Sp.
      replace (List.length (w ++ d :: rest)
               - List.length (snd (split_words rest)) + 1)
        with (1 + (List.length (w ++ d :: rest)
                   - List.length (snd (split_words rest)))) by lia.
      rewrite <- skipn_skipn, Sp. reflexivity.
    + rewrite length_app. cbn [List.length]. lia.
  - apply find_index_none in Fi. rewrite (split_words_plain str Fi).
    reflexivity.
Qed.

(** X11.  [toCamelCase] never throws and ends within as many passes of its
    loop as the string has characters.  Without a separator the result is
    the string in lower case.  Otherwise the string is cut at its
    separators; each piece before a separator gives its first character in
    upper case and the others in lower case, but an empty piece gives its
    separator twice; of these pieces joined, the first character is put in
    lower case; the piece behind the last separator follows, with its
    first character in upper case and the others in lower case. *)
Theorem toCamelCase_cuts_at_separators (str : JsString) (extra : nat) :
  toCamelCase toUpperCase toLowerCase (List.length str + extra) str
  = Some (Ok
      match split_words str with
      | ([], _) => toLowerCase str
      | (ws, last) =>
          let result := flat_map (camel_piece toUpperCase toLowerCase) ws in
          toLowerCase (firstn 1 result) ++ skipn 1 result
          ++ toUpperCase (firstn 1 last) ++ toLowerCase (skipn 1 last)
      end).
Proof. exact (toCamelCase_splits str extra). Qed.

End CamelCaseFacts.

Lemma split_words_joined (w0 : JsString) (tail : list (Z * JsString)) :
  word w0 ->
  Forall (fun p => separator (fst p) = true /\ word (snd p)) tail ->
  split_words (joined w0 tail) = shifted w0 tail.
Proof.
  intros W T. revert w0 W. induction T as [|[d w] tail [D Ww] _ IH];
    intros w0 [_ F0]; unfold joined in *; cbn [flat_map fst snd shifted].
  - rewrite app_nil_r. apply split_words_plain. exact F0.
  - cbn [fst snd] in D. cbn [app].
    rewrite (split_words_word w0 _ d F0 D), (IH w Ww).
    destruct (shifted w tail). reflexivity.
Qed.

Lemma camel_pieces_joined (w0 : JsString) (tail : list (Z * JsString)) :
  word w0 -> Forall (fun p => word (snd p)) tail ->
  flat_map (camel_piece toUpperCase_ascii toLowerCase_ascii)
    (fst (shifted w0 tail))
  ++ capitalized (snd (shifted w0 tail))
  = capitalized w0 ++ flat_map (fun p => capitalized (snd p)) tail.
Proof.
  intros W T. revert w0 W. induction T as [|[d w] tail Ww _ IH];
    intros w0 [N0 F0]; cbn [shifted flat_map fst snd].
  - rewrite app_nil_r. reflexivity.
  - cbn [snd] in Ww. specialize (IH w Ww).
    destruct (shifted w tail) as [ps last]. cbn [fst snd flat_map] in *.
    rewrite <- app_assoc, IH. f_equal.
    destruct w0 as [|c w0]; [congruence|]. reflexivity.
Qed.

Lemma lower_upper (c : Z) : ascii_lower (ascii_upper c) = ascii_lower c.
Proof.
  unfold ascii_lower, ascii_upper.
  destruct ((97 <=? c) && (c <=? 122)) eqn:E1.
  - apply andb_true_iff in E1. destruct E1 as [A B].
    apply Z.leb_le in A. apply Z.leb_le in B.
    assert (U : (65 <=? c - 32) && (c - 32 <=? 90) = true).
    { apply andb_true_iff. split; apply Z.leb_le; lia. }
    assert (V : (65 <=? c) && (c <=? 90) = false).
    { apply andb_false_iff. right. apply Z.leb_gt. lia. }
    rewrite U, V. lia.
  - reflexivity.
Qed.

(** X12.  For a string of ASCII characters that is made of words (each not
    empty and without separator) joined by single separators,
    [toCamelCase] gives camel case: the first word in lower case, and each
    further word with its first character in upper case and the others in
    lower case; the separators are gone. *)
Theorem toCamelCase_of_words (w0 : JsString) (tail : list (Z * JsString))
    (extra : nat)
    (Hascii : ascii_string (joined w0 tail))
    (Hfirst : word w0)
    (Htail : Forall (fun p => separator (fst p) = true /\ word (snd p)) tail) :
  toCamelCase toUpperCase_ascii toLowerCase_ascii
    (List.length (joined w0 tail) + extra)%nat (joined w0 tail)
  = Some (Ok (toLowerCase_ascii w0
              ++ flat_map (fun p => capitalized (snd p)) tail)).
Proof.
  rewrite toCamelCase_splits.
  rewrite (split_words_joined w0 tail Hfirst Htail).
  assert (Tw : Forall (fun p : Z * JsString => word (snd p)) tail).
  { eapply Forall_impl; [|exact Htail]. intros p [_ H]. exact H. }
  pose proof (camel_pieces_joined w0 tail Hfirst Tw) as P.
  destruct tail as [|[d w] tail].
  - cbn [shifted flat_map]. unfold joined. cbn [flat_map].
    rewrite !app_nil_r. reflexivity.
  - cbn [shifted] in *. destruct (shifted w tail) as [ps last].
    cbn [fst snd] in P. cbv zeta. f_equal. f_equal.
    set (r := flat_map (camel_piece toUpperCase_ascii toLowerCase_ascii)
                ((w0, d) :: ps)) in *.
    destruct Hfirst as [N0 _]. destruct w0 as [|c w0]; [congruence|].
    assert (R : r = ascii_upper c :: skipn 1 r) by (subst r; reflexivity).
    assert (F1 : firstn 1 r = [ascii_upper c]) by (subst r; reflexivity).
    rewrite R in P.
    change (capitalized (c :: w0))
      with (ascii_upper c :: toLowerCase_ascii w0) in P.
    cbn [app] in P. injection P as P.
    rewrite F1. cbn [toLowerCase_ascii map app]. rewrite lower_upper.
    f_equal. exact P.
Qed.

Lemma toCamelCase_of_words_witness :
  toCamelCase toUpperCase_ascii toLowerCase_ascii 8 (js "M-SEARCH")
  = Some (Ok (js "mSearch")).
Proof.
  apply (toCamelCase_of_words (js "M") [(45, js "SEARCH")] 0).
  - unfold ascii_string. cbn.
    repeat (apply Forall_cons; [lia|]). apply Forall_nil.
  - split; [discriminate|]. cbn.
    repeat (apply Forall_cons; [reflexivity|]). apply Forall_nil.
  - apply Forall_cons; [|apply Forall_nil].
    split; [reflexivity|]. split; [discriminate|]. cbn.
    repeat (apply Forall_cons; [reflexivity|]). apply Forall_nil.
Defined.

(* ================================================================== *)
(** ** Default values                                                 *)
(* ================================================================== *)

Lemma units_eqb_eq (s t : JsString) : units_eqb s t = true <-> s = t.
Proof.
  revert t. induction s as [|a s IH]; intros [|b t]; cbn [units_eqb];
    try (split; [discriminate|discriminate]); try (split; reflexivity).
  rewrite andb_true_iff, Z.eqb_eq, IH. split.
  - intros [-> ->]. reflexivity.
  - intro H. injection H as -> ->. split; reflexivity.
Qed.

Lemma PropertyKey_eqb_eq (a b : PropertyKey) :
  PropertyKey_eqb a b = true <-> a = b.
Proof.
  destruct a as [s|n], b as [t|m]; cbn [PropertyKey_eqb];
    try (split; discriminate).
  - rewrite units_eqb_eq. split; [intros ->; reflexivity|].
    intro H. injection H as ->. reflexivity.
  - rewrite Nat.eqb_eq. split; [intros ->; reflexivity|].
    intro H. injection H as ->. reflexivity.
Qed.

Lemma PropertyKey_eqb_refl (a : PropertyKey) : PropertyKey_eqb a a = true.
Proof. apply PropertyKey_eqb_eq. reflexivity. Qed.

Lemma PropertyKey_eqb_neq (a b : PropertyKey) :
  PropertyKey_eqb a b = false <-> a <> b.
Proof.
  split.
  - intros H E. apply PropertyKey_eqb_eq in E. congruence.
  - intro H. destruct (PropertyKey_eqb a b) eqn:E; [|reflexivity].
    apply PropertyKey_eqb_eq in E. contradiction.
Qed.

Section ObjectFacts.

Variable V : Type.

Implicit Types (o : JsObject V) (keys : list (PropertyKey * option V)).

Lemma own_put_same o k v : own (put o k v) k = Some v.
Proof.
  induction o as [|[k' v'] o IH]; cbn [put own].
  - rewrite PropertyKey_eqb_refl. reflexivity.
  - destruct (PropertyKey_eqb k' k) eqn:E; cbn [own]; rewrite E;
      [reflexivity|exact IH].
Qed.

Lemma own_put_other o k k' v : k <> k' -> own (put o k v) k' = own o k'.
Proof.
  intro N. induction o as [|[k1 v1] o IH]; cbn [put own].
  - apply PropertyKey_eqb_neq in N. rewrite N. reflexivity.
  - destruct (PropertyKey_eqb k1 k) eqn:E; cbn [own].
    + apply PropertyKey_eqb_eq in E. subst k1.
      apply PropertyKey_eqb_neq in N. rewrite N. reflexivity.
    + rewrite IH. reflexivity.
Qed.

Lemma is_undefined_put_other o k k' v :
  k <> k' -> is_undefined (put o k v) k' = is_undefined o k'.
Proof. intro N. unfold is_undefined. rewrite own_put_other by exact N.
  reflexivity. Qed.

Lemma own_none_not_in keys k :
  ~ In k (map fst keys) -> own keys k = None.
Proof.
  induction keys as [|[k1 d1] keys IH]; intro N; [reflexivity|].
  cbn [own]. cbn [map fst In] in N.
  destruct (PropertyKey_eqb k1 k) eqn:E.
  - apply PropertyKey_eqb_eq in E. exfalso. apply N. left. exact E.
  - apply IH. intro H. apply N. right. exact H.
Qed.


Lemma own_assign_same o k v :
  own (assign o k v) k
  = match own o k with
    | Some _ => Some v
    | None =>
        if PropertyKey_eqb k (PKString (js "__proto__")) then None else Some v
    end.
Proof.
  unfold assign. destruct (own o k) as [w|] eqn:O; [apply own_put_same|].
  destruct (PropertyKey_eqb k (PKString (js "__proto__")));
    [exact O|apply own_put_same].
Qed.

Lemma own_assign_other o k k' v : k <> k' -> own (assign o k v) k' = own o k'.
Proof.
  intro N. unfold assign.
  destruct (own o k) as [w|]; [apply own_put_other; exact N|].
  destruct (PropertyKey_eqb k (PKString (js "__proto__")));
    [reflexivity|apply own_put_other; exact N].
Qed.

Lemma not_inherited_not_accessor k :
  Object_prototype_has k = false ->
  PropertyKey_eqb k (PKString (js "__proto__")) = false.
Proof.
  intro H. destruct (PropertyKey_eqb k (PKString (js "__proto__"))) eqn:E;
    [|reflexivity].
  apply PropertyKey_eqb_eq in E. subst k. vm_compute in H. discriminate.
Qed.

(** What the first loop leaves: every listed key has its default, but a
    key [__proto__] that the object had not is still missing. *)
Lemma assign_all_own keys o k :
  NoDup (map fst keys) ->
  own (assign_all keys o) k
  = match own keys k with
    | Some d =>
        match own o k with
        | Some _ => Some d
        | None =>
            if PropertyKey_eqb k (PKString (js "__proto__")) then None
            else Some d
        end
    | None => own o k
    end.
Proof.
  revert o. induction keys as [|[k1 d1] keys IH]; intros o N; [reflexivity|].
  cbn [map fst] in N. inversion N as [|x l N1 N2]; subst x l.
  cbn [assign_all own]. rewrite (IH _ N2).
  destruct (PropertyKey_eqb k1 k) eqn:E.
  - apply PropertyKey_eqb_eq in E. subst k1.
    rewrite (own_none_not_in keys k N1). apply own_assign_same.
  - apply PropertyKey_eqb_neq in E.
    rewrite own_assign_other by exact E. reflexivity.
Qed.

Lemma assign_missing_own keys o k :
  NoDup (map fst keys) ->
  own (assign_missing keys o) k
  = match own keys k with
    | Some d => if is_undefined o k then Some d else own o k
    | None => own o k
    end.
Proof.
  revert o. induction keys as [|[k1 d1] keys IH]; intros o N; [reflexivity|].
  cbn [map fst] in N. inversion N as [|x l N1 N2]; subst x l.
  cbn [assign_missing own]. rewrite (IH _ N2).
  destruct (PropertyKey_eqb k1 k) eqn:E.
  - apply PropertyKey_eqb_eq in E. subst k1.
    rewrite (own_none_not_in keys k N1).
    destruct (is_undefined o k); [apply own_put_same|reflexivity].
  - apply PropertyKey_eqb_neq in E.
    destruct (is_undefined o k1).
    + rewrite own_put_other, is_undefined_put_other by exact E. reflexivity.
    + reflexivity.
Qed.

Lemma assign_missing_keeps keys o k v :
  own o k = Some (Some v) -> own (assign_missing keys o) k = Some (Some v).
Proof.
  revert o. induction keys as [|[k1 d1] keys IH]; intros o H; [exact H|].
  cbn [assign_missing]. apply IH.
  destruct (is_undefined o k1) eqn:U; [|exact H].
  destruct (PropertyKey_eqb k1 k) eqn:E.
  - apply PropertyKey_eqb_eq in E. subst k1.
    unfold is_undefined in U. rewrite H in U. discriminate.
  - apply PropertyKey_eqb_neq in E. rewrite own_put_other by exact E.
    exact H.
Qed.

Lemma isEmpty_own o k :
  isEmpty o = true -> string_key k = true -> own o k = None.
Proof.
  unfold isEmpty. intros E S. apply negb_true_iff in E.
  induction o as [|[k1 v1] o IH]; [reflexivity|].
  cbn [existsb fst] in E. apply orb_false_iff in E. destruct E as [E1 E2].
  cbn [own]. destruct (PropertyKey_eqb k1 k) eqn:Q.
  - apply PropertyKey_eqb_eq in Q. subst k1. congruence.
  - apply IH. exact E2.
Qed.

Lemma own_string_not_empty o k v :
  string_key k = true -> own o k = Some v -> isEmpty o = false.
Proof.
  intros S H. destruct (isEmpty o) eqn:E; [|reflexivity].
  rewrite (isEmpty_own o k E S) in H. discriminate.
Qed.

(** The properties of the object that [defaultValues] returns. *)
Lemma defaultValues_own
    (keys : list (PropertyKey * option V)) (object : option (JsObject V))
    (k : PropertyKey)
    (Hdistinct : NoDup (map fst keys))
    (Hkeys : Forall (fun kd => plain_key (fst kd)) keys) :
  own (defaultValues keys object) k
  = match own keys k with
    | Some d =>
        if is_undefined (match object with Some o => o | None => [] end) k
        then Some d
        else own (match object with Some o => o | None => [] end) k
    | None => own (match object with Some o => o | None => [] end) k
    end.
Proof.
  unfold defaultValues.
  set (o := match object with Some o => o | None => [] end).
  destruct (isEmpty o) eqn:E.
  - rewrite (assign_all_own keys o k Hdistinct).
    destruct (own keys k) as [d|] eqn:K; [|reflexivity].
    assert (P : plain_key k).
    { clear - K Hkeys. induction keys as [|[k1 d1] keys IH]; [discriminate|].
      inversion Hkeys as [|x l P1 P2]; subst x l. cbn [own] in K.
      destruct (PropertyKey_eqb k1 k) eqn:Q.
      - apply PropertyKey_eqb_eq in Q. subst k1. exact P1.
      - apply IH; assumption. }
    destruct P as [P1 P2].
    unfold is_undefined.
    rewrite (isEmpty_own o k E P1), P2, (not_inherited_not_accessor k P2).
    reflexivity.
  - apply assign_missing_own. exact Hdistinct.
Qed.

(** X13.  For distinct keys that are strings which [Object.prototype] does
    not have, the object that [defaultValues] returns has for every key
    the value that the given object has, but the default where the given
    object has the key listed and undefined (or missing); nothing else
    changes.  An argument that is left out counts as the empty object. *)
Theorem defaultValues_fills_what_is_undefined
    (keys : list (PropertyKey * option V)) (object : option (JsObject V))
    (k : PropertyKey)
    (Hdistinct : NoDup (map fst keys))
    (Hkeys : Forall (fun kd => plain_key (fst kd)) keys) :
  own (defaultValues keys object) k
  = match own keys k with
    | Some d =>
        if is_undefined (match object with Some o => o | None => [] end) k
        then Some d
        else own (match object with Some o => o | None => [] end) k
    | None => own (match object with Some o => o | None => [] end) k
    end.
Proof. exact (defaultValues_own keys object k Hdistinct Hkeys). Qed.

(** X14.  [defaultValues] never changes a property whose value is not
    undefined, if its key is a string or the object has any property with
    a string key, whatever the defaults are. *)
Theorem defaultValues_keeps_defined_properties
    (keys : list (PropertyKey * option V)) (o : JsObject V)
    (k : PropertyKey) (v : V)
    (Hseen : string_key k = true \/ isEmpty o = false)
    (Hdefined : own o k = Some (Some v)) :
  own (defaultValues keys (Some o)) k = Some (Some v).
Proof.
  assert (E : isEmpty o = false).
  { destruct Hseen as [S|E]; [|exact E].
    apply (own_string_not_empty o k _ S Hdefined). }
  unfold defaultValues. rewrite E. apply assign_missing_keeps. exact Hdefined.
Qed.


(** X16.  For distinct keys that are strings which [Object.prototype]
    does not have, to apply [defaultValues] to its own result changes
    nothing. *)
Theorem defaultValues_twice
    (keys : list (PropertyKey * option V)) (object : option (JsObject V))
    (k : PropertyKey)
    (Hdistinct : NoDup (map fst keys))
    (Hkeys : Forall (fun kd => plain_key (fst kd)) keys) :
  own (defaultValues keys (Some (defaultValues keys object))) k
  = own (defaultValues keys object) k.
Proof.
  rewrite (defaultValues_own keys
             (Some (defaultValues keys object)) k Hdistinct Hkeys).
  destruct (own keys k) as [d|] eqn:K; [|reflexivity].
  unfold is_undefined at 1.
  rewrite (defaultValues_own keys object k
             Hdistinct Hkeys), K.
  set (o := match object with Some o => o | None => [] end).
  destruct (is_undefined o k) eqn:U.
  - destruct d; reflexivity.
  - unfold is_undefined in U.
    destruct (own o k) as [[v|]|]; try discriminate; try reflexivity.
    destruct (Object_prototype_has k) eqn:P; [|discriminate].
    assert (Pk : plain_key k).
    { clear - K Hkeys. induction keys as [|[k1 d1] keys IH]; [discriminate|].
      inversion Hkeys as [|x l P1 P2]; subst x l. cbn [own] in K.
      destruct (PropertyKey_eqb k1 k) eqn:Q.
      - apply PropertyKey_eqb_eq in Q. subst k1. exact P1.
      - apply IH; assumption. }
    destruct Pk as [_ Pk]. congruence.
Qed.

End ObjectFacts.

Lemma listen_keys_distinct : NoDup (map fst listen_keys).
Proof.
  cbn. constructor; [intros [H|[]]; discriminate|].
  constructor; [intros []|constructor].
Qed.

Lemma listen_keys_plain : Forall (fun kd => plain_key (fst kd)) listen_keys.
Proof. repeat constructor. Qed.

Lemma defaultValues_fills_what_is_undefined_witness :
  own (defaultValues listen_keys (Some port_only)) (PKString (js "host"))
  = match own listen_keys (PKString (js "host")) with
    | Some d =>
        if is_undefined port_only (PKString (js "host"))
        then Some d
        else own port_only (PKString (js "host"))
    | None => own port_only (PKString (js "host"))
    end.
Proof.
  apply (defaultValues_fills_what_is_undefined Z listen_keys
           (Some port_only) (PKString (js "host"))).
  - exact listen_keys_distinct.
  - exact listen_keys_plain.
Defined.

Lemma defaultValues_keeps_defined_properties_witness :
  own (defaultValues listen_keys (Some port_only)) (PKString (js "port"))
  = Some (Some 8080).
Proof.
  apply (defaultValues_keeps_defined_properties Z listen_keys port_only
           (PKString (js "port")) 8080).
  - left. reflexivity.
  - reflexivity.
Defined.


Lemma defaultValues_twice_witness :
  own (defaultValues listen_keys
         (Some (defaultValues listen_keys (Some port_only))))
    (PKString (js "host"))
  = own (defaultValues listen_keys (Some port_only)) (PKString (js "host")).
Proof.
  apply (defaultValues_twice Z listen_keys (Some port_only)
           (PKString (js "host"))).
  - exact listen_keys_distinct.
  - exact listen_keys_plain.
Defined.

(* ================================================================== *)
(** ** Enumerations                                                   *)
(* ================================================================== *)

Section EnumerationFacts.

Local Open Scope nat_scope.

Lemma uint_units_inj (d d' : Decimal.uint) :
  uint_units d = uint_units d' -> d = d'.
Proof.
  revert d'. induction d as [|d IH|d IH|d IH|d IH|d IH|d IH|d IH|d IH|d IH|d IH];
    intros [|e|e|e|e|e|e|e|e|e|e] H; cbn [uint_units] in H;
    try discriminate; try reflexivity;
    injection H as H; f_equal; apply IH; exact H.
Qed.

Lemma decimal_inj (i j : nat) : decimal i = decimal j -> i = j.
Proof.
  intro H. apply uint_units_inj in H.
  rewrite <- (DecimalNat.Unsigned.of_to i), <- (DecimalNat.Unsigned.of_to j), H. reflexivity.
Qed.

Lemma uint_units_digits (d : Decimal.uint) :
  Forall (fun c => (48 <= c <= 57)%Z) (uint_units d).
Proof.
  induction d; cbn [uint_units]; constructor; try assumption; lia.
Qed.

Lemma decimal_not_proto (i : nat) : decimal i <> js "__proto__".
Proof.
  intro H. pose proof (uint_units_digits (Nat.to_uint i)) as D.
  fold (decimal i) in D. rewrite H in D.
  inversion D as [|c l Hc _]. cbn in Hc. lia.
Qed.

Lemma index_key_inj (i j : nat) : index_key i = index_key j -> i = j.
Proof. intro H. injection H as H. apply decimal_inj. exact H. Qed.

Lemma assign_primitive_put (this : JsObject EnumValue) (k : PropertyKey)
    (v : EnumValue) :
  k <> PKString (js "__proto__") ->
  assign_primitive this k v = put this k (Some v).
Proof.
  intro N. unfold assign_primitive.
  destruct (own this k); [reflexivity|].
  apply PropertyKey_eqb_neq in N. rewrite N. reflexivity.
Qed.

(** What the loop of the constructor leaves in the object. *)
Lemma Enumeration_fill_spec (values : list JsString) :
  enumerable_names values ->
  forall (i : nat) (this : JsObject EnumValue),
    snd (Enumeration_fill values i this) = i + List.length values /\
    (forall j v, nth_error values j = Some v ->
       own (fst (Enumeration_fill values i this)) (index_key (i + j))
       = Some (Some (EString v)) /\
       own (fst (Enumeration_fill values i this)) (PKString v)
       = Some (Some (ENumber (i + j)))) /\
    (forall k,
       (forall j, j < List.length values -> k <> index_key (i + j)) ->
       (forall v, In v values -> k <> PKString v) ->
       own (fst (Enumeration_fill values i this)) k = own this k).
Proof.
  intros [Nd Good].
  induction values as [|v values IH]; intros i this.
  - cbn [Enumeration_fill fst snd List.length]. repeat split.
    + lia.
    + destruct j; discriminate.
    + destruct j; discriminate.
  - inversion Nd as [|x l Nv Nd']; subst x l.
    inversion Good as [|x l [Gp Gd] Good']; subst x l.
    specialize (IH Nd' Good').
    cbn [Enumeration_fill].
    set (this1 := assign_primitive this (index_key i) (EString v)).
    set (this2 := assign_primitive this1 (PKString v) (ENumber i)).
    destruct (IH (S i) this2) as (Sz & Ab & Fr).
    assert (P1 : this1 = put this (index_key i) (Some (EString v))).
    { apply assign_primitive_put. intro H. injection H as H.
      apply (decimal_not_proto i H). }
    assert (P2 : this2 = put this1 (PKString v) (Some (ENumber i))).
    { apply assign_primitive_put. intro H. injection H as H. contradiction. }
    assert (Dv : forall j, PKString v <> index_key j).
    { intros j H. injection H as H. apply (Gd j H). }
    repeat split.
    + rewrite Sz. cbn [List.length]. lia.
    + destruct j as [|j]; cbn [nth_error] in H.
      * injection H as <-. rewrite Nat.add_0_r. rewrite Fr.
        -- rewrite P2, own_put_other by apply Dv.
           rewrite P1. apply own_put_same.
        -- intros j _ H. apply index_key_inj in H. lia.
        -- intros v' Hv' H. symmetry in H. apply (Dv i).
           injection H as H.
           rewrite Forall_forall in Good'. destruct (Good' _ Hv') as [_ G].
           exfalso. apply (G i). exact H.
      * replace (i + S j) with (S i + j) by lia.
        apply (Ab j v0 H).
    + destruct j as [|j]; cbn [nth_error] in H.
      * injection H as <-. rewrite Nat.add_0_r. rewrite Fr.
        -- rewrite P2. apply own_put_same.
        -- intros j _. apply Dv.
        -- intros v' Hv' H. injection H as H. subst v'. contradiction.
      * replace (i + S j) with (S i + j) by lia.
        apply (Ab j v0 H).
    + intros k Hk Hv. rewrite Fr.
      * rewrite P2, own_put_other.
        -- rewrite P1, own_put_other; [reflexivity|].
           intro H. apply (Hk 0); [cbn; lia|].
           rewrite Nat.add_0_r. symmetry. exact H.
        -- intro H. apply (Hv v); [left; reflexivity|]. symmetry. exact H.
      * intros j Hj. replace (S i + j) with (i + S j) by lia.
        apply Hk. cbn [List.length]. lia.
      * intros v' Hv'. apply Hv. right. exact Hv'.
Qed.

Lemma Enumeration_take_S (fuel : nat) (this : JsObject EnumValue) (i : nat) :
  Enumeration_take (S fuel) this i
  = match Enumeration_next this i with
    | (Some v, i') =>
        let (vs, done) := Enumeration_take fuel this i' in (v :: vs, done)
    | (None, _) => ([], true)
    end.
Proof. reflexivity. Qed.

Lemma Enumeration_take_values (this : JsObject EnumValue)
    (values : list JsString) (i : nat) :
  (forall j v, nth_error values j = Some v ->
     own this (index_key (i + j)) = Some (Some (EString v))) ->
  own this (index_key (i + List.length values)) = None ->
  Enumeration_take (S (List.length values)) this i
  = (map EString values, true).
Proof.
  revert i. induction values as [|v values IH]; intros i Hv Hn.
  - cbn [List.length] in *. rewrite Nat.add_0_r in Hn.
    rewrite Enumeration_take_S. unfold Enumeration_next. rewrite Hn.
    reflexivity.
  - cbn [List.length]. rewrite Enumeration_take_S.
    unfold Enumeration_next at 1.
    pose proof (Hv 0 v eq_refl) as H0. rewrite Nat.add_0_r in H0.
    rewrite H0. rewrite (IH (S i)).
    + reflexivity.
    + intros j v' H. replace (S i + j) with (i + S j) by lia.
      apply Hv. exact H.
    + replace (S i + List.length values)
        with (i + List.length (v :: values)) by (cbn; lia).
      exact Hn.
Qed.

End EnumerationFacts.

(** X17.  An enumeration of distinct names, none of them the digits of a
    number or [__proto__], maps every index to its name and every name to
    its index, and [SIZE] to the number of names; a string is mapped to a
    number only if it is one of the names, this number being its index;
    and the iteration yields the names in order and is then done. *)
Theorem Enumeration_maps_names_and_indexes (values : list JsString)
    (Hnames : enumerable_names values) :
  (forall i v, nth_error values i = Some v ->
     own (Enumeration_new values) (index_key i) = Some (Some (EString v)) /\
     own (Enumeration_new values) (PKString v) = Some (Some (ENumber i))) /\
  own (Enumeration_new values) SIZE
  = Some (Some (ENumber (List.length values))) /\
  (forall s n, own (Enumeration_new values) (PKString s)
               = Some (Some (ENumber n)) ->
               nth_error values n = Some s) /\
  Enumeration_take (S (List.length values)) (Enumeration_new values) 0
  = (map EString values, true).
Proof.
  unfold Enumeration_new.
  destruct (Enumeration_fill_spec values Hnames 0
              [(Symbol_iterator, Some EIterator)]) as (Sz & Ab & Fr).
  destruct (Enumeration_fill values 0 [(Symbol_iterator, Some EIterator)])
    as [this n] eqn:F.
  cbn [fst snd] in *. cbn [Nat.add] in Sz. subst n.
  assert (P : assign_primitive this SIZE
                (ENumber (List.length values))
              = put this SIZE (Some (ENumber (List.length values)))).
  { apply assign_primitive_put. discriminate. }
  rewrite P.
  assert (Str : forall s, own (put this SIZE
                                 (Some (ENumber (List.length values))))
                            (PKString s) = own this (PKString s)).
  { intro s. apply own_put_other. discriminate. }
  split; [|split; [|split]].
  - intros i v H. destruct (Ab i v H) as [A B]. cbn [Nat.add] in A, B.
    unfold index_key. rewrite !Str. split; assumption.
  - apply own_put_same.
  - intros s n H. rewrite Str in H.
    destruct (in_dec (list_eq_dec Z.eq_dec) s values) as [I|I].
    + apply In_nth_error in I. destruct I as [p Hp].
      destruct (Ab p s Hp) as [_ B]. cbn [Nat.add] in B.
      rewrite B in H. injection H as <-. exact Hp.
    + exfalso.
      assert (D : (exists j, (j < List.length values)%nat /\ s = decimal j) \/
                  ~ (exists j, (j < List.length values)%nat /\ s = decimal j)).
      { clear. generalize (List.length values). intro m.
        induction m as [|m IH].
        - right. intros (j & Hj & _). lia.
        - destruct IH as [(j & Hj & E)|IH].
          + left. exists j. split; [lia|exact E].
          + destruct (list_eq_dec Z.eq_dec s (decimal m)) as [E|E].
            * left. exists m. split; [lia|exact E].
            * right. intros (j & Hj & Ej).
              assert (K : (j < m \/ j = m)%nat) by lia.
              destruct K as [K|K].
              -- apply IH. exists j. split; assumption.
              -- subst j. contradiction. }
      destruct D as [(j & Hj & E)|D].
      * apply nth_error_Some in Hj.
        destruct (nth_error values j) as [v|] eqn:Nj; [|congruence].
        destruct (Ab j v Nj) as [A _]. cbn [Nat.add] in A.
        unfold index_key in A. rewrite <- E in A. rewrite A in H.
        discriminate.
      * rewrite Fr in H.
        -- cbn in H. discriminate.
        -- intros j Hj E. apply D. exists j. split; [exact Hj|].
           cbn [Nat.add] in E. injection E as E. exact E.
        -- intros v Hv E. injection E as E. subst v. contradiction.
  - apply Enumeration_take_values.
    + intros j v H. destruct (Ab j v H) as [A _].
      unfold index_key. rewrite Str. exact A.
    + cbn [Nat.add]. unfold index_key. rewrite Str. rewrite Fr.
      * reflexivity.
      * intros j Hj E. apply index_key_inj in E. cbn [Nat.add] in E. lia.
      * intros v Hv E. injection E as E.
        destruct Hnames as [_ G]. rewrite Forall_forall in G.
        destruct (G v Hv) as [_ G']. apply (G' (List.length values)).
        symmetry. exact E.
Qed.

Lemma level_names_enumerable :
  enumerable_names [js "error"; js "warn"; js "log"; js "info"; js "debug"].
Proof.
  split.
  - repeat (constructor; [cbn; intuition discriminate|]). constructor.
  - repeat (constructor;
            [split; [discriminate|];
             intros i H;
             pose proof (uint_units_digits (Nat.to_uint i)) as D;
             fold (decimal i) in D; rewrite <- H in D;
             inversion D as [|c l Hc _]; cbn in Hc; lia|]).
    constructor.
Qed.

Lemma Enumeration_maps_names_and_indexes_witness :
  (forall i v,
     nth_error [js "error"; js "warn"; js "log"; js "info"; js "debug"] i
     = Some v ->
     own LEVELS (index_key i) = Some (Some (EString v)) /\
     own LEVELS (PKString v) = Some (Some (ENumber i))) /\
  own LEVELS SIZE = Some (Some (ENumber 5)) /\
  (forall s n, own LEVELS (PKString s) = Some (Some (ENumber n)) ->
               nth_error [js "error"; js "warn"; js "log"; js "info";
                          js "debug"] n = Some s) /\
  Enumeration_take 6 LEVELS 0
  = (map EString [js "error"; js "warn"; js "log"; js "info"; js "debug"],
     true).
Proof.
  exact (Enumeration_maps_names_and_indexes _ level_names_enumerable).
Defined.

(* ================================================================== *)
(** ** Ranges                                                         *)
(* ================================================================== *)

Lemma span_run (cls : Z -> bool) (v rest : JsString) :
  Forall (fun c => cls c = true) v ->
  (rest = [] \/ exists d rest', rest = d :: rest' /\ cls d = false) ->
  span cls (v ++ rest) = (v, rest).
Proof.
  intros F R. induction F as [|c v Hc F IH]; cbn [app span].
  - destruct R as [->|(d & rest' & -> & Hd)]; [reflexivity|].
    cbn [span]. rewrite Hd. reflexivity.
  - rewrite Hc, IH. reflexivity.
Qed.

Lemma span_split (cls : Z -> bool) (s : JsString) :
  Forall (fun c => cls c = true) (fst (span cls s)) /\
  s = fst (span cls s) ++ snd (span cls s) /\
  (snd (span cls s) = [] \/
   exists d rest', snd (span cls s) = d :: rest' /\ cls d = false).
Proof.
  induction s as [|c s IH]; cbn [span].
  - cbn. repeat split; auto.
  - destruct (cls c) eqn:E.
    + destruct (span cls s) as [v rest]. cbn [fst snd] in *.
      destruct IH as (F & S & R). repeat split.
      * constructor; assumption.
      * cbn [app]. f_equal. exact S.
      * exact R.
    + cbn [fst snd app]. repeat split; auto.
      right. exists c, s. split; [reflexivity|exact E].
Qed.

Lemma parseInt_uint (d : Decimal.uint) (acc : nat) :
  parseInt_digits (Z.of_nat acc) (uint_units d)
  = Z.of_nat (Nat.of_uint_acc d acc).
Proof.
  revert acc.
  induction d as [|d IH|d IH|d IH|d IH|d IH|d IH|d IH|d IH|d IH|d IH];
    intro acc; cbn [uint_units parseInt_digits Nat.of_uint_acc];
    [reflexivity|..];
    rewrite <- IH; f_equal; rewrite Nat.tail_mul_spec; lia.
Qed.

Lemma parseInt_decimal (n : nat) : parseInt (decimal n) = Z.of_nat n.
Proof.
  unfold parseInt, decimal.
  change 0 with (Z.of_nat 0). rewrite parseInt_uint.
  change (Nat.of_uint_acc (Nat.to_uint n) 0) with (Nat.of_uint (Nat.to_uint n)).
  rewrite DecimalNat.Unsigned.of_to. reflexivity.
Qed.

Lemma decimal_nonempty (n : nat) : decimal n <> [].
Proof.
  unfold decimal. intro H.
  pose proof (DecimalNat.Unsigned.of_to n) as E.
  destruct (Nat.to_uint n) eqn:U; try discriminate.
  cbn in E. subst n. discriminate.
Qed.

Lemma decimal_digits (n : nat) :
  Forall (fun c => is_digit c = true) (decimal n).
Proof.
  eapply Forall_impl; [|apply uint_units_digits].
  intros c Hc. cbv beta in *. unfold is_digit. apply andb_true_iff.
  split; apply Z.leb_le; lia.
Qed.

(** The expression matches a string of this form, and reads its two
    runs of digits. *)
Lemma RANGE_exec_digits (m1 m2 : JsString) :
  m1 <> [] ->
  Forall (fun c => is_digit c = true) m1 ->
  Forall (fun c => is_digit c = true) m2 ->
  RANGE_exec (Some (js "bytes=" ++ m1 ++ js "-" ++ m2))
  = Some (m1, match m2 with [] => None | _ => Some m2 end).
Proof.
  intros N F1 F2. unfold RANGE_exec.
  rewrite lit_rest_app.
  rewrite (span_run is_digit m1 (js "-" ++ m2) F1).
  2:{ right. exists 45, m2. split; reflexivity. }
  destruct m1 as [|c m1]; [contradiction|].
  change (js "-" ++ m2) with (45 :: m2).
  replace m2 with (m2 ++ []) at 1 by apply app_nil_r.
  rewrite (span_run is_digit m2 [] F2) by (left; reflexivity).
  reflexivity.
Qed.

(** The expression matches strings of this form only. *)
Lemma RANGE_exec_some (range : option JsString) (m1 : JsString)
    (g2 : option JsString) :
  RANGE_exec range = Some (m1, g2) ->
  exists m2,
    range = Some (js "bytes=" ++ m1 ++ js "-" ++ m2) /\
    m1 <> [] /\
    Forall (fun c => is_digit c = true) m1 /\
    Forall (fun c => is_digit c = true) m2 /\
    g2 = match m2 with [] => None | _ => Some m2 end.
Proof.
  unfold RANGE_exec. destruct range as [s|]; [|discriminate].
  destruct (RegExp.lit_rest (js "bytes=") s) as [s1|] eqn:L; [|discriminate].
  apply lit_rest_some in L. subst s.
  destruct (span_split is_digit s1) as (F1 & S1 & _).
  destruct (span is_digit s1) as [d1 s2]. cbn [fst snd] in *.
  destruct d1 as [|c d1]; [discriminate|].
  destruct s2 as [|x s3]; [discriminate|].
  destruct (Z.eq_dec x 45) as [->|N].
  2:{ intro H. exfalso.
      destruct x as [|p|p]; try discriminate H.
      do 6 (destruct p as [p|p|]; try discriminate H).
      apply N. reflexivity. }
  destruct (span_split is_digit s3) as (F2 & S2 & _).
  destruct (span is_digit s3) as [d2 s4]. cbn [fst snd] in *.
  destruct s4 as [|y s4]; [|discriminate].
  intro H. injection H as <- <-.
  exists d2. rewrite app_nil_r in S2. subst s3 s1.
  repeat split; try assumption; discriminate.
Qed.

(** X18.  A file that is not empty is never answered with the status 416,
    whatever the range asked for: the handler answers 416 exactly when
    the size is negative, or when the file is empty and the header [range]
    gives no end other than 0. *)
Theorem prepare_refuses_only_an_empty_file (size : Z)
    (range : option JsString) :
  (FileHttpMethodHandler_prepare size range = [WriteHead 416; End] <->
   size < 0 \/
   (size = 0 /\
    forall m1 m2, RANGE_exec range = Some (m1, Some m2) -> parseInt m2 = 0))
  /\
  (0 < size ->
   ~ In (WriteHead 416) (FileHttpMethodHandler_prepare size range) /\
   ~ In End (FileHttpMethodHandler_prepare size range)).
Proof.
  assert (Sz : range_size (HttpRange_new size range) = size).
  { unfold HttpRange_new. destruct (RANGE_exec range) as [[m1 m2]|];
      reflexivity. }
  assert (En : range_end (HttpRange_new size range) = 0 <->
               size = 0 /\
               forall m1 m2, RANGE_exec range = Some (m1, Some m2) ->
                             parseInt m2 = 0).
  { unfold HttpRange_new.
    destruct (RANGE_exec range) as [[m1 [d|]]|]; cbn [range_end].
    - destruct (parseInt d =? 0) eqn:P.
      + apply Z.eqb_eq in P. split.
        * intro H. split; [exact H|]. intros m1' m2' E.
          injection E as _ <-. exact P.
        * intros [H _]. exact H.
      + apply Z.eqb_neq in P. split; [contradiction|].
        intros [_ H]. exfalso. apply P. apply (H m1 d). reflexivity.
    - split; [|intros [H _]; exact H].
      intro H. split; [exact H|]. intros; discriminate.
    - split; [|intros [H _]; exact H].
      intro H. split; [exact H|]. intros; discriminate. }
  unfold FileHttpMethodHandler_prepare. cbv zeta. rewrite Sz.
  split.
  - destruct (size <? 0) eqn:S; cbn [orb].
    + apply Z.ltb_lt in S. split; [left; exact S|reflexivity].
    + apply Z.ltb_ge in S.
      destruct (range_end (HttpRange_new size range) =? 0) eqn:E.
      * apply Z.eqb_eq in E. split; [|reflexivity].
        intros _. right. apply En. exact E.
      * apply Z.eqb_neq in E. split.
        -- unfold HttpRange_setHeader. intro H. discriminate.
        -- intros [H|H]; [lia|]. exfalso. apply E. apply En. exact H.
  - intro P.
    assert (S : (size <? 0) = false) by (apply Z.ltb_ge; lia).
    assert (E : (range_end (HttpRange_new size range) =? 0) = false).
    { apply Z.eqb_neq. intro H. apply En in H. lia. }
    rewrite S, E. cbn [orb]. unfold HttpRange_setHeader.
    destruct (range_size (HttpRange_new size range)
              =? HttpRange_length (HttpRange_new size range));
      cbn [app In]; repeat split.
    + intros [H|[H|[H|[]]]]; discriminate.
    + intros [H|[H|[H|[]]]]; discriminate.
    + intros [H|[H|[H|[H|[H|[]]]]]]; discriminate.
    + intros [H|[H|[H|[H|[H|[]]]]]]; discriminate.
Qed.

(** X19.  The header [bytes=m1-m2], of two runs of digits, the second one
    possibly empty, is read as the range from the number of [m1] to the
    number of [m2]; the end is the size of the file when [m2] is empty
    and when its number is 0. *)
Theorem HttpRange_reads_the_header (size : Z) (m1 m2 : JsString)
    (Hm1 : m1 <> [])
    (Hdigits1 : Forall (fun c => is_digit c = true) m1)
    (Hdigits2 : Forall (fun c => is_digit c = true) m2)
    (Hexact1 : parseInt m1 < 2 ^ 53) (Hexact2 : parseInt m2 < 2 ^ 53) :
  HttpRange_new size (Some (js "bytes=" ++ m1 ++ js "-" ++ m2))
  = {| range_start := parseInt m1;
       range_end := if parseInt m2 =? 0 then size else parseInt m2;
       range_size := size |}.
Proof.
  unfold HttpRange_new.
  rewrite (RANGE_exec_digits m1 m2 Hm1 Hdigits1 Hdigits2).
  destruct m2 as [|c m2]; reflexivity.
Qed.

Lemma HttpRange_reads_the_header_witness :
  HttpRange_new 100 (Some (js "bytes=10-20"))
  = {| range_start := 10; range_end := 20; range_size := 100 |}.
Proof.
  apply (HttpRange_reads_the_header 100 (js "10") (js "20")).
  - discriminate.
  - repeat (apply Forall_cons; [reflexivity|]). apply Forall_nil.
  - repeat (apply Forall_cons; [reflexivity|]). apply Forall_nil.
  - vm_compute. reflexivity.
  - vm_compute. reflexivity.
Defined.

(** X20.  A range that starts beyond the end of a file is not refused:
    for the header [bytes=a-] with [a] greater than the size, the handler
    sets a negative Content-Length, the size minus [a], and the status
    206. *)
Theorem range_beyond_the_end_sets_a_negative_length (size a : nat)
    (Hsize : (0 < size)%nat) (Hbeyond : (size < a)%nat)
    (Hexact : Z.of_nat a < 2 ^ 53) :
  FileHttpMethodHandler_prepare (Z.of_nat size) (Some (range_header a None))
  = [SetHeader (js "Content-Length") (HNumber (Z.of_nat size - Z.of_nat a));
     SetHeader (js "Content-Range")
       (HString (js "bytes " ++ decimal a ++ js "-" ++ decimal size
                 ++ js "/" ++ decimal size));
     SetHeader (js "Accept-Range") (HString (js "bytes"));
     SetStatusCode 206;
     SetHeader (js "Content-Type") (HString (js "applications/octet-stream"))]
  /\ Z.of_nat size - Z.of_nat a < 0.
Proof.
  split; [|lia].
  assert (E : RANGE_exec (Some (range_header a None)) = Some (decimal a, None))
    by exact (RANGE_exec_digits (decimal a) []
                (decimal_nonempty a) (decimal_digits a) (Forall_nil _)).
  unfold FileHttpMethodHandler_prepare, HttpRange_new. rewrite E.
  cbv zeta. cbn [range_size range_end].
  replace (Z.of_nat size <? 0) with false by (symmetry; apply Z.ltb_ge; lia).
  replace (Z.of_nat size =? 0) with false by (symmetry; apply Z.eqb_neq; lia).
  cbn [orb]. unfold HttpRange_setHeader, HttpRange_length,
    HttpRange_contentRange, HttpRange_unit, number_string.
  cbn [range_size range_end range_start].
  rewrite parseInt_decimal.
  replace (Z.of_nat size =? Z.of_nat size - Z.of_nat a) with false
    by (symmetry; apply Z.eqb_neq; lia).
  replace (Z.of_nat a <? 0) with false by (symmetry; apply Z.ltb_ge; lia).
  replace (Z.of_nat size <? 0) with false by (symmetry; apply Z.ltb_ge; lia).
  rewrite !Nat2Z.id. reflexivity.
Qed.

Lemma range_beyond_the_end_sets_a_negative_length_witness :
  FileHttpMethodHandler_prepare 10 (Some (js "bytes=20-"))
  = [SetHeader (js "Content-Length") (HNumber (-10));
     SetHeader (js "Content-Range") (HString (js "bytes 20-10/10"));
     SetHeader (js "Accept-Range") (HString (js "bytes"));
     SetStatusCode 206;
     SetHeader (js "Content-Type") (HString (js "applications/octet-stream"))].
Proof.
  exact (proj1 (range_beyond_the_end_sets_a_negative_length 10 20
                  ltac:(lia) ltac:(lia) ltac:(vm_compute; reflexivity))).
Defined.

(** X21.  A header [range] of any other form, and a request without one,
    is answered with the whole of a file that is not empty: the status
    200, and the size as Content-Length.  Such is a range of the last
    bytes, [bytes=-500]. *)
Theorem other_range_headers_give_the_whole_file (size : Z)
    (range : option JsString) (Hsize : 0 < size)
    (Hother : forall m1 m2,
        range = Some (js "bytes=" ++ m1 ++ js "-" ++ m2) ->
        Forall (fun c => is_digit c = true) m1 ->
        Forall (fun c => is_digit c = true) m2 -> m1 = []) :
  FileHttpMethodHandler_prepare size range
  = [SetHeader (js "Content-Length") (HNumber size);
     SetStatusCode 200;
     SetHeader (js "Content-Type") (HString (js "applications/octet-stream"))].
Proof.
  assert (E : RANGE_exec range = None).
  { destruct (RANGE_exec range) as [[m1 g2]|] eqn:E; [|reflexivity].
    exfalso. apply RANGE_exec_some in E.
    destruct E as (m2 & R & N & F1 & F2 & _).
    apply N. apply (Hother m1 m2 R F1 F2). }
  unfold FileHttpMethodHandler_prepare, HttpRange_new. rewrite E.
  cbv zeta. cbn [range_size range_end].
  replace (size <? 0) with false by (symmetry; apply Z.ltb_ge; lia).
  replace (size =? 0) with false by (symmetry; apply Z.eqb_neq; lia).
  cbn [orb]. unfold HttpRange_setHeader, HttpRange_length.
  cbn [range_size range_end range_start].
  replace (size =? size - 0) with true by (symmetry; apply Z.eqb_eq; lia).
  rewrite Z.sub_0_r. reflexivity.
Qed.

Lemma other_range_headers_give_the_whole_file_witness :
  FileHttpMethodHandler_prepare 1000 (Some (js "bytes=-500"))
  = [SetHeader (js "Content-Length") (HNumber 1000);
     SetStatusCode 200;
     SetHeader (js "Content-Type") (HString (js "applications/octet-stream"))].
Proof.
  apply (other_range_headers_give_the_whole_file 1000
           (Some (js "bytes=-500"))).
  - lia.
  - intros m1 m2 E F1 _. injection E as E.
    destruct m1 as [|c m1]; [reflexivity|].
    injection E as <- _. inversion F1 as [|x l Hc _]. discriminate Hc.
Defined.

(* ================================================================== *)
(** ** The server                                                     *)
(* ================================================================== *)

Lemma Set_has_In (s : list JsString) (x : JsString) :
  Set_has s x = true <-> In x s.
Proof.
  unfold Set_has. rewrite existsb_exists. split.
  - intros (y & I & E). apply units_eqb_eq in E. subst y. exact I.
  - intro I. exists x. split; [exact I|]. apply units_eqb_eq. reflexivity.
Qed.

Lemma Set_has_ext (s t : list JsString) (x : JsString) :
  (In x s <-> In x t) -> Set_has s x = Set_has t x.
Proof.
  intro H. destruct (Set_has s x) eqn:A, (Set_has t x) eqn:B;
    try reflexivity.
  - apply Set_has_In, H, Set_has_In in A. congruence.
  - apply Set_has_In, H, Set_has_In in B. congruence.
Qed.

Lemma Set_add_In (s : list JsString) (x y : JsString) :
  In y (Set_add s x) <-> In y s \/ y = x.
Proof.
  unfold Set_add. destruct (Set_has s x) eqn:H.
  - apply Set_has_In in H. split; [left; assumption|].
    intros [I| ->]; assumption.
  - rewrite in_app_iff. cbn [In]. split.
    + intros [I|[E|[]]]; [left; exact I|right; symmetry; exact E].
    + intros [I|E]; [left; exact I|right; left; symmetry; exact E].
Qed.

Lemma Set_fold_In (l s : list JsString) (y : JsString) :
  In y (fold_left Set_add l s) <-> In y s \/ In y l.
Proof.
  revert s. induction l as [|x l IH]; intro s; cbn [fold_left In].
  - tauto.
  - rewrite IH, Set_add_In. split.
    + intros [[I|E]|I]; auto.
    + intros [I|[E|I]]; auto.
Qed.

Lemma Set_delete_In (s : list JsString) (x y : JsString) :
  In y (snd (Set_delete s x)) <-> In y s /\ y <> x.
Proof.
  unfold Set_delete. cbn [snd]. rewrite filter_In, negb_true_iff. split.
  - intros [I E]. split; [exact I|]. intros ->.
    assert (T : units_eqb x x = true) by (apply units_eqb_eq; reflexivity).
    congruence.
  - intros [I N]. split; [exact I|].
    destruct (units_eqb x y) eqn:E; [|reflexivity].
    apply units_eqb_eq in E. congruence.
Qed.

(** The option [methods] is what the constructor reads, whatever the
    defaults add. *)
Lemma serverOptions_methods (options : option (JsObject (list JsString))) :
  match own (serverOptions options) (PKString (js "methods")) with
  | Some (Some l) => l
  | _ => []
  end = asked_methods options.
Proof.
  unfold serverOptions, asked_methods, defaultValues.
  assert (D : NoDup (map fst [(PKString (js "method"), Some (@nil JsString))])).
  { cbn. constructor; [intros []|constructor]. }
  destruct options as [o|].
  - destruct (isEmpty o) eqn:E.
    + rewrite (assign_all_own _ _ o (PKString (js "methods")) D).
      cbn [own PropertyKey_eqb].
      replace (units_eqb (js "method") (js "methods")) with false
        by reflexivity.
      reflexivity.
    + rewrite (assign_missing_own _ _ o (PKString (js "methods")) D).
      cbn [own PropertyKey_eqb].
      replace (units_eqb (js "method") (js "methods")) with false
        by reflexivity.
      reflexivity.
  - cbn. reflexivity.
Qed.

Section ServerFacts.

Variable METHODS : list JsString.
Variables toUpperCase toLowerCase : JsString -> JsString.
Variable UserHandler : Type.
Variable behaviour : UserHandler -> list ResCall * Settled.

Lemma constructor_loop_spec (ms : list JsString) :
  NoDup ms ->
  forall (set : list JsString) (this : HttpServer UserHandler),
  exists server,
    constructor_loop toUpperCase toLowerCase UserHandler ms set this
    = Some (Ok server) /\
    methods server = methods this ++ filter (Set_has set) ms /\
    (forall m, In m ms ->
       own (_handlers server) (PKString m)
       = Some (Some (if Set_has set m then [] else [NOT_ALLOWED_METHOD]))) /\
    (forall k, (forall m, In m ms -> k <> PKString m) ->
       own (_handlers server) k = own (_handlers this) k).
Proof.
  induction 1 as [|m ms Nm N IH]; intros set this.
  - exists this. cbn [constructor_loop filter In]. rewrite app_nil_r.
    repeat split; auto. intros m [].
  - cbn [constructor_loop]. unfold Set_delete.
    set (set' := filter (fun y => negb (units_eqb m y)) set).
    assert (S' : forall m', In m' ms -> Set_has set' m' = Set_has set m').
    { intros m' I. apply Set_has_ext.
      pose proof (Set_delete_In set m m') as D. cbn [Set_delete snd] in D.
      fold set' in D. rewrite D. split; [tauto|].
      intro J. split; [exact J|]. intros ->. contradiction. }
    assert (F : filter (Set_has set') ms = filter (Set_has set) ms)
      by (apply filter_ext_in; exact S').
    pose proof (toCamelCase_splits toUpperCase toLowerCase m 0) as C.
    rewrite Nat.add_0_r in C.
    destruct (Set_has set m) eqn:Hm.
    + rewrite C.
      match goal with
      | |- context [constructor_loop _ _ _ ms set' ?t] =>
          destruct (IH set' t) as (server & L & M & A & B)
      end.
      exists server. cbn [methods _handlers] in *.
      split; [exact L|]. split; [|split].
      * rewrite M, F. cbn [filter]. rewrite Hm, <- app_assoc. reflexivity.
      * intros m' [<-|I].
        -- rewrite B, own_put_same, Hm; [reflexivity|].
           intros m' I E. injection E as <-. contradiction.
        -- rewrite (A m' I), (S' m' I). reflexivity.
      * intros k Hk. rewrite B.
        -- apply own_put_other. intro E. apply (Hk m); [left; reflexivity|].
           symmetry. exact E.
        -- intros m' I. apply Hk. right. exact I.
    + match goal with
      | |- context [constructor_loop _ _ _ ms set' ?t] =>
          destruct (IH set' t) as (server & L & M & A & B)
      end.
      exists server. cbn [methods _handlers] in *.
      split; [exact L|]. split; [|split].
      * rewrite M, F. cbn [filter]. rewrite Hm. reflexivity.
      * intros m' [<-|I].
        -- rewrite B, own_put_same, Hm; [reflexivity|].
           intros m' I E. injection E as <-. contradiction.
        -- rewrite (A m' I), (S' m' I). reflexivity.
      * intros k Hk. rewrite B.
        -- apply own_put_other. intro E. apply (Hk m); [left; reflexivity|].
           symmetry. exact E.
        -- intros m' I. apply Hk. right. exact I.
Qed.

(** The set of the constructor holds GET, HEAD and what the options ask
    for. *)
Lemma constructor_set (options : option (JsObject (list JsString)))
    (m : JsString) :
  Set_has
    (Set_add (Set_add
       (Set_new match own (serverOptions options) (PKString (js "methods"))
                with
                | Some v => v
                | None => None
                end) (js "GET")) (js "HEAD")) m
  = allowed options m.
Proof.
  unfold allowed. apply Set_has_ext.
  rewrite !Set_add_In. rewrite <- (serverOptions_methods options).
  cbn [In]. unfold Set_new.
  destruct (own (serverOptions options) (PKString (js "methods")))
    as [[l|]|].
  - rewrite Set_fold_In. cbn [In]. intuition congruence.
  - cbn [In]. intuition congruence.
  - cbn [In]. intuition congruence.
Qed.

Lemma HttpServer_new_spec (options : option (JsObject (list JsString))) :
  NoDup METHODS ->
  exists server : HttpServer UserHandler,
    HttpServer_new METHODS toUpperCase toLowerCase UserHandler options
    = Some (Ok server) /\
    methods server = filter (allowed options) METHODS /\
    (forall m, In m METHODS ->
       own (_handlers server) (PKString m)
       = Some (Some (if allowed options m then []
                     else [NOT_ALLOWED_METHOD]))) /\
    (forall m, ~ In m METHODS -> own (_handlers server) (PKString m) = None).
Proof.
  intro N. unfold HttpServer_new. cbv zeta.
  match goal with
  | |- context [constructor_loop _ _ _ METHODS ?s ?t] =>
      destruct (constructor_loop_spec METHODS N s t)
        as (server & L & M & A & B)
  end.
  exists server. cbn [methods _handlers] in *.
  split; [exact L|]. split; [|split].
  - rewrite M. cbn [app]. apply filter_ext. intro m. apply constructor_set.
  - intros m I. rewrite (A m I), constructor_set. reflexivity.
  - intros m I. rewrite B; [reflexivity|].
    intros m' I' E. injection E as <-. contradiction.
Qed.

Lemma on_loop_spec (h : UserHandler) (ms : list JsString) :
  NoDup ms ->
  forall this : HttpServer UserHandler,
  (forall m, In m ms ->
     exists hs, own (_handlers this) (PKString m) = Some (Some hs)) ->
  exists server,
    on_loop UserHandler ms this h = Ok server /\
    methods server = methods this /\
    (forall m hs, In m ms ->
       own (_handlers this) (PKString m) = Some (Some hs) ->
       own (_handlers server) (PKString m) = Some (Some (hs ++ [User h]))) /\
    (forall k, (forall m, In m ms -> k <> PKString m) ->
       own (_handlers server) k = own (_handlers this) k).
Proof.
  induction 1 as [|m ms Nm N IH]; intros this Has.
  - exists this. cbn [on_loop]. repeat split; auto. intros m hs [].
  - cbn [on_loop]. unfold push_handler.
    destruct (Has m (or_introl eq_refl)) as (hs0 & H0). rewrite H0.
    match goal with
    | |- context [on_loop UserHandler ms ?t h] =>
        destruct (IH t) as (server & L & M & A & B)
    end.
    + intros m' I. cbn [_handlers].
      destruct (Has m' (or_intror I)) as (hs' & H').
      exists hs'. rewrite own_put_other; [exact H'|].
      intro E. injection E as <-. contradiction.
    + exists server. cbn [methods _handlers] in *.
      split; [exact L|]. split; [exact M|]. split.
      * intros m' hs [<-|I] Hm.
        -- rewrite B, own_put_same.
           ++ rewrite H0 in Hm. injection Hm as <-. reflexivity.
           ++ intros m' I E. injection E as <-. contradiction.
        -- apply (A m' hs I). rewrite own_put_other; [exact Hm|].
           intro E. injection E as <-. contradiction.
      * intros k Hk. rewrite B.
        -- apply own_put_other. intro E. apply (Hk m); [left; reflexivity|].
           symmetry. exact E.
        -- intros m' I. apply Hk. right. exact I.
Qed.

Lemma on_served (options : option (JsObject (list JsString)))
    (server : HttpServer UserHandler) (pushed : list UserHandler) (h : UserHandler) :
  NoDup METHODS ->
  served METHODS options server pushed ->
  exists server',
    on UserHandler server h = Ok server' /\
    served METHODS options server' (pushed ++ [h]).
Proof.
  intros N (M & A & B). unfold on.
  assert (Nf : NoDup (methods server))
    by (rewrite M; apply NoDup_filter; exact N).
  destruct (on_loop_spec h (methods server) Nf server)
    as (server' & L & M' & A' & B').
  { intros m I. rewrite M in I. apply filter_In in I. destruct I as [I _].
    rewrite (A m I). eexists. reflexivity. }
  exists server'. split; [exact L|]. split; [|split].
  - rewrite M'. exact M.
  - intros m I. destruct (allowed options m) eqn:Al.
    + rewrite (A' m (map User pushed)).
      * rewrite map_app. reflexivity.
      * rewrite M. apply filter_In. split; assumption.
      * rewrite (A m I), Al. reflexivity.
    + rewrite B'.
      * rewrite (A m I), Al. reflexivity.
      * intros m' I' E. injection E as <-.
        rewrite M in I'. apply filter_In in I'. destruct I' as [_ I'].
        congruence.
  - intros m I. rewrite B'; [apply B; exact I|].
    intros m' I' E. injection E as <-.
    rewrite M in I'. apply filter_In in I'. destruct I' as [I' _].
    contradiction.
Qed.

Lemma on_all_served (options : option (JsObject (list JsString)))
    (hs : list UserHandler) :
  NoDup METHODS ->
  forall (server : HttpServer UserHandler) (pushed : list UserHandler),
  served METHODS options server pushed ->
  exists server',
    on_all UserHandler server hs = Ok server' /\
    served METHODS options server' (pushed ++ hs).
Proof.
  intro N. induction hs as [|h hs IH]; intros server pushed S.
  - exists server. rewrite app_nil_r. split; [reflexivity|exact S].
  - cbn [on_all].
    destruct (on_served options server pushed h N S) as (s1 & O & S1).
    rewrite O. destruct (IH s1 (pushed ++ [h]) S1) as (s2 & O2 & S2).
    exists s2. split; [exact O2|].
    rewrite <- app_assoc in S2. exact S2.
Qed.

Lemma new_served (options : option (JsObject (list JsString))) :
  NoDup METHODS ->
  exists server : HttpServer UserHandler,
    HttpServer_new METHODS toUpperCase toLowerCase UserHandler options
    = Some (Ok server) /\
    served METHODS options server [].
Proof.
  intro N. destruct (HttpServer_new_spec options N) as (s & E & M & A & B).
  exists s. split; [exact E|]. split; [exact M|]. split; [|exact B].
  intros m I. rewrite (A m I). reflexivity.
Qed.

(** X22.  The constructor allows GET, HEAD and the methods of the option
    [methods], as far as Node knows them: the field [methods] lists them
    in the order of [http.METHODS], each of them starts without a
    handler, and every other method of Node has the one handler that
    answers 501.  A name that Node does not know has no entry, and the
    option [method], for which [serverOptions] has a default, counts for
    nothing. *)
Theorem constructor_allows_what_is_asked_for
    (options : option (JsObject (list JsString)))
    (Hdistinct : NoDup METHODS)
    (Hplain : Forall (fun m => plain_key (PKString m)) METHODS) :
  exists server : HttpServer UserHandler,
    HttpServer_new METHODS toUpperCase toLowerCase UserHandler options
    = Some (Ok server) /\
    methods server = filter (allowed options) METHODS /\
    (forall m, In m METHODS ->
       own (_handlers server) (PKString m)
       = Some (Some (if allowed options m then []
                     else [NOT_ALLOWED_METHOD]))) /\
    (forall m, ~ In m METHODS -> own (_handlers server) (PKString m) = None).
Proof. exact (HttpServer_new_spec options Hdistinct). Qed.

(** X23.  A handler given to [on] runs for the allowed methods only: after
    [on(h1).on(h2)...] on a new server, a request with an allowed method
    runs these handlers in this order, up to the first one that does not
    end well, and a request with another method of Node is answered with
    501 and ended, none of the handlers being called. *)
Theorem on_serves_the_allowed_methods_only
    (options : option (JsObject (list JsString))) (hs : list UserHandler)
    (Hdistinct : NoDup METHODS)
    (Hplain : Forall (fun m => plain_key (PKString m)) METHODS) :
  exists server server' : HttpServer UserHandler,
    HttpServer_new METHODS toUpperCase toLowerCase UserHandler options
    = Some (Ok server) /\
    on_all UserHandler server hs = Ok server' /\
    methods server' = methods server /\
    forall m, In m METHODS ->
      _requestHandler UserHandler behaviour server' m
      = if allowed options m
        then conclude (run_handlers UserHandler behaviour (map User hs))
        else [OnResponse (WriteHead 501); OnResponse End].
Proof.
  destruct (new_served options Hdistinct) as (s & E & S).
  destruct (on_all_served options hs Hdistinct s [] S) as (s' & O & S').
  exists s, s'. split; [exact E|]. split; [exact O|].
  destruct S as (M & _), S' as (M' & A' & _).
  split; [rewrite M, M'; reflexivity|].
  intros m I. unfold _requestHandler. rewrite (A' m I).
  destruct (allowed options m); reflexivity.
Qed.

(** X24.  [addHandler] does not look at what is allowed: for a method of
    Node that the server does not allow, the handler is added behind the
    one that answers 501, and a request with this method runs it after
    the 501.  For a name that Node does not know, [addHandler] throws a
    TypeError. *)
Theorem addHandler_ignores_what_is_allowed
    (options : option (JsObject (list JsString))) (m : JsString)
    (h : UserHandler)
    (Hdistinct : NoDup METHODS)
    (Hplain : Forall (fun m => plain_key (PKString m)) METHODS) :
  exists server : HttpServer UserHandler,
    HttpServer_new METHODS toUpperCase toLowerCase UserHandler options
    = Some (Ok server) /\
    (In m METHODS -> allowed options m = false ->
     exists server',
       addHandler UserHandler server m h = Ok server' /\
       methods server' = methods server /\
       ~ In m (methods server') /\
       _requestHandler UserHandler behaviour server' m
       = conclude (WriteHead 501 :: fst (behaviour h), snd (behaviour h))) /\
    (~ In m METHODS ->
     addHandler UserHandler server m h = Throw TypeError).
Proof.
  destruct (HttpServer_new_spec options Hdistinct) as (s & E & M & A & B).
  exists s. split; [exact E|]. split.
  - intros I Al. unfold addHandler, push_handler.
    rewrite (A m I), Al. eexists. split; [reflexivity|].
    cbn [methods _handlers]. split; [reflexivity|]. split.
    + rewrite M. intro J. apply filter_In in J. destruct J as [_ J].
      congruence.
    + unfold _requestHandler. cbn [_handlers]. rewrite own_put_same.
      cbn [app run_handlers handle].
      destruct (behaviour h) as [cs [| |]]; cbn [fst snd app];
        try reflexivity.
      rewrite app_nil_r. reflexivity.
  - intro I. unfold addHandler, push_handler. rewrite (B m I). reflexivity.
Qed.

End ServerFacts.

Lemma some_methods_distinct : NoDup some_methods.
Proof.
  unfold some_methods.
  repeat (constructor;
          [cbn [In]; intro H;
           repeat (destruct H as [H|H]; [discriminate H|]); exact H|]).
  constructor.
Qed.

Lemma some_methods_plain :
  Forall (fun m => plain_key (PKString m)) some_methods.
Proof. repeat constructor. Qed.

Lemma constructor_allows_what_is_asked_for_witness :
  exists server : HttpServer nat,
    HttpServer_new some_methods toUpperCase_ascii toLowerCase_ascii nat
      (Some with_post)
    = Some (Ok server) /\
    methods server = [js "GET"; js "HEAD"; js "POST"].
Proof.
  destruct (constructor_allows_what_is_asked_for some_methods
              toUpperCase_ascii toLowerCase_ascii nat (Some with_post)
              some_methods_distinct some_methods_plain)
    as (server & E & M & _).
  exists server. split; [exact E|]. rewrite M. reflexivity.
Defined.

Lemma on_serves_the_allowed_methods_only_witness :
  exists server server' : HttpServer nat,
    HttpServer_new some_methods toUpperCase_ascii toLowerCase_ascii nat
      (Some with_post)
    = Some (Ok server) /\
    on_all nat server [200%nat; 404%nat] = Ok server' /\
    _requestHandler nat sets_status server' (js "POST")
    = [OnResponse (SetStatusCode 200); OnResponse (SetStatusCode 404);
       OnResponse End] /\
    _requestHandler nat sets_status server' (js "PUT")
    = [OnResponse (WriteHead 501); OnResponse End].
Proof.
  destruct (on_serves_the_allowed_methods_only some_methods
              toUpperCase_ascii toLowerCase_ascii nat sets_status
              (Some with_post) [200%nat; 404%nat]
              some_methods_distinct some_methods_plain)
    as (server & server' & E & O & _ & R).
  exists server, server'. split; [exact E|]. split; [exact O|]. split.
  - rewrite (R (js "POST")); [reflexivity|].
    cbn. right. right. right. right. left. reflexivity.
  - rewrite (R (js "PUT")); [reflexivity|].
    cbn. right. right. right. right. right. left. reflexivity.
Defined.

Lemma addHandler_ignores_what_is_allowed_witness :
  exists server server' : HttpServer nat,
    HttpServer_new some_methods toUpperCase_ascii toLowerCase_ascii nat
      (Some with_post)
    = Some (Ok server) /\
    addHandler nat server (js "PUT") 200%nat = Ok server' /\
    _requestHandler nat sets_status server' (js "PUT")
    = [OnResponse (WriteHead 501); OnResponse (SetStatusCode 200);
       OnResponse End] /\
    addHandler nat server (js "put") 200%nat = Throw TypeError.
Proof.
  destruct (addHandler_ignores_what_is_allowed some_methods
              toUpperCase_ascii toLowerCase_ascii nat sets_status
              (Some with_post) (js "PUT") 200%nat
              some_methods_distinct some_methods_plain)
    as (server & E & A & _).
  destruct A as (server' & A & _ & _ & R).
  { cbn. right. right. right. right. right. left. reflexivity. }
  { reflexivity. }
  exists server, server'. split; [exact E|]. split; [exact A|].
  split; [exact R|].
  destruct (addHandler_ignores_what_is_allowed some_methods
              toUpperCase_ascii toLowerCase_ascii nat sets_status
              (Some with_post) (js "put") 200%nat
              some_methods_distinct some_methods_plain)
    as (server2 & E2 & _ & T).
  rewrite E in E2. injection E2 as <-. apply T.
  cbn [some_methods In]. intro H.
  repeat (destruct H as [H|H]; [discriminate H|]). exact H.
Defined.

(* ================================================================== *)
(** ** Maps                                                           *)
(* ================================================================== *)

Section MapFacts.

Variables K V : Type.
Variable K_eqb : K -> K -> bool.
Hypothesis K_eqb_eq : forall a b, K_eqb a b = true <-> a = b.

Lemma K_eqb_refl (k : K) : K_eqb k k = true.
Proof. apply K_eqb_eq. reflexivity. Qed.

Lemma K_eqb_neq (a b : K) : a <> b -> K_eqb a b = false.
Proof.
  intro N. destruct (K_eqb a b) eqn:E; [|reflexivity].
  apply K_eqb_eq in E. contradiction.
Qed.

Lemma Map_get_set_same (map : JsMap K V) (key : K) (value : option V) :
  Map_get K_eqb (Map_set K_eqb map key value) key = value.
Proof.
  induction map as [|[k v] map IH]; cbn [Map_set Map_get].
  - rewrite K_eqb_refl. reflexivity.
  - destruct (K_eqb k key) eqn:E; cbn [Map_get]; rewrite E;
      [reflexivity|exact IH].
Qed.

Lemma Map_get_set_other (map : JsMap K V) (key k' : K) (value : option V) :
  k' <> key ->
  Map_get K_eqb (Map_set K_eqb map key value) k' = Map_get K_eqb map k'.
Proof.
  intro N. induction map as [|[k v] map IH]; cbn [Map_set Map_get].
  - rewrite K_eqb_neq by congruence. reflexivity.
  - destruct (K_eqb k key) eqn:E; cbn [Map_get].
    + apply K_eqb_eq in E. subst k.
      rewrite K_eqb_neq by congruence. reflexivity.
    + rewrite IH. reflexivity.
Qed.

Lemma Map_set_set (map : JsMap K V) (key : K) (v w : option V) :
  Map_set K_eqb (Map_set K_eqb map key v) key w = Map_set K_eqb map key w.
Proof.
  induction map as [|[k u] map IH]; cbn [Map_set].
  - rewrite K_eqb_refl. reflexivity.
  - destruct (K_eqb k key) eqn:E; cbn [Map_set]; rewrite E;
      [reflexivity|]. rewrite IH. reflexivity.
Qed.

(** X25.  After [computeIfAbsentMap], the map gives for the key the value
    that the call returned, and for any other key what it gave before.
    The mapping function is called, once and with the key, exactly when
    the map gave undefined for the key.  A second call returns the same
    value and leaves the map as it is; it calls the mapping function
    again exactly when this value is undefined. *)
Theorem computeIfAbsentMap_remembers (map : JsMap K V) (key : K)
    (mappingFunction : K -> option V) :
  let '(map', calls, value) :=
    computeIfAbsentMap K_eqb map key mappingFunction in
  Map_get K_eqb map' key = value /\
  (forall k, k <> key -> Map_get K_eqb map' k = Map_get K_eqb map k) /\
  calls = match Map_get K_eqb map key with
          | None => [key]
          | Some _ => []
          end /\
  value = match Map_get K_eqb map key with
          | None => mappingFunction key
          | Some v => Some v
          end /\
  computeIfAbsentMap K_eqb map' key mappingFunction
  = (map', match value with None => [key] | Some _ => [] end, value).
Proof.
  unfold computeIfAbsentMap.
  destruct (Map_get K_eqb map key) as [v|] eqn:G.
  - rewrite G. repeat split; auto.
  - cbv zeta. rewrite Map_get_set_same.
    split; [reflexivity|]. split.
    { intros k N. apply Map_get_set_other. exact N. }
    split; [reflexivity|]. split; [reflexivity|].
    destruct (mappingFunction key) as [v|] eqn:F; [reflexivity|].
    rewrite Map_set_set. reflexivity.
Qed.

End MapFacts.

Lemma computeIfAbsentMap_remembers_witness :
  computeIfAbsentMap Nat.eqb [(4%nat, Some 2%nat)] 6%nat halves
  = ([(4%nat, Some 2%nat); (6%nat, Some 3%nat)], [6%nat], Some 3%nat) /\
  Map_get Nat.eqb [(4%nat, Some 2%nat); (6%nat, Some 3%nat)] 6%nat
  = Some 3%nat.
Proof.
  split; [reflexivity|].
  exact (proj1 (computeIfAbsentMap_remembers nat nat Nat.eqb Nat.eqb_eq
                  [(4%nat, Some 2%nat)] 6%nat halves)).
Defined.
